(** * Instabot Trader: the exchange manager (src/exchanges/manager.js)

    A shallow embedding of [ExchangeManager] and the properties of its
    mini-language parser, its reference counted pool of exchanges, its
    sequence executor and its alert extractor.

    Strings are JavaScript strings: lists of UTF-16 code units.  The regular
    expression literals of the source are kept as syntax trees and run by a
    backtracking matcher that returns every way to match in the order in
    which a backtracking engine tries them; the head of that list is the
    match JavaScript reports. *)

From Stdlib Require Import String Ascii.
From Stdlib Require Import List NArith ZArith Bool Arith Lia.
Import ListNotations.

(** ** Strings *)

Definition char := N.
Definition str := list char.

(** An ASCII literal as a JavaScript string. *)
Definition js (s : string) : str := map N_of_ascii (list_ascii_of_string s).

Definition str_eqb (a b : str) : bool :=
  if list_eq_dec N.eq_dec a b then true else false.

Definition is_empty (s : str) : bool :=
  match s with [] => true | _ => false end.

Definition c_dq : char := 34%N.      (* the double quote *)
Definition c_comma : char := 44%N.
Definition c_eq : char := 61%N.
Definition c_lpar : char := 40%N.
Definition c_rpar : char := 41%N.
Definition c_lbrace : char := 123%N.
Definition c_rbrace : char := 125%N.
Definition c_bang : char := 33%N.
Definition c_space : char := 32%N.

Open Scope N_scope.

Definition in_range (lo hi c : char) : bool := (lo <=? c) && (c <=? hi).

(** LineTerminator: LF, CR, LS, PS. *)
Definition is_line_terminator (c : char) : bool :=
  (c =? 10) || (c =? 13) || (c =? 8232) || (c =? 8233).

(** WhiteSpace and LineTerminator: the class [\s], and what [trim] strips. *)
Definition is_space (c : char) : bool :=
  in_range 9 13 c || (c =? 32) || (c =? 160) || (c =? 5760)
  || in_range 8192 8202 c || (c =? 8232) || (c =? 8233)
  || (c =? 8239) || (c =? 8287) || (c =? 12288) || (c =? 65279).

Definition is_lower (c : char) : bool := in_range 97 122 c.
Definition is_upper (c : char) : bool := in_range 65 90 c.
Definition is_digit (c : char) : bool := in_range 48 57 c.
(** [[a-zA-Z]], which is also [[a-z]] under the [i] flag: without the [u]
    flag no code unit above 127 is canonicalized into the ASCII range. *)
Definition is_alpha (c : char) : bool := is_lower c || is_upper c.
Definition is_alnum (c : char) : bool := is_alpha c || is_digit c.
Definition is_not (x : char) (c : char) : bool := negb (c =? x).
(** [.] without the [s] flag. *)
Definition is_dot (c : char) : bool := negb (is_line_terminator c).
(** [[\s\S]]. *)
Definition is_any (c : char) : bool := true.
(** [[^()]]. *)
Definition is_not_paren (c : char) : bool :=
  negb (c =? c_lpar) && negb (c =? c_rpar).

Close Scope N_scope.

Fixpoint trimStart (s : str) : str :=
  match s with
  | c :: s' => if is_space c then trimStart s' else s
  | [] => []
  end.

Definition trimEnd (s : str) : str := rev (trimStart (rev s)).

(** [String.prototype.trim]. *)
Definition trim (s : str) : str := trimEnd (trimStart s).

(** [toLowerCase] on the ASCII range (the only code units it is applied to
    here are the letters and digits of an exchange identifier). *)
Definition toLowerCase (s : str) : str :=
  map (fun c => if is_upper c then (c + 32)%N else c) s.

(** ** Regular expressions *)

Module Regex.

(** The fragment of the pattern syntax that manager.js uses: every
    quantifier of the source is applied to a single character class. *)
Inductive regex : Type :=
| Eps
| Chr (c : char)
| Cls (p : char -> bool)
| Rep (greedy : bool) (min : nat) (p : char -> bool)
| Seq (r1 r2 : regex)
| Alt (r1 r2 : regex)
| Grp (n : nat) (r : regex)
| Bol
| Eol.

(** [r?], greedy. *)
Definition Opt (r : regex) : regex := Alt r Eps.

(** A position in the subject: the index, what is left of the subject and
    the captures made so far (latest first). *)
Record mstate : Type := MState {
  pos : nat;
  rest : str;
  caps : list (nat * str)
}.

(** The positions reachable by consuming 0, 1, 2, ... characters of [p]. *)
Fixpoint spans (p : char -> bool) (i : nat) (s : str) : list (nat * str) :=
  (i, s) :: match s with
            | c :: s' => if p c then spans p (S i) s' else []
            | [] => []
            end.

(** Every way for [r] to match at [st], in backtracking order. *)
Fixpoint run (r : regex) (st : mstate) : list mstate :=
  match r with
  | Eps => [st]
  | Chr c =>
      match rest st with
      | d :: s' => if (d =? c)%N then [MState (S (pos st)) s' (caps st)] else []
      | [] => []
      end
  | Cls p =>
      match rest st with
      | d :: s' => if p d then [MState (S (pos st)) s' (caps st)] else []
      | [] => []
      end
  | Rep greedy min p =>
      let l := skipn min (spans p (pos st) (rest st)) in
      map (fun x => MState (fst x) (snd x) (caps st)) (if greedy then rev l else l)
  | Seq r1 r2 => flat_map (run r2) (run r1 st)
  | Alt r1 r2 => run r1 st ++ run r2 st
  | Grp n r1 =>
      map (fun st' => MState (pos st') (rest st')
                        ((n, firstn (pos st' - pos st) (rest st)) :: caps st'))
          (run r1 st)
  | Bol => if (pos st =? 0)%nat then [st] else []
  | Eol => match rest st with [] => [st] | _ => [] end
  end.

(** The leftmost match at or after index [i], where [s] is the subject from
    [i] on: the start index and the final state. *)
Fixpoint search (r : regex) (i : nat) (s : str) : option (nat * mstate) :=
  match run r (MState i s []) with
  | st :: _ => Some (i, st)
  | [] => match s with
          | [] => None
          | _ :: s' => search r (S i) s'
          end
  end.

Fixpoint lookup (n : nat) (l : list (nat * str)) : option str :=
  match l with
  | [] => None
  | (k, v) :: l' => if (k =? n)%nat then Some v else lookup n l'
  end.

(** The match array: [m.index], [m[0]] and [m[n]] ([None] is [undefined]). *)
Record rmatch : Type := RMatch {
  index : nat;
  whole : str;
  group : nat -> option str
}.

Definition mk_match (i : nat) (s : str) (j : nat) (st : mstate) : rmatch :=
  RMatch j (firstn (pos st - j) (skipn (j - i) s)) (fun n => lookup n (caps st)).

(** [regex.exec(s)] for a pattern without the [g] flag. *)
Definition exec (r : regex) (s : str) : option rmatch :=
  match search r 0 s with
  | Some (j, st) => Some (mk_match 0 s j st)
  | None => None
  end.

(** The successive matches of a pattern with the [g] flag: after a match the
    search resumes where it ended, one further on after an empty match. *)
Fixpoint scan (fuel : nat) (r : regex) (i : nat) (s : str) : list rmatch :=
  match fuel with
  | 0 => []
  | S fuel' =>
      match search r i s with
      | None => []
      | Some (j, st) =>
          mk_match i s j st ::
          (if (pos st =? j)%nat
           then match rest st with
                | [] => []
                | _ :: s' => scan fuel' r (S (pos st)) s'
                end
           else scan fuel' r (pos st) (rest st))
      end
  end.

Definition matchAll (r : regex) (s : str) : list rmatch :=
  scan (S (length s)) r 0 s.

(** [s.replace(r, rep)] for a pattern without the [g] flag and a replacement
    text without [$]. *)
Definition replace (r : regex) (rep : str) (s : str) : str :=
  match search r 0 s with
  | Some (j, st) => firstn j s ++ rep ++ rest st
  | None => s
  end.

Fixpoint replace_scan (fuel : nat) (r : regex) (rep : str) (i : nat) (s : str) : str :=
  match fuel with
  | 0 => s
  | S fuel' =>
      match search r i s with
      | None => s
      | Some (j, st) =>
          firstn (j - i) s ++ rep ++
          (if (pos st =? j)%nat
           then match rest st with
                | [] => []
                | c :: s' => c :: replace_scan fuel' r rep (S (pos st)) s'
                end
           else replace_scan fuel' r rep (pos st) (rest st))
      end
  end.

(** [s.replace(r, rep)] for a pattern with the [g] flag. *)
Definition replaceAll (r : regex) (rep : str) (s : str) : str :=
  replace_scan (S (length s)) r rep 0 s.

(** A value used as a condition: [undefined] and the empty string are falsy. *)
Definition truthy (o : option str) : bool :=
  match o with Some (_ :: _) => true | _ => false end.

Definition get (o : option str) : str :=
  match o with Some v => v | None => [] end.

End Regex.

Import Regex.

(** ** The parser *)

(** Modelled from the spec: [common/functional-regex] is not part of the
    sources.  [Fregex.forEach(regex, str, cb)] calls [cb(m, i)] for every
    non-overlapping occurrence of the pattern, from left to right, [i]
    counting the matches from zero. *)
Definition Fregex_forEach (r : regex) (s : str) : list (rmatch * nat) :=
  let ms := matchAll r s in combine ms (seq 0 (length ms)).

Record Param : Type := mkParam {
  p_name : str;
  p_value : str;
  p_index : nat
}.

(** [/([^,]+?\Q[^\Q]+\Q)|([^,]+)/g], writing Q for the double quote. *)
Definition splitByComma_re : regex :=
  Alt (Grp 1 (Seq (Rep false 1 (is_not c_comma))
             (Seq (Chr c_dq)
             (Seq (Rep true 1 (is_not c_dq))
                  (Chr c_dq)))))
      (Grp 2 (Rep true 1 (is_not c_comma))).

(** [/^(([a-zA-Z]+)\s*=\s*((Q([^Q]* )Q)|Q?(.+)Q?))|(.+)$/], writing Q for the
    double quote (the blank after the star is not part of the pattern).  The
    alternation is at the top level: [^] belongs to the first alternative
    only and [$] to the second only. *)
Definition splitValues_re : regex :=
  Alt (Seq Bol
        (Grp 1
          (Seq (Grp 2 (Rep true 1 is_alpha))
          (Seq (Rep true 0 is_space)
          (Seq (Chr c_eq)
          (Seq (Rep true 0 is_space)
               (Grp 3
                 (Alt (Grp 4 (Seq (Chr c_dq)
                             (Seq (Grp 5 (Rep true 0 (is_not c_dq)))
                                  (Chr c_dq))))
                      (Seq (Opt (Chr c_dq))
                      (Seq (Grp 6 (Rep true 1 is_dot))
                           (Opt (Chr c_dq))))))))))))
      (Seq (Grp 7 (Rep true 1 is_dot)) Eol).

(** [/^Q(.* )Q$/], writing Q for the double quote (the blank after the star
    is not part of the pattern). *)
Definition quotes_re : regex :=
  Seq Bol (Seq (Chr c_dq) (Seq (Grp 1 (Rep true 0 is_dot)) (Seq (Chr c_dq) Eol))).

(** The body of the [argList.forEach] callback: what one token adds to [res]. *)
Definition classify (item : str) (i : nat) : list Param :=
  match exec splitValues_re item with
  | Some m =>
      if truthy (group m 7) then
        let m7 := get (group m 7) in
        let value := match exec quotes_re m7 with
                     | Some q => get (group q 1)
                     | None => m7
                     end in
        [mkParam [] value i]
      else if truthy (group m 6) then
        [mkParam (get (group m 2)) (get (group m 6)) i]
      else if truthy (group m 5) then
        [mkParam (get (group m 2)) (get (group m 5)) i]
      else []
  | None => []
  end.

Definition argList (params : str) : list str :=
  map (fun mi => trim (whole (fst mi))) (Fregex_forEach splitByComma_re params).

Definition parseArguments (params : str) : list Param :=
  let items := argList params in
  flat_map (fun it => classify (fst it) (snd it))
           (combine items (seq 0 (length items))).

Record Action : Type := mkAction {
  a_name : str;
  a_params : list Param
}.

(** [/([a-z]+)\(([\s\S]*?)\)/gi] *)
Definition parseActions_re : regex :=
  Seq (Grp 1 (Rep true 1 is_alpha))
 (Seq (Chr c_lpar)
 (Seq (Grp 2 (Rep false 0 is_any))
      (Chr c_rpar))).

Definition parseActions (commands : str) : list Action :=
  map (fun mi => let m := fst mi in
                 mkAction (trim (get (group m 1)))
                          (parseArguments (trim (get (group m 2)))))
      (Fregex_forEach parseActions_re commands).

(** [/([a-z][a-z0-9]* )\(([^()]*?)\)\s*{([\s\S]*?)}/gi] (the blank after
    the first star is not part of the pattern). *)
Definition commandBlocks_re : regex :=
  Seq (Grp 1 (Seq (Cls is_alpha) (Rep true 0 is_alnum)))
 (Seq (Chr c_lpar)
 (Seq (Grp 2 (Rep false 0 is_not_paren))
 (Seq (Chr c_rpar)
 (Seq (Rep true 0 is_space)
 (Seq (Chr c_lbrace)
 (Seq (Grp 3 (Rep false 0 is_any))
      (Chr c_rbrace))))))).

Record Block : Type := mkBlock {
  b_exchangeName : str;
  b_symbol : str;
  b_actions : str
}.

(** [commandBlocks(msg, cb)]: the arguments of the successive calls of [cb]. *)
Definition commandBlocks (msg : str) : list Block :=
  flat_map (fun mi =>
              let m := fst mi in
              let exchangeName := toLowerCase (trim (get (group m 1))) in
              let symbol := trim (get (group m 2)) in
              let actions := trim (get (group m 3)) in
              if negb (is_empty exchangeName) && negb (is_empty symbol)
                 && negb (is_empty actions)
              then [mkBlock exchangeName symbol actions]
              else [])
           (Fregex_forEach commandBlocks_re msg).

(** ** The alert extractor *)

(** [/\{!\}/] *)
Definition notify_re : regex := Seq (Chr c_lbrace) (Seq (Chr c_bang) (Chr c_rbrace)).

(** [/([a-z]+)\(([\s\S]*?)\)\s*{([\s\S]*?)}/gi] *)
Definition alertBlocks_re : regex :=
  Seq (Grp 1 (Rep true 1 is_alpha))
 (Seq (Chr c_lpar)
 (Seq (Grp 2 (Rep false 0 is_any))
 (Seq (Chr c_rpar)
 (Seq (Rep true 0 is_space)
 (Seq (Chr c_lbrace)
 (Seq (Grp 3 (Rep false 0 is_any))
      (Chr c_rbrace))))))).

(** [/\s+/ug] *)
Definition spaces_re : regex := Rep true 1 is_space.

(** The text [handleAlerts] builds once the marker has been found. *)
Definition toSend (msg : str) : str :=
  trim (replaceAll spaces_re [c_space]
         (replace notify_re []
           (replaceAll alertBlocks_re [] msg))).

(** [handleAlerts(msg)]: the texts passed to [notifier.send], in order. *)
Definition handleAlerts (msg : str) : list str :=
  match exec notify_re msg with
  | Some _ =>
      let toSend := toSend msg in
      if negb (is_empty toSend) then [toSend] else []
  | None => []
  end.

Definition dq : str := [c_dq].

(** ** The pool of opened exchanges *)

(** An entry of the credentials list: [{name, exchange?, ...}]. *)
Record Credentials : Type := mkCredentials {
  cr_name : str;
  cr_exchange : option str;
  cr_keys : list (str * str)
}.

Definition Credentials_eq_dec (a b : Credentials) : {a = b} + {a <> b}.
Proof.
  decide equality.
  - apply list_eq_dec. decide equality; apply (list_eq_dec N.eq_dec).
  - decide equality. apply (list_eq_dec N.eq_dec).
  - apply (list_eq_dec N.eq_dec).
Defined.

(** A rejection reason or thrown value. *)
Definition error := str.

(** How an awaited promise settles: [None] is fulfilled, [Some err] is
    rejected with [err]. *)
Definition outcome := option error.

(** Modelled from the spec: the exchange classes ([exchanges/exchange] and
    the classes listed in [exchanges/all]) are not part of the sources.  A
    handle is identified by the (name, credentials) pair it is opened under,
    [matches] compares that pair, the reference count starts at 1 and is
    moved by [addReference] and [removeReference], which returns the new
    count.  [terminated] counts the calls of [terminate()]. *)
Record Exchange : Type := mkExchange {
  ex_name : str;
  ex_credentials : Credentials;
  refCount : Z;
  terminated : nat
}.

Definition new_Exchange (name : str) (credentials : Credentials) : Exchange :=
  mkExchange name credentials 1 0.

Definition matches (ex : Exchange) (name : str) (credentials : Credentials) : bool :=
  str_eqb name (ex_name ex)
  && (if Credentials_eq_dec credentials (ex_credentials ex) then true else false).

Definition addReference (ex : Exchange) : Exchange :=
  mkExchange (ex_name ex) (ex_credentials ex) (refCount ex + 1) (terminated ex).

Definition removeReference (ex : Exchange) : Exchange :=
  mkExchange (ex_name ex) (ex_credentials ex) (refCount ex - 1) (terminated ex).

Definition terminate (ex : Exchange) : Exchange :=
  mkExchange (ex_name ex) (ex_credentials ex) (refCount ex) (S (terminated ex)).

(** An entry of the catalogue [{name, description, class}]; the class is
    [new_Exchange]. *)
Record CatalogEntry : Type := mkCatalogEntry {
  cat_name : str;
  cat_description : str
}.

(** What reaches the logger at the [progress] and [error] levels.  The
    [notice] banners (date, session, echoed text) are left out. *)
Inductive LogEntry : Type :=
| LogProgress (text : str)
| LogError (text : str).

(** The manager.  Exchanges are objects shared by reference: [heap] holds
    them by address and [opened] is the array [this.opened] of references. *)
Record Manager : Type := mkManager {
  opened : list nat;
  heap : list Exchange;
  exchanges : list CatalogEntry;
  log : list LogEntry
}.

(** [new ExchangeManager(exchanges)] *)
Definition new_Manager (exchanges : list CatalogEntry) : Manager :=
  mkManager [] [] exchanges [].

(** In place update of the object at address [a]. *)
Fixpoint update (a : nat) (f : Exchange -> Exchange) (h : list Exchange) : list Exchange :=
  match h, a with
  | [], _ => []
  | x :: t, 0 => f x :: t
  | x :: t, S a' => x :: update a' f t
  end.

Definition set_heap (m : Manager) (h : list Exchange) : Manager :=
  mkManager (opened m) h (exchanges m) (log m).

Definition set_opened (m : Manager) (o : list nat) : Manager :=
  mkManager o (heap m) (exchanges m) (log m).

Definition add_log (m : Manager) (e : LogEntry) : Manager :=
  mkManager (opened m) (heap m) (exchanges m) (log m ++ [e]).

Definition handle_matches (m : Manager) (name : str) (credentials : Credentials)
  (a : nat) : bool :=
  match nth_error (heap m) a with
  | Some ex => matches ex name credentials
  | None => false
  end.

Definition findOpened (m : Manager) (name : str) (credentials : Credentials) : option nat :=
  find (handle_matches m name credentials) (opened m).

(** Where [openExchange] stands when it gives control back: it has returned
    a handle or [null], it has thrown, or it is suspended on [init(symbol)]
    or on the [closeExchange] of its failure path. *)
Inductive OpenStep : Type :=
| OpenReturn (r : option nat)
| OpenThrow (err : error)
| OpenAwaitInit (newExchange : nat) (symbol : str)
| OpenAwaitClose (newExchange : nat).

(** [credentials.exchange || name] *)
Definition exchangeName_of (name : str) (credentials : Credentials) : str :=
  match cr_exchange credentials with
  | Some (c :: e) => c :: e
  | _ => name
  end.

(** [openExchange] up to its first [await]. *)
Definition openExchange (m : Manager) (name : str) (credentials : Credentials)
  (symbol : str) : Manager * OpenStep :=
  match findOpened m name credentials with
  | Some exchange =>
      (set_heap m (update exchange addReference (heap m)), OpenReturn (Some exchange))
  | None =>
      let exchangeName := exchangeName_of name credentials in
      match find (fun el => str_eqb (cat_name el) exchangeName) (exchanges m) with
      | None => (m, OpenReturn None)
      | Some match_ =>
          let newExchange := length (heap m) in
          (mkManager (opened m ++ [newExchange])
                     (heap m ++ [new_Exchange name credentials])
                     (exchanges m)
                     (log m ++ [LogProgress (js "Starting " ++ cat_description match_)]),
           OpenAwaitInit newExchange symbol)
      end
  end.

(** Where [closeExchange] stands when it gives control back. *)
Inductive CloseStep : Type :=
| CloseReturn
| CloseAwaitTerminate (exchange : nat).

(** [closeExchange] up to its [await]: [terminate()] has been called and its
    promise is awaited, the handle is still in [this.opened]. *)
Definition closeExchange (m : Manager) (exchange : option nat) : Manager * CloseStep :=
  match exchange with
  | None => (m, CloseReturn)
  | Some e =>
      match nth_error (heap m) e with
      | None => (m, CloseReturn)
      | Some x =>
          match findOpened m (ex_name x) (ex_credentials x) with
          | None => (m, CloseReturn)
          | Some _ =>
              let m1 := set_heap m (update e removeReference (heap m)) in
              if (refCount x - 1 <=? 0)%Z
              then (set_heap m1 (update e terminate (heap m1)), CloseAwaitTerminate e)
              else (m1, CloseReturn)
          end
      end
  end.

(** [closeExchange] after [await exchange.terminate()]: a rejection leaves
    the function, otherwise the handle is filtered out of [this.opened]. *)
Definition closeExchange_resume (m : Manager) (exchange : nat) (terminated : outcome)
  : Manager * outcome :=
  match terminated with
  | Some err => (m, Some err)
  | None => (set_opened m (filter (fun item => negb (item =? exchange)) (opened m)), None)
  end.

(** [openExchange] after [await newExchange.init(symbol)]. *)
Definition openExchange_resume (m : Manager) (newExchange : nat) (init : outcome)
  : Manager * OpenStep :=
  match init with
  | None => (m, OpenReturn (Some newExchange))
  | Some err =>
      let m1 := add_log m (LogError err) in
      match closeExchange m1 (Some newExchange) with
      | (m2, CloseReturn) => (m2, OpenReturn None)
      | (m2, CloseAwaitTerminate e) => (m2, OpenAwaitClose e)
      end
  end.

(** [openExchange] after the [await this.closeExchange(newExchange)] of its
    failure path. *)
Definition openExchange_closed (m : Manager) (newExchange : nat) (terminated : outcome)
  : Manager * OpenStep :=
  match closeExchange_resume m newExchange terminated with
  | (m', None) => (m', OpenReturn None)
  | (m', Some err) => (m', OpenThrow err)
  end.

(** *** Calls made one after the other *)

(** A call together with the way the promises it awaits settle: [init] for
    [init(symbol)] and [terminated] for [terminate()], where the call
    reaches them. *)
Inductive Call : Type :=
| CallOpen (name : str) (credentials : Credentials) (symbol : str)
           (init : outcome) (terminated : outcome)
| CallClose (exchange : option nat) (terminated : outcome).

(** The points at which the pool can be observed: between two calls, while
    [openExchange] awaits [init(symbol)], while [closeExchange] awaits
    [terminate()]. *)
Inductive Phase : Type :=
| BetweenCalls
| InitWindow
| TerminateWindow.

Definition run_close (m : Manager) (exchange : option nat) (terminated : outcome)
  : list (Phase * Manager) * Manager :=
  match closeExchange m exchange with
  | (m1, CloseReturn) => ([], m1)
  | (m1, CloseAwaitTerminate e) =>
      ([(TerminateWindow, m1)], fst (closeExchange_resume m1 e terminated))
  end.

Definition run_open (m : Manager) (name : str) (credentials : Credentials)
  (symbol : str) (init terminated : outcome) : list (Phase * Manager) * Manager :=
  match openExchange m name credentials symbol with
  | (m1, OpenAwaitInit h _) =>
      match openExchange_resume m1 h init with
      | (m2, OpenAwaitClose e) =>
          ([(InitWindow, m1); (TerminateWindow, m2)],
           fst (openExchange_closed m2 e terminated))
      | (m2, _) => ([(InitWindow, m1)], m2)
      end
  | (m1, _) => ([], m1)
  end.

(** One call run to completion: the states at its suspension points and the
    state it leaves. *)
Definition run_call (m : Manager) (c : Call) : list (Phase * Manager) * Manager :=
  match c with
  | CallOpen name credentials symbol init terminated =>
      run_open m name credentials symbol init terminated
  | CallClose exchange terminated => run_close m exchange terminated
  end.

(** Every state a sequence of calls goes through, in order. *)
Fixpoint run_calls (m : Manager) (calls : list Call) : list (Phase * Manager) :=
  (BetweenCalls, m) ::
  match calls with
  | [] => []
  | c :: cs => fst (run_call m c) ++ run_calls (snd (run_call m c)) cs
  end.

Definition terminate_fulfils (c : Call) : Prop :=
  match c with
  | CallOpen _ _ _ _ terminated => terminated = None
  | CallClose _ terminated => terminated = None
  end.

(** At most one entry of the open-set answers to a given identity. *)
Definition one_entry_per_identity (m : Manager) : Prop :=
  forall name credentials,
    length (filter (handle_matches m name credentials) (opened m)) <= 1.

(** A handle has a positive count exactly when it is in the open-set. *)
Definition count_tracks_membership (m : Manager) : Prop :=
  forall a ex, nth_error (heap m) a = Some ex ->
               ((0 < refCount ex)%Z <-> In a (opened m)).

(** ** The sequence executor *)

Definition Session := str.

(** What a run of [executeCommandSequence] does, in order: a call of
    [exchange.executeCommand], the settling of the promise it returned, a
    report to [logger.error]. *)
Inductive Event : Type :=
| EvExecute (exchange : nat) (symbol : str) (name : str) (params : list Param)
            (session : Session)
| EvSettled (name : str) (o : outcome)
| EvReport (text : str).

(** [async.eachSeries(coll, iteratee, callback)]: the iteratee is applied to
    the items one at a time, the next one once the previous one has called
    [next]; the first error passed to [next] ends the iteration and is
    handed to the final callback, which gets no error otherwise. *)
Fixpoint eachSeries {A S : Type} (coll : list A) (iteratee : A -> S -> S * outcome)
  (st : S) : S * outcome :=
  match coll with
  | [] => (st, None)
  | x :: xs =>
      match iteratee x st with
      | (st', Some err) => (st', Some err)
      | (st', None) => eachSeries xs iteratee st'
      end
  end.

Section Executor.

(** How the promise of [exchange.executeCommand(symbol, name, params,
    session)] settles, given everything that happened before the call. *)
Variable executeCommand :
  list Event -> nat -> str -> str -> list Param -> Session -> outcome.

(** The iteratee of [executeCommandSequence]: both the [then] and the
    [catch] handler call [next()] without an argument. *)
Definition run_action (exchange : nat) (symbol : str) (session : Session)
  (action : Action) (tr : list Event) : list Event * outcome :=
  let o := executeCommand tr exchange symbol (a_name action) (a_params action) session in
  let tr1 := tr ++ [EvExecute exchange symbol (a_name action) (a_params action) session;
                    EvSettled (a_name action) o] in
  match o with
  | None => (tr1, None)
  | Some err => (tr1 ++ [EvReport (a_name action ++ js " FAILED: " ++ err)], None)
  end.

(** [executeCommandSequence(exchange, symbol, commands)], with [session] the
    value of [uuid()]: the events and how the returned promise settles. *)
Definition executeCommandSequence (exchange : nat) (symbol commands : str)
  (session : Session) : list Event * outcome :=
  if is_empty symbol || is_empty commands then ([], None)
  else
    let actions := parseActions commands in
    eachSeries actions (run_action exchange symbol session) [].

End Executor.

(** The calls of [executeCommand] in a trace, in order. *)
Definition executed (tr : list Event) : list Action :=
  flat_map (fun e => match e with
                     | EvExecute _ _ name params _ => [mkAction name params]
                     | _ => []
                     end) tr.

Definition reports (tr : list Event) : list str :=
  flat_map (fun e => match e with EvReport t => [t] | _ => [] end) tr.

(** How the promises of the successive [executeCommand] calls settled. *)
Definition outcomes (tr : list Event) : list outcome :=
  flat_map (fun e => match e with EvSettled _ o => [o] | _ => [] end) tr.

(** The report owed to an action whose promise settled as [o]. *)
Definition report_of (action : Action) (o : outcome) : list str :=
  match o with
  | Some err => [a_name action ++ js " FAILED: " ++ err]
  | None => []
  end.

(** The reports owed to a list of actions, given how each one settled. *)
Definition expected_reports (actions : list Action) (outs : list outcome) : list str :=
  flat_map (fun ao => report_of (fst ao) (snd ao)) (combine actions outs).

(** No overlap: every call of [executeCommand] is followed at once by the
    settling of its own promise, a rejection by its report, and only then
    does the next call start. *)
Fixpoint serial (tr : list Event) : bool :=
  match tr with
  | [] => true
  | EvExecute _ _ name _ _ :: EvSettled name' o :: tr' =>
      str_eqb name name' &&
      match o with
      | None => serial tr'
      | Some err =>
          match tr' with
          | EvReport t :: tr'' =>
              str_eqb t (name ++ js " FAILED: " ++ err) && serial tr''
          | _ => false
          end
      end
  | _ => false
  end.

(** ** The dispatcher *)

(** The entries of the array [all]: the initial [Promise.resolve()] and the
    promise [executeCommandSequence(...).catch(...).finally(...)] of a
    block. *)
Inductive Completion : Type :=
| Resolved
| SequenceOf (exchange : nat) (symbol actions : str).

(** A call of the block callback that is suspended on
    [await this.openExchange(...)]. *)
Record Suspended : Type := mkSuspended {
  su_block : Block;
  su_open : OpenStep
}.

(** [executeMessage] hands its caller a reference to the array [all];
    [mr_all] is what the array holds. *)
Record MessageRun : Type := mkMessageRun {
  mr_manager : Manager;
  mr_all : list Completion;
  mr_suspended : list Suspended;
  mr_sent : list str
}.

(** The block callback up to its [await]. *)
Definition block_callback (credentials : list Credentials)
  (st : Manager * list Suspended) (b : Block) : Manager * list Suspended :=
  let (m, suspended) := st in
  match find (fun item => str_eqb (cr_name item) (b_exchangeName b)) credentials with
  | Some exchangeCredentials =>
      let (m', step) := openExchange m (b_exchangeName b) exchangeCredentials (b_symbol b) in
      (m', suspended ++ [mkSuspended b step])
  | None =>
      (add_log m (LogError (js "No credentials for '" ++ b_exchangeName b
                              ++ js "'. Skipping")),
       suspended)
  end.

(** [executeMessage(msg, credentials)] up to its [return all]. *)
Definition executeMessage (m : Manager) (msg : str) (credentials : list Credentials)
  : MessageRun :=
  let (m', suspended) :=
    fold_left (block_callback credentials) (commandBlocks msg) (m, []) in
  mkMessageRun m' [Resolved] suspended (handleAlerts msg).

(** The block callback after its [await], [exchange] being the value
    [openExchange] returned. *)
Definition block_resume (r : MessageRun) (b : Block) (exchange : option nat)
  : MessageRun :=
  match exchange with
  | Some e =>
      mkMessageRun (mr_manager r)
                   (mr_all r ++ [SequenceOf e (b_symbol b) (b_actions b)])
                   (mr_suspended r) (mr_sent r)
  | None =>
      mkMessageRun (add_log (mr_manager r)
                      (LogError (js "Exchange '" ++ b_exchangeName b
                                   ++ js "' is not supported")))
                   (mr_all r) (mr_suspended r) (mr_sent r)
  end.

(** ** Invariants of the pool *)

(** The three methods that touch a handle leave its identity alone. *)
Definition keeps_identity (f : Exchange -> Exchange) : Prop :=
  forall x, ex_name (f x) = ex_name x /\ ex_credentials (f x) = ex_credentials x.

(** The entries of the open-set are live addresses, without repetition, and
    no two of them carry the same identity. *)
Record entries_ok (m : Manager) : Prop := mk_entries_ok {
  ok_valid : forall a, In a (opened m) -> a < length (heap m);
  ok_nodup : NoDup (opened m);
  ok_identity : forall a b xa xb,
      In a (opened m) -> In b (opened m) ->
      nth_error (heap m) a = Some xa -> nth_error (heap m) b = Some xb ->
      ex_name xa = ex_name xb -> ex_credentials xa = ex_credentials xb -> a = b
}.

(** The counts while [closeExchange] awaits [terminate()] on [e]: the count
    of [e] has run out, every other handle is as between two calls. *)
Definition counts_while_terminating (m : Manager) (e : nat) : Prop :=
  forall a ex, nth_error (heap m) a = Some ex ->
               if (a =? e)%nat then (refCount ex <= 0)%Z
               else ((0 < refCount ex)%Z <-> In a (opened m)).

(** What a forced close on a failed [init] would be: the failure is logged,
    [terminate()] is called on the handle, the handle leaves the open-set
    and [openExchange] returns [null], whatever the count of the handle. *)
Definition destroyed_on_init_failure (m : Manager) (h : nat) (err : error) : Prop :=
  let s := openExchange_resume m h (Some err) in
  log (fst s) = log m ++ [LogError err]
  /\ option_map terminated (nth_error (heap (fst s)) h)
     = option_map (fun x => S (terminated x)) (nth_error (heap m) h)
  /\ snd s = OpenAwaitClose h
  /\ snd (openExchange_closed (fst s) h None) = OpenReturn None
  /\ ~ In h (opened (fst (openExchange_closed (fst s) h None))).

Definition binance_catalog : list CatalogEntry :=
  [mkCatalogEntry (js "binance") (js "Binance")].

Definition binance_credentials : Credentials :=
  mkCredentials (js "binance") None [(js "key", js "k"); (js "secret", js "s")].

(** The pool in which a first [openExchange] for binance awaits [init] and a
    second one has found the handle and returned it. *)
Definition pool_opened_twice_during_init : Manager :=
  let s1 := openExchange (new_Manager binance_catalog) (js "binance")
                         binance_credentials (js "BTCUSD") in
  fst (openExchange (fst s1) (js "binance") binance_credentials (js "ETHUSD")).

(** C1 as stated: whatever the calls and however their promises settle, in
    every state the pool goes through there is one entry per identity, and
    between two calls and while an [openExchange] awaits [init] a handle
    has a count above zero exactly when it is in the open-set. *)
Definition pool_invariant_as_stated (catalog : list CatalogEntry) (calls : list Call)
  : Prop :=
  forall ph m,
    In (ph, m) (run_calls (new_Manager catalog) calls) ->
    one_entry_per_identity m
    /\ (ph <> TerminateWindow -> count_tracks_membership m).

(** binance is opened, then closed with a [terminate()] that rejects. *)
Definition calls_with_failed_terminate : list Call :=
  [CallOpen (js "binance") binance_credentials (js "BTCUSD") None None;
   CallClose (Some 0) (Some (js "terminate failed"))].

(** The pool these two calls leave. *)
Definition pool_after_failed_terminate : Manager :=
  fold_left (fun m c => snd (run_call m c)) calls_with_failed_terminate
            (new_Manager binance_catalog).

(** ** Plain descriptions, to compare the code with *)

(** The longest prefix made of characters of [p], and what follows it. *)
Fixpoint takeWhile (p : char -> bool) (s : str) : str :=
  match s with
  | c :: s' => if p c then c :: takeWhile p s' else []
  | [] => []
  end.

Fixpoint dropWhile (p : char -> bool) (s : str) : str :=
  match s with
  | c :: s' => if p c then dropWhile p s' else s
  | [] => []
  end.

(** The comma-delimited fields of a string, as [split(',')] gives them. *)
Fixpoint split_on (sep : char) (s : str) : list str :=
  match s with
  | [] => [[]]
  | c :: s' =>
      if (c =? sep)%N then [] :: split_on sep s'
      else match split_on sep s' with
           | t :: ts => (c :: t) :: ts
           | [] => [[c]]
           end
  end.

(** No comma stands between an opening double quote and the next one. *)
Fixpoint commas_outside_quotes (inside : bool) (s : str) : bool :=
  match s with
  | [] => true
  | c :: s' =>
      if (c =? c_dq)%N then commas_outside_quotes (negb inside) s'
      else if (c =? c_comma)%N then negb inside && commas_outside_quotes inside s'
      else commas_outside_quotes inside s'
  end.

(** The Params of a sequence of tokens: each token is trimmed and classified
    at its position in the sequence. *)
Definition params_of_tokens (tokens : list str) : list Param :=
  flat_map (fun it => classify (trim (fst it)) (snd it))
           (combine tokens (seq 0 (length tokens))).

(** C7 as stated: the indices of the Params are the positions, in the
    comma-split sequence, of the tokens that classify. *)
Definition one_param_per_comma_token (raw : str) : Prop :=
  map p_index (parseArguments raw)
  = map p_index (params_of_tokens (split_on c_comma raw)).

(** The fields that hold at least one character. *)
Definition nonempty_fields (raw : str) : list str :=
  filter (fun t => negb (is_empty t)) (split_on c_comma raw).

Definition marker : str := [c_lbrace; c_bang; c_rbrace].

(** [w] occurs in [s]. *)
Definition occurs (w s : str) : Prop := exists pre post, s = pre ++ w ++ post.

Fixpoint starts_with (w s : str) : bool :=
  match w, s with
  | [], _ => true
  | a :: w', b :: s' => (b =? a)%N && starts_with w' s'
  | _ :: _, [] => false
  end.

Fixpoint contains (w s : str) : bool :=
  starts_with w s || match s with
                     | [] => false
                     | _ :: s' => contains w s'
                     end.

(** [s] without the first occurrence of [w]. *)
Fixpoint remove_first (w s : str) : str :=
  if starts_with w s then skipn (length w) s
  else match s with
       | [] => []
       | c :: s' => c :: remove_first w s'
       end.

(** Every run of white space replaced by one space; [in_run] tells that the
    previous character was white space. *)
Fixpoint collapse_spaces (in_run : bool) (s : str) : str :=
  match s with
  | [] => []
  | c :: s' =>
      if is_space c
      then (if in_run then collapse_spaces true s'
            else c_space :: collapse_spaces true s')
      else c :: collapse_spaces false s'
  end.

(** The command blocks as [handleAlerts] strips them. *)
Definition strip_blocks (msg : str) : str := replaceAll alertBlocks_re [] msg.

(** C9 as stated: with two or more markers in the message, the notifier is
    called with a text in which a marker is left. *)
Definition later_markers_forwarded (msg : str) : Prop :=
  (exists a b c, msg = a ++ marker ++ b ++ marker ++ c) ->
  exists t, handleAlerts msg = [t] /\ occurs marker t.

(** *** Messages made of texts and blocks *)












Definition is_comma (c : char) : bool := (c =? c_comma)%N.

(** *** Fields that the splitting pattern takes whole *)

(** The double quotes of a field from its second character on, [later]
    telling whether a double quote follows the field in the argument
    string.  The quoted alternative of the splitting pattern can only start
    its quoted part at one of these.  A double quote right before another
    one cannot start it, and the next one is looked at.  The first double
    quote that is not right before another one decides: it must be followed
    by text free of double quotes and a double quote that ends the field,
    or by no double quote in the rest of the argument string. *)
Fixpoint quotes_clean (later : bool) (s : str) : bool :=
  match s with
  | [] => true
  | c :: r =>
      if (c =? c_dq)%N then
        match r with
        | [] => negb later
        | d :: _ =>
            if (d =? c_dq)%N then quotes_clean later r
            else match dropWhile (is_not c_dq) r with
                 | [] => negb later
                 | [_] => true
                 | _ :: _ :: _ => false
                 end
        end
      else quotes_clean later r
  end.

Definition has_quote (s : str) : bool := existsb (fun c => (c =? c_dq)%N) s.

Definition field_clean (later : bool) (f : str) : bool :=
  match f with
  | [] => true
  | _ :: r => quotes_clean later r
  end.

(** Every field of the sequence is taken whole. *)
Fixpoint fields_clean (fields : list str) : bool :=
  match fields with
  | [] => true
  | f :: fs => field_clean (existsb has_quote fs) f && fields_clean fs
  end.

(** A token that reads letters, white space, [=], white space and two double
    quotes: a name with an empty quoted value. *)
Definition empty_named_value (tok : str) : bool :=
  match takeWhile is_alpha tok with
  | [] => false
  | _ :: _ =>
      match dropWhile is_space (dropWhile is_alpha tok) with
      | c :: r => (c =? c_eq)%N && starts_with [c_dq; c_dq] (dropWhile is_space r)
      | [] => false
      end
  end.

(** ** Sample inputs *)

Definition sample_calls : list Call :=
  [CallOpen (js "binance") binance_credentials (js "BTCUSD") None None;
   CallOpen (js "binance") binance_credentials (js "ETHUSD") None None;
   CallClose (Some 0) None;
   CallOpen (js "binance") binance_credentials (js "XRPUSD") (Some (js "no route")) None;
   CallClose (Some 0) None].

(** The pool while the first [openExchange] awaits [init]. *)
Definition pool_during_init : Manager :=
  fst (openExchange (new_Manager binance_catalog) (js "binance")
                    binance_credentials (js "BTCUSD")).

(** An exchange on which the command [b] is rejected and every other one
    succeeds. *)
Definition rejects_b (tr : list Event) (exchange : nat) (symbol name : str)
  (params : list Param) (session : Session) : outcome :=
  if str_eqb name (js "b") then Some (js "boom") else None.

(** [amount=1,QBTCQ], Q being the double quote. *)
Definition quoted_arguments : str :=
  js "amount=1," ++ dq ++ js "BTC" ++ dq.

Definition sample_arguments : str :=
  js "amount = 1 , x=" ++ dq ++ js "q" ++ dq ++ js ", 3".


(** * More of the code *)

(** ** What [closeExchange] does when run to completion *)

(** [closeExchange(exchange)] with a [terminate()] that completes. *)
Definition closeExchange_done (m : Manager) (exchange : option nat) : Manager :=
  snd (run_close m exchange None).

(** No entry of the open-set has been terminated. *)
Definition entries_live (m : Manager) : Prop :=
  forall a x, In a (opened m) -> nth_error (heap m) a = Some x -> terminated x = 0.

(** ** What the dispatcher does with the blocks *)

(** [credentials.find(item => item.name === exchangeName)] finds an entry. *)
Definition has_credentials (credentials : list Credentials) (b : Block) : bool :=
  match find (fun item => str_eqb (cr_name item) (b_exchangeName b)) credentials with
  | Some _ => true
  | None => false
  end.

(** The texts given to [logger.error]. *)
Definition error_texts (l : list LogEntry) : list str :=
  flat_map (fun e => match e with LogError t => [t] | LogProgress _ => [] end) l.

Definition no_credentials_text (b : Block) : str :=
  js "No credentials for '" ++ b_exchangeName b ++ js "'. Skipping".

(** The pool entry an [openExchange] call has found or created by the time
    it gives control back.  A call suspended on [init] has created one and
    pushed it into [this.opened]; it returns it to its caller only if
    [init] succeeds. *)
Definition resolved (step : OpenStep) : option nat :=
  match step with
  | OpenReturn r => r
  | OpenAwaitInit h _ => Some h
  | OpenThrow _ => None
  | OpenAwaitClose _ => None
  end.

(** What the block callback gets from [await this.openExchange(...)] when
    the [init] that the call awaits, if it awaits one, settles as [init] in
    the pool [m]: the handle, or nothing ([null], or an exception out of the
    failure path). *)
Definition handed (m : Manager) (step : OpenStep) (init : outcome) : option nat :=
  match step with
  | OpenReturn r => r
  | OpenAwaitInit h _ =>
      match snd (openExchange_resume m h init) with
      | OpenReturn r => r
      | _ => None
      end
  | OpenThrow _ => None
  | OpenAwaitClose _ => None
  end.

(** What holds of the suspended callbacks while the blocks are gone through. *)
Definition shares_handles (credentials : list Credentials) (m : Manager)
  (su : list Suspended) : Prop :=
  forall s, In s su ->
    exists c,
      find (fun item => str_eqb (cr_name item) (b_exchangeName (su_block s))) credentials
      = Some c
      /\ resolved (su_open s) = findOpened m (b_exchangeName (su_block s)) c
      /\ (resolved (su_open s) = None ->
          find (fun el => str_eqb (cat_name el)
                                  (exchangeName_of (b_exchangeName (su_block s)) c))
               (exchanges m) = None).

(** ** Reference accounting *)

(** The count of the handle at address [h], 0 where there is none. *)
Definition count_at (m : Manager) (h : nat) : Z :=
  match nth_error (heap m) h with
  | Some x => refCount x
  | None => 0%Z
  end.

(** The call has found or created the handle [h]. *)
Definition resolves_to (h : nat) (step : OpenStep) : bool :=
  match resolved step with
  | Some a => (a =? h)%nat
  | None => false
  end.

(** How many of the suspended callbacks come from an [openExchange] call
    that found or created the handle [h]. *)
Definition references_taken (su : list Suspended) (h : nat) : nat :=
  length (filter (fun s => resolves_to h (su_open s)) su).

(** ** More sample inputs *)

(** Two blocks for binance, one for an exchange without credentials, and an
    alert. *)
Definition sample_message : str :=
  js "Binance(BTCUSD){buy(amount=1);sell(2)} kraken(XBT){wait(1)} binance(ETHUSD) {buy(1)} {!} hello   world".

Definition sample_credentials : list Credentials := [binance_credentials].

Definition first_binance_block : Block :=
  mkBlock (js "binance") (js "BTCUSD") (js "buy(amount=1);sell(2)").

Definition second_binance_block : Block :=
  mkBlock (js "binance") (js "ETHUSD") (js "buy(1)").

(** * Properties *)

(** ** Strings and objects *)

Lemma str_eqb_eq (a b : str) : str_eqb a b = true <-> a = b.
Proof.
  unfold str_eqb. destruct (list_eq_dec N.eq_dec a b); split; congruence.
Qed.

Lemma str_eqb_refl (a : str) : str_eqb a a = true.
Proof. apply str_eqb_eq. reflexivity. Qed.

Lemma matches_iff (ex : Exchange) (name : str) (credentials : Credentials) :
  matches ex name credentials = true
  <-> name = ex_name ex /\ credentials = ex_credentials ex.
Proof.
  unfold matches. rewrite andb_true_iff, str_eqb_eq.
  destruct (Credentials_eq_dec credentials (ex_credentials ex)); intuition congruence.
Qed.

Lemma length_update (a : nat) (f : Exchange -> Exchange) (h : list Exchange) :
  length (update a f h) = length h.
Proof.
  revert a. induction h as [|x t IH]; intros [|a]; simpl; auto.
Qed.

Lemma nth_error_update (a b : nat) (f : Exchange -> Exchange) (h : list Exchange) :
  nth_error (update a f h) b
  = if (a =? b)%nat then option_map f (nth_error h b) else nth_error h b.
Proof.
  revert a b. induction h as [|x t IH]; intros a b.
  - destruct a, b; simpl; try reflexivity; destruct (a =? b)%nat; reflexivity.
  - destruct a, b; simpl; try reflexivity. apply IH.
Qed.

Lemma keeps_identity_addReference : keeps_identity addReference.
Proof. intros x. split; reflexivity. Qed.

Lemma keeps_identity_removeReference : keeps_identity removeReference.
Proof. intros x. split; reflexivity. Qed.

Lemma keeps_identity_terminate : keeps_identity terminate.
Proof. intros x. split; reflexivity. Qed.

Lemma handle_matches_update (m : Manager) (a : nat) (f : Exchange -> Exchange)
  (name : str) (credentials : Credentials) (b : nat) :
  keeps_identity f ->
  handle_matches (set_heap m (update a f (heap m))) name credentials b
  = handle_matches m name credentials b.
Proof.
  intros Hf. unfold handle_matches. simpl. rewrite nth_error_update.
  destruct (a =? b)%nat; [|reflexivity].
  destruct (nth_error (heap m) b) as [x|]; [|reflexivity]. simpl.
  unfold matches. destruct (Hf x) as [-> ->]. reflexivity.
Qed.

Lemma findOpened_Some (m : Manager) (name : str) (credentials : Credentials) (a : nat) :
  findOpened m name credentials = Some a ->
  In a (opened m) /\ exists x, nth_error (heap m) a = Some x
                               /\ ex_name x = name /\ ex_credentials x = credentials.
Proof.
  unfold findOpened. intros H. apply find_some in H. destruct H as [Hin Hm].
  split; [exact Hin|]. unfold handle_matches in Hm.
  destruct (nth_error (heap m) a) as [x|]; [|discriminate].
  exists x. apply matches_iff in Hm. intuition congruence.
Qed.

Lemma findOpened_None (m : Manager) (name : str) (credentials : Credentials) (a : nat)
  (x : Exchange) :
  findOpened m name credentials = None ->
  In a (opened m) -> nth_error (heap m) a = Some x ->
  ~ (ex_name x = name /\ ex_credentials x = credentials).
Proof.
  unfold findOpened. intros H Hin Hx [Hn Hc].
  pose proof (find_none _ _ H a Hin) as Hf. unfold handle_matches in Hf.
  rewrite Hx in Hf.
  assert (matches x name credentials = true) by (apply matches_iff; auto).
  congruence.
Qed.

(** ** The matcher *)

Lemma takeWhile_dropWhile (p : char -> bool) (s : str) :
  takeWhile p s ++ dropWhile p s = s.
Proof.
  induction s as [|c s IH]; simpl; [reflexivity|].
  destruct (p c); simpl; [rewrite IH|]; reflexivity.
Qed.

Lemma takeWhile_all (p : char -> bool) (s : str) :
  forallb p (takeWhile p s) = true.
Proof.
  induction s as [|c s IH]; simpl; [reflexivity|].
  destruct (p c) eqn:Hc; simpl; [rewrite Hc, IH|]; reflexivity.
Qed.

Lemma dropWhile_head (p : char -> bool) (s : str) :
  match dropWhile p s with
  | c :: _ => p c = false
  | [] => True
  end.
Proof.
  induction s as [|c s IH]; simpl; [exact I|].
  destruct (p c) eqn:Hc; [exact IH | exact Hc].
Qed.

Lemma takeWhile_app_all (p : char -> bool) (a b : str) :
  forallb p a = true -> takeWhile p (a ++ b) = a ++ takeWhile p b.
Proof.
  induction a as [|c a IH]; simpl; [reflexivity|].
  intros H. apply andb_true_iff in H. destruct H as [Hc Ha].
  rewrite Hc, IH by assumption. reflexivity.
Qed.

Lemma dropWhile_app_all (p : char -> bool) (a b : str) :
  forallb p a = true -> dropWhile p (a ++ b) = dropWhile p b.
Proof.
  induction a as [|c a IH]; simpl; [reflexivity|].
  intros H. apply andb_true_iff in H. destruct H as [Hc Ha].
  rewrite Hc. apply IH. assumption.
Qed.

(** The longest span comes last in [spans], hence first for a greedy
    quantifier. *)
Lemma rev_spans_head (p : char -> bool) (s : str) (i : nat) :
  exists l, rev (spans p i s)
            = (i + length (takeWhile p s), dropWhile p s) :: l.
Proof.
  revert i. induction s as [|c s IH]; intros i; simpl.
  - exists []. rewrite Nat.add_0_r. reflexivity.
  - destruct (p c).
    + destruct (IH (S i)) as [l Hl]. rewrite Hl. simpl.
      exists (l ++ [(i, c :: s)]). repeat f_equal. lia.
    + simpl. exists []. rewrite Nat.add_0_r. reflexivity.
Qed.

(** A greedy [+] on a class: no match when the subject does not start in
    the class, otherwise the longest run first. *)
Lemma run_plus_none (p : char -> bool) (i : nat) (s : str) (cs : list (nat * str)) :
  takeWhile p s = [] -> run (Rep true 1 p) (MState i s cs) = [].
Proof.
  destruct s as [|c s]; simpl; [reflexivity|].
  destruct (p c); [discriminate | reflexivity].
Qed.

Lemma run_plus_head (p : char -> bool) (i : nat) (s : str) (cs : list (nat * str)) :
  takeWhile p s <> [] ->
  exists l, run (Rep true 1 p) (MState i s cs)
            = MState (i + length (takeWhile p s)) (dropWhile p s) cs :: l.
Proof.
  destruct s as [|c s]; simpl; [congruence|].
  destruct (p c); [|congruence]. intros _.
  destruct (rev_spans_head p s (S i)) as [l Hl]. rewrite Hl. simpl.
  eexists. repeat f_equal. lia.
Qed.

Lemma in_skipn {A : Type} (n : nat) (l : list A) (x : A) :
  In x (skipn n l) -> In x l.
Proof.
  intros H. rewrite <- (firstn_skipn n l). apply in_or_app. right. exact H.
Qed.

(** Every result of a match lies further on in the subject. *)
Lemma spans_advance (p : char -> bool) (s : str) (i : nat) (x : nat * str) :
  In x (spans p i s) ->
  exists pre, s = pre ++ snd x /\ fst x = i + length pre /\ forallb p pre = true.
Proof.
  revert i. induction s as [|c s IH]; intros i; simpl.
  - intros [<-|[]]. exists []. simpl. auto.
  - intros [<-|Hin].
    + exists []. simpl. auto.
    + destruct (p c) eqn:Hc; [|destruct Hin].
      destruct (IH _ Hin) as (pre & Hs & Hi & Hp).
      exists (c :: pre). simpl. rewrite Hc, Hp, <- Hs, Hi. repeat split. lia.
Qed.

Lemma run_advance (r : regex) (st st' : mstate) :
  In st' (run r st) ->
  exists pre, rest st = pre ++ rest st' /\ pos st' = pos st + length pre.
Proof.
  revert st st'. induction r as [|c|p|g mn p|r1 IH1 r2 IH2|r1 IH1 r2 IH2|n r IH| |];
    intros st st'; simpl.
  - intros [<-|[]]. exists []. simpl. auto.
  - destruct (rest st) as [|d s'] eqn:Hr; [intros []|].
    destruct (d =? c)%N; [|intros []]. intros [<-|[]].
    exists [d]. simpl. split; [reflexivity | lia].
  - destruct (rest st) as [|d s'] eqn:Hr; [intros []|].
    destruct (p d); [|intros []]. intros [<-|[]].
    exists [d]. simpl. split; [reflexivity | lia].
  - intros Hin. apply in_map_iff in Hin. destruct Hin as (x & <- & Hx).
    assert (In x (spans p (pos st) (rest st))) as Hx'.
    { destruct g; [apply in_rev in Hx|]; eapply in_skipn; eassumption. }
    destruct (spans_advance _ _ _ _ Hx') as (pre & Hs & Hi & _).
    exists pre. simpl. auto.
  - intros Hin. apply in_flat_map in Hin. destruct Hin as (mid & Hmid & Hin).
    destruct (IH1 _ _ Hmid) as (p1 & Hs1 & Hi1).
    destruct (IH2 _ _ Hin) as (p2 & Hs2 & Hi2).
    exists (p1 ++ p2). rewrite <- app_assoc, <- Hs2, length_app. split; [assumption | lia].
  - intros Hin. apply in_app_or in Hin. destruct Hin; [apply IH1 | apply IH2]; assumption.
  - intros Hin. apply in_map_iff in Hin. destruct Hin as (x & <- & Hx).
    simpl. apply IH. assumption.
  - destruct (pos st =? 0)%nat; [|intros []]. intros [<-|[]].
    exists []. simpl. auto.
  - destruct (rest st) eqn:Hr; [|intros []]. intros [<-|[]]. exists [].
    simpl. rewrite Hr. auto.
Qed.

(** ** Reading a match backwards *)

Lemma run_chr_inv (c : char) (st st' : mstate) :
  In st' (run (Chr c) st) ->
  exists s', rest st = c :: s' /\ st' = MState (S (pos st)) s' (caps st).
Proof.
  simpl. destruct (rest st) as [|d s']; [intros []|].
  destruct (d =? c)%N eqn:Hd; [|intros []]. apply N.eqb_eq in Hd. subst d.
  intros [<-|[]]. eauto.
Qed.

Lemma skipn_spans_inv (p : char -> bool) (s : str) (i mn : nat) (x : nat * str) :
  In x (skipn mn (spans p i s)) ->
  exists pre, s = pre ++ snd x /\ fst x = i + length pre
              /\ forallb p pre = true /\ mn <= length pre.
Proof.
  revert s i. induction mn as [|mn IH]; intros s i Hin.
  - destruct (spans_advance p s i x Hin) as (pre & H1 & H2 & H3).
    exists pre. repeat split; auto. lia.
  - destruct s as [|c s]; simpl in Hin.
    + destruct mn; destruct Hin.
    + destruct (p c) eqn:Hc; [|destruct mn; destruct Hin].
      destruct (IH _ _ Hin) as (pre & H1 & H2 & H3 & H4).
      exists (c :: pre). simpl. rewrite Hc, H3, <- H1, H2. repeat split; lia.
Qed.

Lemma run_rep_inv (g : bool) (mn : nat) (p : char -> bool) (st st' : mstate) :
  In st' (run (Rep g mn p) st) ->
  exists pre, rest st = pre ++ rest st' /\ pos st' = pos st + length pre
              /\ forallb p pre = true /\ mn <= length pre /\ caps st' = caps st.
Proof.
  simpl. intros Hin. apply in_map_iff in Hin. destruct Hin as (x & <- & Hx).
  assert (In x (skipn mn (spans p (pos st) (rest st)))) as Hx'.
  { destruct g; [apply in_rev in Hx|]; exact Hx. }
  destruct (skipn_spans_inv _ _ _ _ _ Hx') as (pre & H1 & H2 & H3 & H4).
  exists pre. simpl. auto.
Qed.

Lemma run_grp_inv (n : nat) (r : regex) (st st' : mstate) :
  In st' (run (Grp n r) st) ->
  exists st1, In st1 (run r st)
              /\ st' = MState (pos st1) (rest st1)
                         ((n, firstn (pos st1 - pos st) (rest st)) :: caps st1).
Proof.
  simpl. intros Hin. apply in_map_iff in Hin. destruct Hin as (x & <- & Hx). eauto.
Qed.

Lemma run_seq_inv (r1 r2 : regex) (st st' : mstate) :
  In st' (run (Seq r1 r2) st) ->
  exists mid, In mid (run r1 st) /\ In st' (run r2 mid).
Proof. simpl. intros Hin. apply in_flat_map in Hin. exact Hin. Qed.

Lemma run_alt_inv (r1 r2 : regex) (st st' : mstate) :
  In st' (run (Alt r1 r2) st) -> In st' (run r1 st) \/ In st' (run r2 st).
Proof. simpl. apply in_app_or. Qed.

Lemma run_opt_inv (r : regex) (st st' : mstate) :
  In st' (run (Opt r) st) -> In st' (run r st) \/ st' = st.
Proof.
  simpl. intros Hin. apply in_app_or in Hin. destruct Hin as [H|[H|[]]]; auto.
Qed.

Lemma flat_map_nil {A B : Type} (f : A -> list B) (l : list A) :
  (forall x, In x l -> f x = []) -> flat_map f l = [].
Proof.
  induction l as [|x l IH]; intros H; simpl; [reflexivity|].
  rewrite (H x) by (left; reflexivity). apply IH. intros y Hy. apply H. right. exact Hy.
Qed.

(** What [search] found is the first way to match at the leftmost place
    where there is one. *)
Lemma search_some (r : regex) (s : str) (i j : nat) (st : mstate) :
  search r i s = Some (j, st) ->
  exists u v l, s = u ++ v /\ j = i + length u
                /\ run r (MState j v []) = st :: l
                /\ forall u1 u2, u = u1 ++ u2 -> u2 <> [] ->
                                 run r (MState (i + length u1) (u2 ++ v) []) = [].
Proof.
  revert i. induction s as [|c s IH]; intros i; cbn [search].
  - destruct (run r (MState i [] [])) as [|st0 l] eqn:Hrun; [discriminate|].
    intros [= <- <-]. exists [], [], l. simpl. rewrite Nat.add_0_r.
    repeat split; auto. intros u1 u2 Hu Hne. destruct u1, u2; try discriminate.
    congruence.
  - destruct (run r (MState i (c :: s) [])) as [|st0 l] eqn:Hrun.
    + intros H. destruct (IH _ H) as (u & v & l & Hs & Hj & Hr & Hbefore).
      exists (c :: u), v, l. simpl. rewrite Hs. repeat split; auto; [lia|].
      intros u1 u2 Hu Hne. destruct u1 as [|d u1].
      * simpl in Hu. subst u2. simpl. rewrite Nat.add_0_r, <- Hs. exact Hrun.
      * injection Hu as <- Hu. simpl. replace (i + S (length u1)) with (S i + length u1) by lia.
        apply Hbefore; assumption.
    + intros [= <- <-]. exists [], (c :: s), l. simpl. rewrite Nat.add_0_r.
      repeat split; auto. intros u1 u2 Hu Hne. destruct u1, u2; try discriminate.
      congruence.
Qed.

Lemma search_none (r : regex) (s : str) (i : nat) :
  search r i s = None ->
  forall u v, s = u ++ v -> run r (MState (i + length u) v []) = [].
Proof.
  revert i. induction s as [|c s IH]; intros i; cbn [search].
  - destruct (run r (MState i [] [])) eqn:Hrun; [|discriminate].
    intros _ u v Hs. destruct u, v; try discriminate. simpl.
    rewrite Nat.add_0_r. exact Hrun.
  - destruct (run r (MState i (c :: s) [])) eqn:Hrun; [|discriminate].
    intros H u v Hs. destruct u as [|d u].
    + simpl in Hs. subst v. simpl. rewrite Nat.add_0_r. exact Hrun.
    + injection Hs as <- Hs. simpl. replace (i + S (length u)) with (S i + length u) by lia.
      apply IH; assumption.
Qed.

(** ** The fuel of the global loops is enough *)

Lemma search_progress (r : regex) (s : str) (i j : nat) (st : mstate) :
  search r i s = Some (j, st) ->
  length (rest st) <= length s
  /\ (pos st <> j -> length (rest st) < length s).
Proof.
  intros H. destruct (search_some r s i j st H) as (u & v & l & Es & Ej & Hr & _).
  assert (In st (run r (MState j v []))) as Hin by (rewrite Hr; left; reflexivity).
  destruct (run_advance r _ _ Hin) as (pre & Ev & Ep). cbn [pos rest] in Ev, Ep.
  subst s v. rewrite !length_app. split; [lia|].
  intros Hne. destruct pre; [simpl in Ep; lia | simpl; lia].
Qed.

Lemma scan_fuel (r : regex) (f1 f2 : nat) (s : str) (i : nat) :
  length s < f1 -> length s < f2 -> scan f1 r i s = scan f2 r i s.
Proof.
  revert f2 s i. induction f1 as [|f1 IH]; intros f2 s i H1 H2; [lia|].
  destruct f2 as [|f2]; [lia|]. cbn [scan].
  destruct (search r i s) as [[j st]|] eqn:Hs; [|reflexivity].
  destruct (search_progress r s i j st Hs) as [Hle Hlt]. f_equal.
  destruct (pos st =? j)%nat eqn:Hp.
  - destruct (rest st) as [|c s'] eqn:Hr; [reflexivity|].
    simpl in Hle. apply IH; lia.
  - apply Nat.eqb_neq in Hp. specialize (Hlt Hp). apply IH; lia.
Qed.

Lemma replace_scan_fuel (r : regex) (rep : str) (f1 f2 : nat) (s : str) (i : nat) :
  length s < f1 -> length s < f2 ->
  replace_scan f1 r rep i s = replace_scan f2 r rep i s.
Proof.
  revert f2 s i. induction f1 as [|f1 IH]; intros f2 s i H1 H2; [lia|].
  destruct f2 as [|f2]; [lia|]. cbn [replace_scan].
  destruct (search r i s) as [[j st]|] eqn:Hs; [|reflexivity].
  destruct (search_progress r s i j st Hs) as [Hle Hlt]. do 2 f_equal.
  destruct (pos st =? j)%nat eqn:Hp.
  - destruct (rest st) as [|c s'] eqn:Hr; [reflexivity|].
    simpl in Hle. f_equal. apply IH; lia.
  - apply Nat.eqb_neq in Hp. specialize (Hlt Hp). apply IH; lia.
Qed.

(** More fuel changes nothing: the loops of [matchAll] and [replaceAll] end
    on their own. *)
Lemma matchAll_fuel (r : regex) (s : str) (fuel : nat) :
  length s < fuel -> scan fuel r 0 s = matchAll r s.
Proof. intros H. apply scan_fuel; [exact H | lia]. Qed.

Lemma replaceAll_fuel (r : regex) (rep : str) (s : str) (fuel : nat) :
  length s < fuel -> replace_scan fuel r rep 0 s = replaceAll r rep s.
Proof. intros H. apply replace_scan_fuel; [exact H | lia]. Qed.

(** ** Occurrences and the marker *)

Lemma starts_with_iff (w s : str) :
  starts_with w s = true <-> exists post, s = w ++ post.
Proof.
  revert s. induction w as [|a w IH]; intros s; simpl.
  - split; [intros _; exists s; reflexivity | reflexivity].
  - destruct s as [|b s].
    + split; [discriminate | intros (post & H); discriminate].
    + rewrite andb_true_iff, N.eqb_eq, IH. split.
      * intros (-> & post & ->). exists post. reflexivity.
      * intros (post & [= -> ->]). split; [reflexivity | exists post; reflexivity].
Qed.

Lemma contains_occurs (w s : str) : contains w s = true <-> occurs w s.
Proof.
  induction s as [|c s IH].
  - simpl. rewrite orb_false_r, starts_with_iff. split.
    + intros (post & H). exists [], post. exact H.
    + intros (pre & post & H). destruct pre; [exists post; exact H|discriminate].
  - simpl. rewrite orb_true_iff, starts_with_iff, IH. split.
    + intros [(post & H)|(pre & post & H)].
      * exists [], post. exact H.
      * exists (c :: pre), post. rewrite H. reflexivity.
    + intros (pre & post & H). destruct pre as [|d pre].
      * left. exists post. exact H.
      * right. injection H as _ H. exists pre, post. exact H.
Qed.

Lemma remove_first_eq (w s : str) :
  remove_first w s
  = if starts_with w s then skipn (length w) s
    else match s with
         | [] => []
         | c :: s' => c :: remove_first w s'
         end.
Proof. destruct s; reflexivity. Qed.

Lemma run_notify (i : nat) (s : str) (cs : list (nat * str)) :
  run notify_re (MState i s cs)
  = if starts_with marker s then [MState (3 + i) (skipn 3 s) cs] else [].
Proof.
  destruct s as [|a [|b [|c s]]]; simpl.
  - reflexivity.
  - destruct (a =? c_lbrace)%N; reflexivity.
  - destruct (a =? c_lbrace)%N; simpl; [|reflexivity].
    destruct (b =? c_bang)%N; reflexivity.
  - destruct (a =? c_lbrace)%N; simpl; [|reflexivity].
    destruct (b =? c_bang)%N; simpl; [|reflexivity].
    destruct (c =? c_rbrace)%N; reflexivity.
Qed.

Lemma search_notify (s : str) (i : nat) :
  match search notify_re i s with
  | Some (j, st) =>
      contains marker s = true /\ i <= j
      /\ firstn (j - i) s ++ rest st = remove_first marker s
  | None => contains marker s = false
  end.
Proof.
  revert i. induction s as [|c s IH]; intros i.
  - reflexivity.
  - cbn [search]. rewrite run_notify, remove_first_eq. cbn [contains].
    destruct (starts_with marker (c :: s)) eqn:Hsw.
    + rewrite Nat.sub_diag. repeat split. lia.
    + specialize (IH (S i)). destruct (search notify_re (S i) s) as [[j st]|].
      * destruct IH as (Hc & Hle & Hrm). rewrite Hc. repeat split; [lia|].
        replace (j - i) with (S (j - S i)) by lia. simpl. rewrite Hrm. reflexivity.
      * exact IH.
Qed.

Lemma exec_notify_occurs (msg : str) :
  (exists m, exec notify_re msg = Some m) <-> occurs marker msg.
Proof.
  rewrite <- contains_occurs. unfold exec.
  pose proof (search_notify msg 0) as H.
  destruct (search notify_re 0 msg) as [[j st]|].
  - destruct H as [H _]. split; [intros _; exact H | intros _; eexists; reflexivity].
  - rewrite H. split; [intros [m [=]] | discriminate].
Qed.

Lemma replace_notify (s : str) : replace notify_re [] s = remove_first marker s.
Proof.
  unfold replace. pose proof (search_notify s 0) as H.
  destruct (search notify_re 0 s) as [[j st]|].
  - destruct H as (_ & _ & H). rewrite Nat.sub_0_r in H. exact H.
  - symmetry. clear -H. induction s as [|c s IH]; [reflexivity|].
    rewrite remove_first_eq. cbn [contains] in H. apply orb_false_iff in H.
    destruct H as [-> H]. rewrite IH by assumption. reflexivity.
Qed.

(** ** The pool *)

Lemma filter_at_most_one (p : nat -> bool) (l : list nat) :
  NoDup l ->
  (forall a b, In a l -> In b l -> p a = true -> p b = true -> a = b) ->
  length (filter p l) <= 1.
Proof.
  induction l as [|x l IH]; intros Hnd Huniq; simpl; [lia|].
  inversion Hnd as [|? ? Hnotin Hnd']; subst.
  destruct (p x) eqn:Hpx.
  - simpl. assert (filter p l = []) as ->; [|simpl; lia].
    destruct (filter p l) as [|y ys] eqn:Hf; [reflexivity|].
    assert (In y (filter p l)) as Hy by (rewrite Hf; left; reflexivity).
    apply filter_In in Hy. destruct Hy as [Hyin Hpy].
    assert (x = y) by (apply Huniq; simpl; auto). subst. contradiction.
  - apply IH; [assumption|]. intros a b Ha Hb. apply Huniq; simpl; auto.
Qed.

Lemma entries_ok_one_entry (m : Manager) :
  entries_ok m -> one_entry_per_identity m.
Proof.
  intros [Hv Hnd Hid] name credentials. apply filter_at_most_one; [assumption|].
  intros a b Ha Hb Hma Hmb. unfold handle_matches in Hma, Hmb.
  destruct (nth_error (heap m) a) as [xa|] eqn:Hxa; [|discriminate].
  destruct (nth_error (heap m) b) as [xb|] eqn:Hxb; [|discriminate].
  apply matches_iff in Hma, Hmb. destruct Hma, Hmb.
  apply (Hid a b xa xb); congruence.
Qed.

Lemma entries_ok_update (m : Manager) (a : nat) (f : Exchange -> Exchange) :
  keeps_identity f -> entries_ok m ->
  entries_ok (set_heap m (update a f (heap m))).
Proof.
  intros Hf [Hv Hnd Hid]. split; simpl.
  - intros b Hb. rewrite length_update. auto.
  - assumption.
  - intros b c xb xc Hb Hc. rewrite !nth_error_update. intros Hxb Hxc.
    assert (forall k y, (if (a =? k)%nat then option_map f (nth_error (heap m) k)
                         else nth_error (heap m) k) = Some y ->
                        exists z, nth_error (heap m) k = Some z
                                  /\ ex_name y = ex_name z
                                  /\ ex_credentials y = ex_credentials z) as Hback.
    { intros k y Hy. destruct (a =? k)%nat.
      - destruct (nth_error (heap m) k) as [z|]; [|discriminate]. simpl in Hy.
        injection Hy as <-. exists z. destruct (Hf z). auto.
      - exists y. auto. }
    destruct (Hback _ _ Hxb) as (zb & Hzb & Hnb & Hcb).
    destruct (Hback _ _ Hxc) as (zc & Hzc & Hnc & Hcc).
    intros Hn Hc'. apply (Hid b c zb zc); congruence.
Qed.

Lemma entries_ok_add_log (m : Manager) (e : LogEntry) :
  entries_ok m -> entries_ok (add_log m e).
Proof. intros [Hv Hnd Hid]. split; simpl; assumption. Qed.

Lemma entries_ok_openExchange (m : Manager) (name : str) (credentials : Credentials)
  (symbol : str) :
  entries_ok m -> entries_ok (fst (openExchange m name credentials symbol)).
Proof.
  intros Hok. unfold openExchange.
  destruct (findOpened m name credentials) as [a|] eqn:Hfind; simpl.
  - apply entries_ok_update; [apply keeps_identity_addReference | assumption].
  - destruct (find _ (exchanges m)) as [match_|]; simpl; [|assumption].
    destruct Hok as [Hv Hnd Hid]. split; simpl.
    + intros a Ha. rewrite length_app. simpl. apply in_app_or in Ha.
      destruct Ha as [Ha|[<-|[]]]; [specialize (Hv a Ha)|]; lia.
    + apply NoDup_app; [assumption | constructor; [intros []|constructor] |].
      intros a Ha [<-|[]]. specialize (Hv _ Ha). lia.
    + assert (forall a xa, In a (opened m) ->
                nth_error (heap m ++ [new_Exchange name credentials]) a = Some xa ->
                nth_error (heap m) a = Some xa) as Hold.
      { intros a xa Ha. rewrite nth_error_app1; auto. }
      assert (forall xa, nth_error (heap m ++ [new_Exchange name credentials])
                                   (length (heap m)) = Some xa ->
                         ex_name xa = name /\ ex_credentials xa = credentials) as Hnew.
      { intros xa. rewrite nth_error_app2, Nat.sub_diag by lia. simpl.
        intros [= <-]. auto. }
      intros a b xa xb Ha Hb Hxa Hxb Hn Hc.
      apply in_app_or in Ha. apply in_app_or in Hb.
      destruct Ha as [Ha|[<-|[]]], Hb as [Hb|[<-|[]]].
      * apply (Hid a b xa xb); auto.
      * exfalso. destruct (Hnew _ Hxb).
        apply (findOpened_None m name credentials a xa Hfind Ha (Hold _ _ Ha Hxa)). split; congruence.
      * exfalso. destruct (Hnew _ Hxa).
        apply (findOpened_None m name credentials b xb Hfind Hb (Hold _ _ Hb Hxb)). split; congruence.
      * reflexivity.
Qed.

Lemma entries_ok_closeExchange (m : Manager) (exchange : option nat) :
  entries_ok m -> entries_ok (fst (closeExchange m exchange)).
Proof.
  intros Hok. unfold closeExchange. destruct exchange as [e|]; [|assumption].
  destruct (nth_error (heap m) e) as [x|]; [|assumption].
  destruct (findOpened m (ex_name x) (ex_credentials x)); [|assumption].
  destruct (refCount x - 1 <=? 0)%Z; simpl.
  - apply (entries_ok_update (set_heap m (update e removeReference (heap m))) e
             terminate keeps_identity_terminate).
    apply entries_ok_update; [apply keeps_identity_removeReference | assumption].
  - apply entries_ok_update; [apply keeps_identity_removeReference | assumption].
Qed.

Lemma entries_ok_closeExchange_resume (m : Manager) (e : nat) (o : outcome) :
  entries_ok m -> entries_ok (fst (closeExchange_resume m e o)).
Proof.
  intros [Hv Hnd Hid]. destruct o as [err|]; simpl; [split; assumption|].
  split; simpl.
  - intros a Ha. apply filter_In in Ha. apply Hv, Ha.
  - apply NoDup_filter. assumption.
  - intros a b xa xb Ha Hb. apply filter_In in Ha, Hb. apply Hid; tauto.
Qed.

Lemma entries_ok_openExchange_resume (m : Manager) (h : nat) (o : outcome) :
  entries_ok m -> entries_ok (fst (openExchange_resume m h o)).
Proof.
  intros Hok. unfold openExchange_resume. destruct o as [err|]; [|assumption].
  pose proof (entries_ok_closeExchange _ (Some h) (entries_ok_add_log _ (LogError err) Hok)) as H.
  destruct (closeExchange (add_log m (LogError err)) (Some h)) as [m2 [|e]]; exact H.
Qed.

Lemma entries_ok_openExchange_closed (m : Manager) (h : nat) (o : outcome) :
  entries_ok m -> entries_ok (fst (openExchange_closed m h o)).
Proof.
  intros Hok. unfold openExchange_closed.
  pose proof (entries_ok_closeExchange_resume _ h o Hok) as H.
  destruct (closeExchange_resume m h o) as [m' [err|]]; exact H.
Qed.

Lemma counts_add_log (m : Manager) (e : LogEntry) :
  count_tracks_membership m -> count_tracks_membership (add_log m e).
Proof. intros H. exact H. Qed.

Lemma counts_openExchange (m : Manager) (name : str) (credentials : Credentials)
  (symbol : str) :
  entries_ok m -> count_tracks_membership m ->
  count_tracks_membership (fst (openExchange m name credentials symbol)).
Proof.
  intros Hok Hc. unfold openExchange.
  destruct (findOpened m name credentials) as [a|] eqn:Hfind; simpl.
  - apply findOpened_Some in Hfind. destruct Hfind as (Ha & x & Hx & _).
    intros b ex. simpl. rewrite nth_error_update.
    destruct (a =? b)%nat eqn:Hab.
    + apply Nat.eqb_eq in Hab. subst b. rewrite Hx. simpl. intros [= <-]. simpl.
      pose proof (proj2 (Hc a x Hx) Ha). split; [auto | lia].
    + apply Hc.
  - destruct (find _ (exchanges m)) as [match_|]; simpl; [|assumption].
    intros b ex Hb. simpl in *.
    destruct (Nat.lt_ge_cases b (length (heap m))) as [Hlt|Hge].
    + rewrite nth_error_app1 in Hb by assumption. rewrite (Hc b ex Hb).
      rewrite in_app_iff. simpl. intuition lia.
    + rewrite nth_error_app2 in Hb by assumption.
      destruct (b - length (heap m)) as [|k] eqn:Hk; simpl in Hb.
      * injection Hb as <-. simpl. assert (b = length (heap m)) as -> by lia.
        rewrite in_app_iff. simpl. intuition lia.
      * destruct k; discriminate.
Qed.

Lemma counts_closeExchange (m : Manager) (exchange : option nat) :
  count_tracks_membership m ->
  match closeExchange m exchange with
  | (m', CloseReturn) => count_tracks_membership m'
  | (m', CloseAwaitTerminate e) => counts_while_terminating m' e
  end.
Proof.
  intros Hc. unfold closeExchange. destruct exchange as [e|]; [|assumption].
  destruct (nth_error (heap m) e) as [x|] eqn:Hx; [|assumption].
  destruct (findOpened m (ex_name x) (ex_credentials x)); [|assumption].
  destruct (refCount x - 1 <=? 0)%Z eqn:Hle.
  - apply Z.leb_le in Hle. intros a ex. simpl. rewrite !nth_error_update.
    destruct (e =? a)%nat eqn:Hea.
    + apply Nat.eqb_eq in Hea. subst a. rewrite Hx, Nat.eqb_refl. simpl.
      intros [= <-]. simpl. assumption.
    + rewrite Nat.eqb_sym, Hea. apply Hc.
  - apply Z.leb_gt in Hle. intros a ex. simpl. rewrite nth_error_update.
    destruct (e =? a)%nat eqn:Hea.
    + apply Nat.eqb_eq in Hea. subst a. rewrite Hx. simpl. intros [= <-]. simpl.
      pose proof (Hc e x Hx) as Hiff. split; [intros _; apply Hiff; lia | lia].
    + apply Hc.
Qed.

Lemma counts_closeExchange_resume (m : Manager) (e : nat) :
  counts_while_terminating m e ->
  count_tracks_membership (fst (closeExchange_resume m e None)).
Proof.
  intros Hc a ex Ha. simpl in *. specialize (Hc a ex Ha). rewrite filter_In.
  destruct (a =? e)%nat eqn:Hae; simpl.
  - split; [lia | intros [_ [=]]].
  - rewrite Hc. intuition.
Qed.

Lemma counts_openExchange_resume (m : Manager) (h : nat) (o : outcome) :
  count_tracks_membership m ->
  match openExchange_resume m h o with
  | (m', OpenAwaitClose e) => counts_while_terminating m' e
  | (m', _) => count_tracks_membership m'
  end.
Proof.
  intros Hc. unfold openExchange_resume. destruct o as [err|]; [|assumption].
  pose proof (counts_closeExchange (add_log m (LogError err)) (Some h)
                (counts_add_log m _ Hc)) as H.
  destruct (closeExchange (add_log m (LogError err)) (Some h)) as [m2 [|e]]; exact H.
Qed.

Lemma run_call_entries (m : Manager) (c : Call) :
  entries_ok m ->
  entries_ok (snd (run_call m c))
  /\ forall ph m', In (ph, m') (fst (run_call m c)) -> entries_ok m'.
Proof.
  intros Hok. destruct c as [name credentials symbol init tm | exchange tm]; simpl.
  - unfold run_open.
    pose proof (entries_ok_openExchange m name credentials symbol Hok) as H1.
    destruct (openExchange m name credentials symbol) as [m1 step]. simpl in H1.
    destruct step as [r|err|h sym|h]; simpl; try (split; [assumption | intros ? ? []]).
    pose proof (entries_ok_openExchange_resume m1 h init H1) as H2.
    destruct (openExchange_resume m1 h init) as [m2 step2]. simpl in H2.
    destruct step2 as [r|err|h' sym'|e]; simpl;
      try (split; [assumption | intros ? ? [[= <- <-]|[]]; assumption]).
    split; [apply entries_ok_openExchange_closed; assumption|].
    intros ph m' [[= <- <-]|[[= <- <-]|[]]]; assumption.
  - unfold run_close.
    pose proof (entries_ok_closeExchange m exchange Hok) as H1.
    destruct (closeExchange m exchange) as [m1 [|e]]; simpl in *.
    + split; [assumption | intros ? ? []].
    + split; [apply entries_ok_closeExchange_resume; assumption|].
      intros ph m' [[= <- <-]|[]]. assumption.
Qed.

Lemma run_call_counts (m : Manager) (c : Call) :
  entries_ok m -> count_tracks_membership m -> terminate_fulfils c ->
  count_tracks_membership (snd (run_call m c))
  /\ forall ph m', In (ph, m') (fst (run_call m c)) -> ph <> TerminateWindow ->
                   count_tracks_membership m'.
Proof.
  intros Hok Hc Htm.
  destruct c as [name credentials symbol init tm | exchange tm]; simpl in *; subst tm.
  - unfold run_open.
    pose proof (counts_openExchange m name credentials symbol Hok Hc) as H1.
    destruct (openExchange m name credentials symbol) as [m1 step]. simpl in H1.
    destruct step as [r|err|h sym|h]; simpl; try (split; [assumption | intros ? ? []]).
    pose proof (counts_openExchange_resume m1 h init H1) as H2.
    destruct (openExchange_resume m1 h init) as [m2 step2].
    destruct step2 as [r|err|h' sym'|e]; simpl;
      try (split; [assumption | intros ? ? [[= <- <-]|[]] _; assumption]).
    split; [apply (counts_closeExchange_resume m2 e H2)|].
    intros ph m' [[= <- <-]|[[= <- <-]|[]]] Hph; [assumption | congruence].
  - unfold run_close.
    pose proof (counts_closeExchange m exchange Hc) as H1.
    destruct (closeExchange m exchange) as [m1 [|e]]; simpl in *.
    + split; [assumption | intros ? ? []].
    + split; [apply (counts_closeExchange_resume m1 e H1)|].
      intros ph m' [[= <- <-]|[]] Hph. congruence.
Qed.

Lemma run_calls_entries (calls : list Call) (m : Manager) :
  entries_ok m ->
  forall ph m', In (ph, m') (run_calls m calls) -> entries_ok m'.
Proof.
  revert m. induction calls as [|c cs IH]; intros m Hok ph m'; simpl.
  - intros [[= <- <-]|[]]. assumption.
  - destruct (run_call_entries m c Hok) as [Hend Hmid].
    intros [[= <- <-]|Hin]; [assumption|]. apply in_app_or in Hin.
    destruct Hin as [Hin|Hin]; [apply (Hmid _ _ Hin) | apply (IH _ Hend _ _ Hin)].
Qed.

Lemma run_calls_counts (calls : list Call) (m : Manager) :
  entries_ok m -> count_tracks_membership m -> Forall terminate_fulfils calls ->
  forall ph m', In (ph, m') (run_calls m calls) -> ph <> TerminateWindow ->
                count_tracks_membership m'.
Proof.
  revert m. induction calls as [|c cs IH]; intros m Hok Hc Hall ph m'; simpl.
  - intros [[= <- <-]|[]] _. assumption.
  - inversion Hall as [|? ? Hc1 Hcs]; subst.
    destruct (run_call_entries m c Hok) as [Hend _].
    destruct (run_call_counts m c Hok Hc Hc1) as [Hcend Hcmid].
    intros [[= <- <-]|Hin] Hph; [assumption|]. apply in_app_or in Hin.
    destruct Hin as [Hin|Hin];
      [apply (Hcmid _ _ Hin Hph) | apply (IH _ Hend Hcend Hcs _ _ Hin Hph)].
Qed.

Lemma new_Manager_entries_ok (catalog : list CatalogEntry) :
  entries_ok (new_Manager catalog).
Proof.
  split; simpl; [intros ? [] | constructor | intros ? ? ? ? []].
Qed.

Lemma new_Manager_counts (catalog : list CatalogEntry) :
  count_tracks_membership (new_Manager catalog).
Proof. intros a ex. simpl. destruct a; discriminate. Qed.


(** C1.  Starting from the empty pool, let calls of [openExchange] and
    [closeExchange] run one after the other, each to completion.  In every
    state the pool goes through, suspension points included, at most one
    entry of the open-set answers to a given (name, credentials) identity.
    If moreover no [terminate()] rejects, then in every state between two
    calls and in every state in which an [openExchange] awaits
    [init(symbol)], a handle has a count above zero if and only if it is in
    the open-set. *)
Theorem C1_pool_invariant (catalog : list CatalogEntry) (calls : list Call)
  (ph : Phase) (m : Manager) :
  In (ph, m) (run_calls (new_Manager catalog) calls) ->
  one_entry_per_identity m
  /\ (Forall terminate_fulfils calls -> ph <> TerminateWindow ->
      count_tracks_membership m).
Proof.
  intros Hin. split.
  - apply entries_ok_one_entry.
    apply (run_calls_entries calls _ (new_Manager_entries_ok catalog) _ _ Hin).
  - intros Hall Hph.
    apply (run_calls_counts calls _ (new_Manager_entries_ok catalog)
             (new_Manager_counts catalog) Hall _ _ Hin Hph).
Qed.

(** C1 as stated fails where a [terminate()] rejects: [closeExchange] has
    taken the count of the handle to zero and leaves at the rejected
    [await], before the filter, so between this call and the next one the
    handle is in the open-set with a count of zero. *)
Lemma C1_counterexample :
  let m := pool_after_failed_terminate in
  In (BetweenCalls, m)
     (run_calls (new_Manager binance_catalog) calls_with_failed_terminate)
  /\ In 0 (opened m)
  /\ option_map refCount (nth_error (heap m) 0) = Some 0%Z
  /\ ~ count_tracks_membership m
  /\ ~ pool_invariant_as_stated binance_catalog calls_with_failed_terminate.
Proof.
  intros m.
  assert (In (BetweenCalls, m)
             (run_calls (new_Manager binance_catalog) calls_with_failed_terminate))
    as Hin by (vm_compute; do 4 right; left; reflexivity).
  assert (In 0 (opened m)) as Ho by (vm_compute; left; reflexivity).
  assert (nth_error (heap m) 0
          = Some (mkExchange (js "binance") binance_credentials 0 1)) as Hx
    by (vm_compute; reflexivity).
  assert (~ count_tracks_membership m) as Hno.
  { intros H. apply (H 0 _ Hx) in Ho. simpl in Ho. lia. }
  split; [exact Hin|]. split; [exact Ho|]. split; [rewrite Hx; reflexivity|].
  split; [exact Hno|].
  intros H. destruct (H BetweenCalls m Hin) as [_ Hc]. apply Hno. apply Hc. discriminate.
Qed.

Lemma nth_error_last (h : list Exchange) (x : Exchange) :
  nth_error (h ++ [x]) (length h) = Some x.
Proof. rewrite nth_error_app2, Nat.sub_diag by lia. reflexivity. Qed.

Lemma update_last (f : Exchange -> Exchange) (h : list Exchange) (x : Exchange) :
  update (length h) f (h ++ [x]) = h ++ [f x].
Proof. induction h as [|y t IH]; simpl; [reflexivity | rewrite IH; reflexivity]. Qed.

Lemma find_last (p : nat -> bool) (l : list nat) (h : nat) :
  p h = true -> (forall a, In a l -> p a = true -> a = h) ->
  find p (l ++ [h]) = Some h.
Proof.
  intros Hh. induction l as [|a l IH]; intros Hl; simpl.
  - rewrite Hh. reflexivity.
  - destruct (p a) eqn:Hpa.
    + f_equal. apply Hl; simpl; auto.
    + apply IH. intros b Hb. apply Hl. simpl. auto.
Qed.

(** Once a handle has been created for an identity that was not open, that
    identity resolves to it, whatever the count and the log have become. *)
Lemma findOpened_created (m : Manager) (name : str) (credentials : Credentials)
  (x : Exchange) (l : list LogEntry) :
  findOpened m name credentials = None ->
  ex_name x = name -> ex_credentials x = credentials ->
  findOpened (mkManager (opened m ++ [length (heap m)]) (heap m ++ [x]) (exchanges m) l)
             name credentials = Some (length (heap m)).
Proof.
  intros Hnone Hn Hc. unfold findOpened. simpl. apply find_last.
  - unfold handle_matches. simpl. rewrite nth_error_last.
    apply matches_iff. auto.
  - intros a Ha Hm. unfold handle_matches in Hm. simpl in Hm.
    destruct (Nat.lt_ge_cases a (length (heap m))) as [Hlt|Hge].
    + exfalso. rewrite nth_error_app1 in Hm by assumption.
      unfold findOpened in Hnone. pose proof (find_none _ _ Hnone a Ha) as Hf.
      unfold handle_matches in Hf. congruence.
    + rewrite nth_error_app2 in Hm by assumption.
      destruct (a - length (heap m)) as [|k] eqn:Hk; [lia|].
      destruct k; discriminate.
Qed.


Lemma findOpened_of_member (m : Manager) (h : nat) (x : Exchange) :
  In h (opened m) -> nth_error (heap m) h = Some x ->
  exists a, findOpened m (ex_name x) (ex_credentials x) = Some a.
Proof.
  intros Hin Hx.
  destruct (findOpened m (ex_name x) (ex_credentials x)) as [a|] eqn:Hf; [eauto|].
  exfalso. apply (findOpened_None m _ _ h x Hf Hin Hx). auto.
Qed.

(** C3, as the code has it.  When the [init] of a handle that is still in
    the open-set fails, the failure is logged and the handle goes through
    the ordinary [closeExchange]: its count goes down by one.  If the count
    was at most 1, [terminate()] is called and, once it has completed, the
    handle is out of the open-set and [openExchange] returns [null].  If the
    count was above 1, [openExchange] returns [null] at once, [terminate()]
    is not called and the open-set is unchanged. *)
Theorem C3_init_failure_closes_by_count (m : Manager) (h : nat) (x : Exchange)
  (err : error) :
  In h (opened m) -> nth_error (heap m) h = Some x ->
  let s := openExchange_resume m h (Some err) in
  log (fst s) = log m ++ [LogError err]
  /\ option_map refCount (nth_error (heap (fst s)) h) = Some (refCount x - 1)%Z
  /\ ((refCount x <= 1)%Z ->
      snd s = OpenAwaitClose h
      /\ option_map terminated (nth_error (heap (fst s)) h) = Some (S (terminated x))
      /\ snd (openExchange_closed (fst s) h None) = OpenReturn None
      /\ ~ In h (opened (fst (openExchange_closed (fst s) h None))))
  /\ ((1 < refCount x)%Z ->
      snd s = OpenReturn None
      /\ option_map terminated (nth_error (heap (fst s)) h) = Some (terminated x)
      /\ opened (fst s) = opened m).
Proof.
  intros Hin Hx s.
  destruct (findOpened_of_member m h x Hin Hx) as [a Ha].
  assert (findOpened (add_log m (LogError err)) (ex_name x) (ex_credentials x) = Some a)
    as Ha' by exact Ha.
  unfold s, openExchange_resume, closeExchange.
  change (heap (add_log m (LogError err))) with (heap m).
  rewrite Hx, Ha'.
  destruct (refCount x - 1 <=? 0)%Z eqn:Hle.
  - apply Z.leb_le in Hle. simpl. rewrite !nth_error_update, Nat.eqb_refl, Hx. simpl.
    repeat split; try reflexivity; try lia.
    intros Hin'. apply filter_In in Hin'. rewrite Nat.eqb_refl in Hin'.
    destruct Hin' as [_ [=]].
  - apply Z.leb_gt in Hle. simpl. rewrite !nth_error_update, Nat.eqb_refl, Hx. simpl.
    repeat split; try reflexivity; try lia.
Qed.

(** One message with two blocks for the same exchange is enough to open a
    handle a second time while its [init] is pending: the second callback
    runs before the first one resumes. *)
Remark two_blocks_open_twice :
  let r := executeMessage (new_Manager binance_catalog)
             (js "binance(BTCUSD){buy(1)} binance(ETHUSD){sell(1)}")
             [binance_credentials] in
  mr_manager r = pool_opened_twice_during_init
  /\ map su_open (mr_suspended r)
     = [OpenAwaitInit 0 (js "BTCUSD"); OpenReturn (Some 0)].
Proof. vm_compute. split; reflexivity. Qed.

(** C3 as stated fails: when a second [openExchange] has found the handle
    while its [init] was pending, the failure of [init] only takes the count
    from 2 to 1; the handle is not terminated, stays in the open-set, and
    [openExchange] returns [null]. *)
Lemma C3_counterexample :
  let s := openExchange_resume pool_opened_twice_during_init 0 (Some (js "init failed")) in
  option_map refCount (nth_error (heap pool_opened_twice_during_init) 0) = Some 2%Z
  /\ snd s = OpenReturn None
  /\ In 0 (opened (fst s))
  /\ option_map terminated (nth_error (heap (fst s)) 0) = Some 0
  /\ ~ destroyed_on_init_failure pool_opened_twice_during_init 0 (js "init failed").
Proof.
  repeat split; try (vm_compute; auto; fail).
  intros (_ & _ & H & _). vm_compute in H. discriminate.
Qed.

(** ** The sequence executor *)

Section ExecutorProofs.

Variable executeCommand :
  list Event -> nat -> str -> str -> list Param -> Session -> outcome.

Lemma run_action_chunk (exchange : nat) (symbol : str) (session : Session)
  (action : Action) (tr : list Event) :
  exists o chunk,
    run_action executeCommand exchange symbol session action tr = (tr ++ chunk, None)
    /\ (forall tl, executed (chunk ++ tl) = action :: executed tl)
    /\ (forall tl, serial (chunk ++ tl) = serial tl)
    /\ (forall tl, outcomes (chunk ++ tl) = o :: outcomes tl)
    /\ (forall tl, reports (chunk ++ tl) = report_of action o ++ reports tl).
Proof.
  unfold run_action. destruct action as [name params]. simpl.
  destruct (executeCommand tr exchange symbol name params session) as [err|].
  - exists (Some err),
      [EvExecute exchange symbol name params session; EvSettled name (Some err);
       EvReport (name ++ js " FAILED: " ++ err)].
    repeat split; try reflexivity.
    + rewrite <- app_assoc. reflexivity.
    + intros tl. simpl. rewrite !str_eqb_refl. reflexivity.
  - exists None, [EvExecute exchange symbol name params session; EvSettled name None].
    repeat split; try reflexivity.
    intros tl. simpl. rewrite str_eqb_refl. reflexivity.
Qed.

Lemma eachSeries_run_action (exchange : nat) (symbol : str) (session : Session)
  (actions : list Action) (tr : list Event) :
  exists ext,
    eachSeries actions (run_action executeCommand exchange symbol session) tr
    = (tr ++ ext, None)
    /\ executed ext = actions
    /\ serial ext = true
    /\ length (outcomes ext) = length actions
    /\ reports ext = expected_reports actions (outcomes ext).
Proof.
  revert tr. induction actions as [|a actions IH]; intros tr; simpl.
  - exists []. rewrite app_nil_r. auto.
  - destruct (run_action_chunk exchange symbol session a tr)
      as (o & chunk & Hrun & Hex & Hser & Hout & Hrep).
    rewrite Hrun. destruct (IH (tr ++ chunk)) as (ext & Hext & Hexe & Hs & Hl & Hr).
    exists (chunk ++ ext). rewrite Hext, app_assoc, Hex, Hser, Hout, Hrep.
    unfold expected_reports. simpl. unfold expected_reports in Hr.
    repeat split; congruence.
Qed.

(** C4.  For a non-empty symbol and a non-empty action text, the promise of
    [executeCommandSequence] is fulfilled; [executeCommand] is called for
    the parsed actions, all of them and in their order; a call starts only
    after the promise of the previous one has settled and, if it was
    rejected, after its failure has been reported; and the reports are
    exactly those owed to the rejected actions.  In particular, when three
    actions are parsed and only the second one is rejected, the third one
    is executed and exactly one failure is reported. *)
Theorem C4_sequence_tolerates_failures (exchange : nat) (symbol commands : str)
  (session : Session) :
  symbol <> [] -> commands <> [] ->
  let r := executeCommandSequence executeCommand exchange symbol commands session in
  snd r = None
  /\ executed (fst r) = parseActions commands
  /\ serial (fst r) = true
  /\ length (outcomes (fst r)) = length (parseActions commands)
  /\ reports (fst r) = expected_reports (parseActions commands) (outcomes (fst r))
  /\ (forall a1 a2 a3 err,
        parseActions commands = [a1; a2; a3] ->
        outcomes (fst r) = [None; Some err; None] ->
        executed (fst r) = [a1; a2; a3]
        /\ reports (fst r) = [a_name a2 ++ js " FAILED: " ++ err]).
Proof.
  intros Hs Hc r. unfold r, executeCommandSequence.
  destruct symbol as [|c1 s1]; [congruence|].
  destruct commands as [|c2 s2]; [congruence|]. simpl orb. cbv iota.
  destruct (eachSeries_run_action exchange (c1 :: s1) session
              (parseActions (c2 :: s2)) []) as (ext & Hext & Hexe & Hser & Hlen & Hrep).
  rewrite Hext. simpl fst. simpl snd. simpl app.
  repeat split; try assumption.
  - rewrite Hexe. assumption.
  - rewrite Hrep. rewrite H, H0. reflexivity.
Qed.

End ExecutorProofs.

(** ** The dispatcher *)

Lemma executeMessage_all (m : Manager) (msg : str) (credentials : list Credentials) :
  mr_all (executeMessage m msg credentials) = [Resolved].
Proof.
  unfold executeMessage.
  destruct (fold_left (block_callback credentials) (commandBlocks msg) (m, [])).
  reflexivity.
Qed.

(** A block without credentials costs one report and nothing else: the
    blocks after it are processed from the same pool. *)
Lemma block_callback_no_credentials (credentials : list Credentials) (m : Manager)
  (suspended : list Suspended) (b : Block) :
  find (fun item => str_eqb (cr_name item) (b_exchangeName b)) credentials = None ->
  block_callback credentials (m, suspended) b
  = (add_log m (LogError (js "No credentials for '" ++ b_exchangeName b
                            ++ js "'. Skipping")), suspended).
Proof. intros H. unfold block_callback. rewrite H. reflexivity. Qed.

(** C5, on the code.  For the message [kraken(XBT){sell(1)} binance(BTCUSD){buy(1)}]
    with credentials for binance only: the kraken block is reported and
    skipped, the binance block goes on to [openExchange], and when
    [executeMessage] returns, the array it returns holds nothing but the
    initial resolved promise.  The completion of the binance block is pushed
    into it only when the callback resumes, after [openExchange] has
    returned the handle. *)
Theorem C5_completions_pushed_after_return :
  let msg := js "kraken(XBT){sell(1)} binance(BTCUSD){buy(1)}" in
  let blk := mkBlock (js "binance") (js "BTCUSD") (js "buy(1)") in
  let r := executeMessage (new_Manager binance_catalog) msg [binance_credentials] in
  commandBlocks msg = [mkBlock (js "kraken") (js "XBT") (js "sell(1)"); blk]
  /\ log (mr_manager r)
     = [LogError (js "No credentials for 'kraken'. Skipping");
        LogProgress (js "Starting Binance")]
  /\ mr_suspended r = [mkSuspended blk (OpenAwaitInit 0 (js "BTCUSD"))]
  /\ mr_all r = [Resolved]
  /\ openExchange_resume (mr_manager r) 0 None = (mr_manager r, OpenReturn (Some 0))
  /\ mr_all (block_resume r blk (Some 0))
     = [Resolved; SequenceOf 0 (js "BTCUSD") (js "buy(1)")].
Proof. vm_compute. repeat split; reflexivity. Qed.

(** ** The argument parser *)

(** C6.  [parseArguments] on [a=1,b=Qx,yQ,2], Q being the double quote. *)
Theorem C6_parseArguments_example :
  parseArguments (js "a=1,b=" ++ dq ++ js "x,y" ++ dq ++ js ",2")
  = [mkParam (js "a") (js "1") 0;
     mkParam (js "b") (js "x,y") 1;
     mkParam [] (js "2") 2].
Proof. vm_compute. reflexivity. Qed.

(** C7 as stated fails twice.  In [QaQ,b,QcQ] (Q the double quote, no
    comma between an opening quote and its closing quote) the first token
    found runs from the first quote to the third one, so two Params come
    out of three comma-delimited tokens.  In [a,,b] the empty field is no
    token at all, so the Param of [b] has index 1 and not 2. *)
Lemma C7_counterexample :
  let s1 := dq ++ js "a" ++ dq ++ js ",b," ++ dq ++ js "c" ++ dq in
  let s2 := js "a,,b" in
  (commas_outside_quotes false s1 = true
   /\ split_on c_comma s1 = [dq ++ js "a" ++ dq; js "b"; dq ++ js "c" ++ dq]
   /\ parseArguments s1
      = [mkParam [] (js "a" ++ dq ++ js ",b,") 0; mkParam [] (js "c" ++ dq) 1]
   /\ ~ one_param_per_comma_token s1)
  /\ (commas_outside_quotes false s2 = true
      /\ split_on c_comma s2 = [js "a"; []; js "b"]
      /\ parseArguments s2 = [mkParam [] (js "a") 0; mkParam [] (js "b") 1]
      /\ ~ one_param_per_comma_token s2).
Proof.
  repeat split; try (vm_compute; reflexivity);
    unfold one_param_per_comma_token; vm_compute; discriminate.
Qed.

(** ** Classifying a token *)

Lemma run_rep_inv_state (g : bool) (mn : nat) (p : char -> bool) (st st' : mstate) :
  In st' (run (Rep g mn p) st) ->
  exists pre post, rest st = pre ++ post
                   /\ st' = MState (pos st + length pre) post (caps st)
                   /\ forallb p pre = true /\ mn <= length pre.
Proof.
  intros Hin. destruct (run_rep_inv g mn p st st' Hin) as (pre & H1 & H2 & H3 & H4 & H5).
  exists pre, (rest st'). repeat split; auto.
  destruct st' as [ps rs cs]. simpl in *. congruence.
Qed.

Lemma firstn_prefix (pre post : str) (a : nat) :
  firstn (a + length pre - a) (pre ++ post) = pre.
Proof.
  replace (a + length pre - a) with (length pre) by lia.
  rewrite firstn_app, Nat.sub_diag, firstn_all. simpl. apply app_nil_r.
Qed.

Ltac inv_seq H mid H1 :=
  apply run_seq_inv in H; destruct H as (mid & H1 & H).

Ltac inv_rep H pre post :=
  let E := fresh "E" in
  let Hst := fresh "Hst" in
  let Hall := fresh "Hall" in
  let Hmin := fresh "Hmin" in
  apply run_rep_inv_state in H;
  destruct H as (pre & post & E & Hst & Hall & Hmin);
  cbn [pos rest caps] in E, Hst; subst.

Ltac inv_chr H post :=
  let E := fresh "E" in
  let Hst := fresh "Hst" in
  apply run_chr_inv in H; destruct H as (post & E & Hst);
  cbn [pos rest caps] in E, Hst; subst.

Lemma opt_chr_caps (c : char) (st st' : mstate) :
  In st' (run (Opt (Chr c)) st) -> caps st' = caps st.
Proof.
  intros H. apply run_opt_inv in H. destruct H as [H| ->]; [|reflexivity].
  apply run_chr_inv in H. destruct H as (s' & _ & ->). reflexivity.
Qed.

Lemma bare_value_caps (st st' : mstate) :
  In st' (run (Seq (Grp 6 (Rep true 1 is_dot)) (Opt (Chr c_dq))) st) ->
  exists z, z <> [] /\ caps st' = (6, z) :: caps st.
Proof.
  intros H. inv_seq H m H1. apply opt_chr_caps in H. rewrite H.
  apply run_grp_inv in H1. destruct H1 as (g & H1 & ->).
  apply run_rep_inv_state in H1. destruct H1 as (z & post & E & -> & _ & Hmin).
  cbn [pos rest caps]. rewrite E, firstn_prefix. exists z. split; [|reflexivity].
  destruct z; [simpl in Hmin; lia | discriminate].
Qed.

(** The captures of a match of the classification pattern: group 7 holds
    text, or else group 6 does, or else group 5 is set and can only be empty
    between two adjacent double quotes. *)
Lemma splitValues_caps (j : nat) (v : str) (st : mstate) :
  In st (run splitValues_re (MState j v [])) ->
  truthy (lookup 7 (caps st)) = true
  \/ (lookup 7 (caps st) = None /\ truthy (lookup 6 (caps st)) = true)
  \/ (lookup 7 (caps st) = None /\ lookup 6 (caps st) = None
      /\ exists y, lookup 5 (caps st) = Some y
                   /\ (y = [] -> occurs [c_dq; c_dq] v)).
Proof.
  unfold splitValues_re. intros H.
  apply run_alt_inv in H. destruct H as [H|H].
  - (* the named form *)
    inv_seq H m0 H0. simpl in H0. destruct (j =? 0)%nat; [|destruct H0].
    destruct H0 as [<-|[]].
    apply run_grp_inv in H. destruct H as (g1 & H & ->). cbn [pos rest caps].
    inv_seq H m2 H2. apply run_grp_inv in H2. destruct H2 as (g2 & H2 & ->).
    inv_rep H2 name r2. cbn [pos rest caps] in H.
    inv_seq H m3 H3. inv_rep H3 w1 r3.
    inv_seq H m4 H4. inv_chr H4 r4.
    inv_seq H m5 H5. inv_rep H5 w2 r5.
    apply run_grp_inv in H. destruct H as (g3 & H & ->). cbn [pos rest caps].
    apply run_alt_inv in H. destruct H as [H|H].
    + (* a quoted value *)
      right. right.
      apply run_grp_inv in H. destruct H as (g4 & H & ->). cbn [pos rest caps] in *.
      inv_seq H m6 H6. inv_chr H6 r6.
      inv_seq H m7 H7. apply run_grp_inv in H7. destruct H7 as (g5 & H7 & ->).
      inv_rep H7 y r7. cbn [pos rest caps] in H. inv_chr H r8.
      cbn [caps lookup Nat.eqb]. rewrite firstn_prefix. repeat split.
      exists y. split; [reflexivity|]. intros ->.
      exists (name ++ w1 ++ c_eq :: w2), r8. rewrite <- !app_assoc. reflexivity.
    + (* a bare value *)
      right. left.
      inv_seq H m6 H6. apply opt_chr_caps in H6. cbn [caps] in H6.
      destruct (bare_value_caps _ _ H) as (z & Hz & Hc).
      rewrite Hc, H6. cbn [caps lookup Nat.eqb].
      split; [reflexivity|]. destruct z; [congruence | reflexivity].
  - (* the plain form *)
    left. inv_seq H m1 H1. apply run_grp_inv in H1. destruct H1 as (g7 & H1 & ->).
    inv_rep H1 z r1. simpl in H. destruct r1; [|destruct H]. destruct H as [<-|[]].
    cbn [caps lookup Nat.eqb pos rest]. rewrite firstn_prefix.
    destruct z; [simpl in *; lia | reflexivity].
Qed.

Lemma line_terminator_is_space (c : char) :
  is_line_terminator c = true -> is_space c = true.
Proof.
  unfold is_line_terminator. rewrite !orb_true_iff, !N.eqb_eq.
  intros [[[-> | ->] | ->] | ->]; reflexivity.
Qed.

Lemma not_space_is_dot (c : char) : is_space c = false -> is_dot c = true.
Proof.
  intros H. unfold is_dot. destruct (is_line_terminator c) eqn:Hl; [|reflexivity].
  apply line_terminator_is_space in Hl. congruence.
Qed.

Lemma trimStart_head (s : str) :
  match trimStart s with
  | c :: _ => is_space c = false
  | [] => True
  end.
Proof.
  induction s as [|c s IH]; simpl; [exact I|].
  destruct (is_space c) eqn:Hc; [exact IH | exact Hc].
Qed.

Lemma trim_last (s : str) :
  trim s <> [] -> exists u c, trim s = u ++ [c] /\ is_space c = false.
Proof.
  unfold trim, trimEnd. pose proof (trimStart_head (rev (trimStart s))) as H.
  destruct (trimStart (rev (trimStart s))) as [|c x]; [simpl; congruence|].
  intros _. exists (rev x), c. split; [reflexivity | exact H].
Qed.

(** A token whose last character is not a line terminator always matches
    the classification pattern, somewhere. *)
Lemma exec_splitValues (u : str) (c : char) :
  is_dot c = true ->
  exists j st v' v,
    search splitValues_re 0 (u ++ [c]) = Some (j, st)
    /\ u ++ [c] = v' ++ v
    /\ In st (run splitValues_re (MState j v [])).
Proof.
  intros Hc. destruct (search splitValues_re 0 (u ++ [c])) as [[j st]|] eqn:Hs.
  - destruct (search_some _ _ _ _ _ Hs) as (u' & v & l & E & _ & Hr & _).
    exists j, st, u', v. repeat split; [exact E|]. rewrite Hr. left. reflexivity.
  - exfalso. pose proof (search_none _ _ _ Hs u [c] eq_refl) as Hn.
    unfold splitValues_re in Hn. cbn [run] in Hn.
    apply app_eq_nil in Hn. destruct Hn as [_ Hn].
    cbn [pos rest caps spans skipn rev app map flat_map] in Hn.
    rewrite Hc in Hn. discriminate.
Qed.

Lemma occurs_app (w a s b : str) : occurs w s -> occurs w (a ++ s ++ b).
Proof.
  intros (pre & post & ->). exists (a ++ pre), (post ++ b).
  rewrite <- !app_assoc. reflexivity.
Qed.

(** *** Which tokens give a Param *)

Lemma is_alnum_range (c : char) :
  is_alnum c = true ->
  (97 <= c <= 122)%N \/ (65 <= c <= 90)%N \/ (48 <= c <= 57)%N.
Proof.
  unfold is_alnum, is_alpha, is_lower, is_upper, is_digit, in_range.
  rewrite !orb_true_iff, !andb_true_iff, !N.leb_le. tauto.
Qed.

Ltac decide_cmp :=
  repeat match goal with
         | |- context [(?a <=? ?b)%N] =>
             first [ replace (a <=? b)%N with true by (symmetry; apply N.leb_le; lia)
                   | replace (a <=? b)%N with false by (symmetry; apply N.leb_gt; lia) ]
         | |- context [(?a =? ?b)%N] =>
             replace (a =? b)%N with false by (symmetry; apply N.eqb_neq; lia)
         end.

Lemma is_alnum_not_space (c : char) : is_alnum c = true -> is_space c = false.
Proof.
  intros H. apply is_alnum_range in H.
  assert (48 <= c <= 122)%N as B by lia. clear H.
  unfold is_space, in_range. decide_cmp. reflexivity.
Qed.

Lemma is_alpha_not_space (c : char) : is_alpha c = true -> is_space c = false.
Proof.
  intros H. apply is_alnum_not_space. unfold is_alnum. rewrite H. reflexivity.
Qed.

Lemma dropWhile_fixed (p : char -> bool) (s : str) :
  match s with c :: _ => p c = false | [] => True end -> dropWhile p s = s.
Proof. destruct s as [|c s]; [reflexivity|]. simpl. intros ->. reflexivity. Qed.

Lemma takeWhile_stop (p : char -> bool) (s : str) :
  match s with c :: _ => p c = false | [] => True end -> takeWhile p s = [].
Proof. destruct s as [|c s]; [reflexivity|]. simpl. intros ->. reflexivity. Qed.

Lemma spaces_then_eq_head (w X : str) :
  forallb is_space w = true ->
  match w ++ c_eq :: X with c :: _ => is_alpha c = false | [] => True end.
Proof.
  destruct w as [|c w]; [reflexivity|]. simpl. intros H.
  apply andb_prop in H. destruct H as [Hc _].
  destruct (is_alpha c) eqn:Ha; [|reflexivity].
  rewrite (is_alpha_not_space c Ha) in Hc. discriminate.
Qed.

Lemma empty_named_value_intro (name w1 w2 r : str) :
  name <> [] -> forallb is_alpha name = true ->
  forallb is_space w1 = true -> forallb is_space w2 = true ->
  empty_named_value (name ++ w1 ++ c_eq :: w2 ++ c_dq :: c_dq :: r) = true.
Proof.
  intros Hne Hal H1 H2. unfold empty_named_value.
  rewrite takeWhile_app_all, dropWhile_app_all by exact Hal.
  rewrite (takeWhile_stop is_alpha _ (spaces_then_eq_head w1 _ H1)).
  rewrite (dropWhile_fixed is_alpha _ (spaces_then_eq_head w1 _ H1)).
  rewrite app_nil_r. destruct name as [|n name]; [congruence|].
  rewrite dropWhile_app_all by exact H1. cbn [dropWhile].
  change (is_space c_eq) with false. cbv iota. rewrite N.eqb_refl.
  rewrite dropWhile_app_all by exact H2. cbn [dropWhile].
  change (is_space c_dq) with false. cbv iota.
  cbn [starts_with]. rewrite !N.eqb_refl. reflexivity.
Qed.

Lemma empty_named_value_inv (tok : str) :
  empty_named_value tok = true ->
  exists name w1 w2 r,
    tok = name ++ w1 ++ c_eq :: w2 ++ c_dq :: c_dq :: r
    /\ name <> [] /\ forallb is_alpha name = true
    /\ forallb is_space w1 = true /\ forallb is_space w2 = true.
Proof.
  unfold empty_named_value. intros H.
  pose proof (takeWhile_dropWhile is_alpha tok) as E0.
  pose proof (takeWhile_all is_alpha tok) as Hal.
  destruct (takeWhile is_alpha tok) as [|n name] eqn:En; [discriminate|].
  pose proof (takeWhile_dropWhile is_space (dropWhile is_alpha tok)) as E1.
  pose proof (takeWhile_all is_space (dropWhile is_alpha tok)) as H1.
  destruct (dropWhile is_space (dropWhile is_alpha tok)) as [|c r1]; [discriminate|].
  apply andb_prop in H. destruct H as [Hc H]. apply N.eqb_eq in Hc. subst c.
  pose proof (takeWhile_dropWhile is_space r1) as E2.
  pose proof (takeWhile_all is_space r1) as H2.
  apply starts_with_iff in H. destruct H as (r & Er).
  exists (n :: name), (takeWhile is_space (dropWhile is_alpha tok)),
    (takeWhile is_space r1), r.
  repeat split; try assumption; [|discriminate].
  rewrite <- E0 at 1. f_equal. rewrite <- E1 at 1. f_equal. f_equal.
  rewrite <- E2 at 1. f_equal. exact Er.
Qed.

(** A match of the classification pattern that sets group 5 to the empty
    text is anchored at the start of a token with an empty named value. *)
Lemma splitValues_empty (j : nat) (v : str) (st : mstate) :
  In st (run splitValues_re (MState j v [])) ->
  lookup 7 (caps st) = None -> lookup 6 (caps st) = None ->
  lookup 5 (caps st) = Some [] ->
  j = 0 /\ empty_named_value v = true.
Proof.
  unfold splitValues_re. intros H.
  apply run_alt_inv in H. destruct H as [H|H].
  - inv_seq H m0 H0. simpl in H0. destruct (j =? 0)%nat eqn:Ej; [|destruct H0].
    apply Nat.eqb_eq in Ej. destruct H0 as [<-|[]].
    apply run_grp_inv in H. destruct H as (g1 & H & ->). cbn [pos rest caps].
    inv_seq H m2 H2. apply run_grp_inv in H2. destruct H2 as (g2 & H2 & ->).
    inv_rep H2 name r2. cbn [pos rest caps] in H.
    assert (Hname : name <> []) by (intros ->; simpl in Hmin; lia).
    inv_seq H m3 H3. inv_rep H3 w1 r3.
    inv_seq H m4 H4. inv_chr H4 r4.
    inv_seq H m5 H5. inv_rep H5 w2 r5.
    apply run_grp_inv in H. destruct H as (g3 & H & ->). cbn [pos rest caps].
    apply run_alt_inv in H. destruct H as [H|H].
    + apply run_grp_inv in H. destruct H as (g4 & H & ->). cbn [pos rest caps] in *.
      inv_seq H m6 H6. inv_chr H6 r6.
      inv_seq H m7 H7. apply run_grp_inv in H7. destruct H7 as (g5 & H7 & ->).
      inv_rep H7 y r7. cbn [pos rest caps] in H. inv_chr H r8.
      cbn [caps lookup Nat.eqb]. rewrite firstn_prefix.
      intros _ _ [= ->]. split; [reflexivity|].
      apply empty_named_value_intro; assumption.
    + inv_seq H m6 H6. apply opt_chr_caps in H6. cbn [caps] in H6.
      destruct (bare_value_caps _ _ H) as (z & Hz & Hc).
      rewrite Hc, H6. cbn [caps lookup Nat.eqb]. discriminate.
  - inv_seq H m1 H1. apply run_grp_inv in H1. destruct H1 as (g7 & H1 & ->).
    inv_rep H1 z r1. simpl in H. destruct r1; [|destruct H]. destruct H as [<-|[]].
    cbn [caps lookup Nat.eqb pos rest]. discriminate.
Qed.

(** A token that is not empty, ends with a character that is not a line
    terminator and is not a name with an empty quoted value gives exactly
    one Param, which carries the index of the token. *)
Lemma classify_some (u : str) (c : char) (i : nat) :
  is_dot c = true -> empty_named_value (u ++ [c]) = false ->
  exists n v, classify (u ++ [c]) i = [mkParam n v i].
Proof.
  intros Hc Hq. destruct (exec_splitValues u c Hc) as (j & st & _ & _ & Hs & _).
  destruct (search_some _ _ _ _ _ Hs) as (u' & v & l & E & Ej & Hr & _).
  assert (In st (run splitValues_re (MState j v []))) as Hin
    by (rewrite Hr; left; reflexivity).
  unfold classify, exec. rewrite Hs. cbn [mk_match group].
  destruct (splitValues_caps j v st Hin) as [H7|[(H7 & H6)|(H7 & H6 & y & H5 & _)]].
  - rewrite H7. eauto.
  - rewrite H7, H6. cbn [truthy]. eauto.
  - rewrite H7, H6, H5. cbn [truthy]. destruct y as [|d y]; [|eauto].
    exfalso. destruct (splitValues_empty j v st Hin H7 H6 H5) as [-> Hv].
    destruct u' as [|x u']; [|simpl in Ej; lia].
    cbn [app] in E. rewrite E, Hv in Hq. discriminate.
Qed.

(** ** Splitting the arguments *)

Lemma forallb_app_r {A : Type} (p : A -> bool) (a b : list A) :
  forallb p (a ++ b) = true -> forallb p b = true.
Proof. rewrite forallb_app, andb_true_iff. tauto. Qed.

(** The first alternative of the splitting pattern cannot match where the
    run of characters up to the next comma has no double quote. *)
Lemma run_quoted_none (X : regex) (st : mstate) :
  forallb (is_not c_dq) (takeWhile (is_not c_comma) (rest st)) = true ->
  run (Seq (Rep false 1 (is_not c_comma)) (Seq (Chr c_dq) X)) st = [].
Proof.
  intros Hq. cbn [run]. apply flat_map_nil. intros x Hx.
  change (map _ _) with (run (Rep false 1 (is_not c_comma)) st) in Hx.
  apply run_rep_inv in Hx. destruct Hx as (pre & E & _ & Hpre & _).
  rewrite E, takeWhile_app_all in Hq by exact Hpre. apply forallb_app_r in Hq.
  destruct (rest x) as [|d s'] eqn:Hr; [reflexivity|].
  destruct (d =? c_dq)%N eqn:Hd; [|reflexivity].
  exfalso. apply N.eqb_eq in Hd. subst d. simpl in Hq. discriminate.
Qed.

Lemma flat_map_head {A B : Type} (f : A -> list B) (x : A) (l : list A)
  (y : B) (l1 : list B) :
  f x = y :: l1 -> flat_map f (x :: l) = y :: (l1 ++ flat_map f l).
Proof. intros H. simpl. rewrite H. reflexivity. Qed.

Lemma run_seq_eq (r1 r2 : regex) (st : mstate) :
  run (Seq r1 r2) st = flat_map (run r2) (run r1 st).
Proof. reflexivity. Qed.

Lemma run_alt_eq (r1 r2 : regex) (st : mstate) :
  run (Alt r1 r2) st = run r1 st ++ run r2 st.
Proof. reflexivity. Qed.

Lemma run_grp_eq (n : nat) (r : regex) (st : mstate) :
  run (Grp n r) st
  = map (fun st' => MState (pos st') (rest st')
                      ((n, firstn (pos st' - pos st) (rest st)) :: caps st'))
        (run r st).
Proof. reflexivity. Qed.

Lemma run_chr_hit (c : char) (i : nat) (s : str) (cs : list (nat * str)) :
  run (Chr c) (MState i (c :: s) cs) = [MState (S i) s cs].
Proof. cbn [run rest pos caps]. rewrite N.eqb_refl. reflexivity. Qed.

Lemma run_lazy_plus (p : char -> bool) (i : nat) (c : char) (s : str)
  (cs : list (nat * str)) :
  p c = true ->
  run (Rep false 1 p) (MState i (c :: s) cs)
  = map (fun x => MState (fst x) (snd x) cs) (spans p (S i) s).
Proof. intros Hc. cbn [run pos rest caps spans skipn]. rewrite Hc. reflexivity. Qed.

Lemma nil_of_no_member {A : Type} (l : list A) : (forall x, ~ In x l) -> l = [].
Proof. destruct l as [|x l]; [reflexivity|]. intros H. destruct (H x). left. reflexivity. Qed.

(** A greedy star on a class: the longest run first. *)
Lemma run_star_head (p : char -> bool) (i : nat) (s : str) (cs : list (nat * str)) :
  exists l, run (Rep true 0 p) (MState i s cs)
            = MState (i + length (takeWhile p s)) (dropWhile p s) cs :: l.
Proof.
  cbn [run pos rest caps skipn].
  destruct (rev_spans_head p s i) as [l Hl]. rewrite Hl. cbn [map fst snd].
  eexists. reflexivity.
Qed.

Lemma run_chr_miss (c d : char) (X : regex) (i : nat) (s : str) (cs : list (nat * str)) :
  (d =? c)%N = false -> run (Seq (Chr c) X) (MState i (d :: s) cs) = [].
Proof. intros H. rewrite run_seq_eq. cbn [run rest]. rewrite H. reflexivity. Qed.


Lemma run_seq_chr_hit (c : char) (X : regex) (i : nat) (s : str) (cs : list (nat * str)) :
  run (Seq (Chr c) X) (MState i (c :: s) cs) = run X (MState (S i) s cs).
Proof. rewrite run_seq_eq, run_chr_hit. cbn [flat_map]. apply app_nil_r. Qed.

(** From an opening double quote on: the text up to the next one, first. *)
Lemma run_quote_body (Y D : str) (i : nat) (cs : list (nat * str)) :
  Y <> [] -> forallb (is_not c_dq) Y = true ->
  exists l,
    run (Seq (Chr c_dq) (Seq (Rep true 1 (is_not c_dq)) (Chr c_dq)))
        (MState i (c_dq :: Y ++ c_dq :: D) cs)
    = MState (i + 1 + length Y + 1) D cs :: l.
Proof.
  intros HY HYq.
  destruct (run_plus_head (is_not c_dq) (S i) (Y ++ c_dq :: D) cs) as [l Hl].
  { rewrite takeWhile_app_all by exact HYq. destruct Y; [congruence | discriminate]. }
  rewrite takeWhile_app_all, dropWhile_app_all in Hl by exact HYq.
  cbn [takeWhile dropWhile] in Hl. change (is_not c_dq c_dq) with false in Hl.
  cbn iota in Hl. rewrite app_nil_r in Hl.
  rewrite run_seq_eq, run_chr_hit. cbn [flat_map]. rewrite app_nil_r.
  rewrite run_seq_eq, Hl.
  erewrite flat_map_head by apply run_chr_hit.
  replace (i + 1 + length Y + 1) with (S (S i + length Y)) by lia.
  eexists. reflexivity.
Qed.

Lemma split_on_field (a r : str) :
  forallb (is_not c_comma) a = true ->
  split_on c_comma a = [a]
  /\ split_on c_comma (a ++ c_comma :: r) = a :: split_on c_comma r.
Proof.
  induction a as [|c a IH]; intros Ha.
  - split; reflexivity.
  - simpl in Ha. apply andb_true_iff in Ha. destruct Ha as [Hc Ha].
    unfold is_not in Hc. apply negb_true_iff in Hc.
    destruct (IH Ha) as [E1 E2]. cbn [split_on app]. rewrite Hc, E1, E2.
    split; reflexivity.
Qed.

Lemma nonempty_fields_commas (a s : str) :
  forallb is_comma a = true -> nonempty_fields (a ++ s) = nonempty_fields s.
Proof.
  induction a as [|c a IH]; intros Ha; [reflexivity|].
  simpl in Ha. apply andb_true_iff in Ha. destruct Ha as [Hc Ha].
  unfold nonempty_fields in *. cbn [app split_on]. unfold is_comma in Hc.
  rewrite Hc. simpl. apply IH. exact Ha.
Qed.

Lemma nonempty_fields_field (a r : str) :
  forallb (is_not c_comma) a = true -> a <> [] ->
  match r with c :: _ => is_not c_comma c = false | [] => True end ->
  nonempty_fields (a ++ r) = a :: nonempty_fields r.
Proof.
  intros Ha Hne Hr. unfold nonempty_fields.
  destruct r as [|c r].
  - rewrite app_nil_r. destruct (split_on_field a [] Ha) as [-> _].
    simpl. destruct a; [congruence | reflexivity].
  - unfold is_not in Hr. apply negb_false_iff in Hr. apply N.eqb_eq in Hr. subst c.
    destruct (split_on_field a r Ha) as [_ ->]. cbn [split_on].
    rewrite N.eqb_refl. simpl. destruct a; [congruence | reflexivity].
Qed.

Lemma skipn_prefix (pre post : str) (a : nat) :
  skipn (a + length pre - a) (pre ++ post) = post.
Proof.
  replace (a + length pre - a) with (length pre) by lia.
  rewrite skipn_app, Nat.sub_diag, skipn_all. reflexivity.
Qed.

Lemma search_eq (r : regex) (i : nat) (s : str) :
  search r i s
  = match run r (MState i s []) with
    | st :: _ => Some (i, st)
    | [] => match s with
            | [] => None
            | _ :: s' => search r (S i) s'
            end
    end.
Proof. destruct s; reflexivity. Qed.

Lemma run_split_nomatch (i : nat) (s : str) :
  takeWhile (is_not c_comma) s = [] -> run splitByComma_re (MState i s []) = [].
Proof.
  intros H. unfold splitByComma_re. rewrite run_alt_eq, !run_grp_eq.
  rewrite run_quoted_none by (cbn [rest]; rewrite H; reflexivity).
  rewrite run_plus_none by exact H. reflexivity.
Qed.

Lemma search_commas (commas : str) (i : nat) :
  forallb is_comma commas = true -> search splitByComma_re i commas = None.
Proof.
  revert i. induction commas as [|k commas IH]; intros i H; [reflexivity|].
  simpl in H. apply andb_true_iff in H. destruct H as [Hk H].
  rewrite search_eq, run_split_nomatch; [apply IH; exact H|].
  cbn [takeWhile]. change (is_not c_comma k) with (negb (is_comma k)).
  rewrite Hk. reflexivity.
Qed.

Lemma takeWhile_field (field D : str) :
  forallb (is_not c_comma) field = true ->
  match D with c :: _ => is_not c_comma c = false | [] => True end ->
  takeWhile (is_not c_comma) (field ++ D) = field
  /\ dropWhile (is_not c_comma) (field ++ D) = D.
Proof.
  intros Hf HD. rewrite takeWhile_app_all, dropWhile_app_all by exact Hf.
  destruct D as [|c D]; simpl; [rewrite app_nil_r; auto|].
  rewrite HD, app_nil_r. auto.
Qed.

Lemma has_quote_app (a b : str) : has_quote (a ++ b) = has_quote a || has_quote b.
Proof. apply existsb_app. Qed.

Lemma has_quote_none (s : str) : forallb (is_not c_dq) s = true -> has_quote s = false.
Proof.
  induction s as [|c s IH]; [reflexivity|]. simpl. intros H.
  apply andb_prop in H. destruct H as [Hc H]. unfold is_not in Hc.
  apply negb_true_iff in Hc. rewrite Hc, (IH H). reflexivity.
Qed.

Lemma split_on_cons (s : str) : exists t ts, split_on c_comma s = t :: ts.
Proof.
  induction s as [|c s (t & ts & E)]; [exists [], []; reflexivity|].
  cbn [split_on]. destruct (c =? c_comma)%N; [eexists _, _; reflexivity|].
  rewrite E. eexists _, _. reflexivity.
Qed.

Lemma has_quote_split (s : str) :
  existsb has_quote (split_on c_comma s) = has_quote s.
Proof.
  induction s as [|c s IH]; [reflexivity|].
  cbn [split_on]. destruct (c =? c_comma)%N eqn:Hc.
  - apply N.eqb_eq in Hc. subst c.
    change (existsb has_quote ([] :: split_on c_comma s))
      with (has_quote [] || existsb has_quote (split_on c_comma s)).
    change (has_quote (c_comma :: s)) with ((c_comma =? c_dq)%N || has_quote s).
    exact IH.
  - destruct (split_on_cons s) as (t & ts & E). rewrite E in *.
    change (existsb has_quote ((c :: t) :: ts))
      with (((c =? c_dq)%N || has_quote t) || existsb has_quote ts).
    change (has_quote (c :: s)) with ((c =? c_dq)%N || has_quote s).
    rewrite <- IH. cbn [existsb]. rewrite orb_assoc. reflexivity.
Qed.

Lemma quotes_clean_none (later : bool) (s : str) :
  forallb (is_not c_dq) s = true -> quotes_clean later s = true.
Proof.
  induction s as [|c s IH]; [reflexivity|]. simpl forallb. intros H.
  apply andb_prop in H. destruct H as [Hc H]. unfold is_not in Hc.
  apply negb_true_iff in Hc. cbn [quotes_clean]. rewrite Hc. exact (IH H).
Qed.

(** The quoted part of the splitting pattern matches only at a double quote
    that text free of double quotes and a double quote follow. *)
Lemma run_quote_inv (i : nat) (s : str) (cs : list (nat * str)) (st : mstate) :
  In st (run (Seq (Chr c_dq) (Seq (Rep true 1 (is_not c_dq)) (Chr c_dq)))
             (MState i s cs)) ->
  exists Y Z, s = c_dq :: Y ++ c_dq :: Z /\ Y <> []
              /\ forallb (is_not c_dq) Y = true.
Proof.
  intros H. inv_seq H m1 H1. apply run_chr_inv in H1. destruct H1 as (p1 & E1 & ->).
  cbn [pos rest caps] in *.
  inv_seq H m2 H2. apply run_rep_inv_state in H2.
  destruct H2 as (Y & p2 & E2 & -> & HY & Hmin). cbn [pos rest caps] in *.
  apply run_chr_inv in H. destruct H as (Z & E3 & _). cbn [rest] in E3.
  exists Y, Z. subst. repeat split; try assumption.
  intros ->. simpl in Hmin. lia.
Qed.

Lemma run_quote_none (i : nat) (s : str) (cs : list (nat * str)) :
  (forall Y Z, s = c_dq :: Y ++ c_dq :: Z -> Y <> [] ->
               forallb (is_not c_dq) Y = true -> False) ->
  run (Seq (Chr c_dq) (Seq (Rep true 1 (is_not c_dq)) (Chr c_dq))) (MState i s cs) = [].
Proof.
  intros H. apply nil_of_no_member. intros st Hin.
  apply run_quote_inv in Hin. destruct Hin as (Y & Z & E & HY & HYq).
  exact (H Y Z E HY HYq).
Qed.

Lemma quote_needs_quote (Y Z : str) : has_quote (Y ++ c_dq :: Z) = true.
Proof. rewrite has_quote_app. cbn [has_quote existsb]. rewrite N.eqb_refl. apply orb_true_r. Qed.

(** From the second character of a clean field on, the quoted alternative
    finds nothing, or finds first what runs to the end of the field. *)
Lemma quoted_alternative_clean (s D : str) (i : nat) (cs : list (nat * str)) :
  forallb (is_not c_comma) s = true ->
  match D with c :: _ => is_not c_comma c = false | [] => True end ->
  quotes_clean (has_quote D) s = true ->
  let G := flat_map (run (Seq (Chr c_dq) (Seq (Rep true 1 (is_not c_dq)) (Chr c_dq))))
                    (map (fun x => MState (fst x) (snd x) cs)
                         (spans (is_not c_comma) i (s ++ D))) in
  G = [] \/ exists l, G = MState (i + length s) D cs :: l.
Proof.
  intros Hs HD. revert i. induction s as [|c r IH]; intros i Hq; cbv zeta.
  - left. cbn [app].
    assert (spans (is_not c_comma) i D = [(i, D)]) as ->.
    { destruct D as [|d D]; [reflexivity|]. cbn [spans]. rewrite HD. reflexivity. }
    cbn [map flat_map fst snd]. rewrite app_nil_r. apply run_quote_none.
    intros Y Z E _ _. rewrite E in HD. discriminate.
  - simpl in Hs. apply andb_prop in Hs. destruct Hs as [Hc Hr].
    cbn [app spans]. rewrite Hc. cbn [map flat_map fst snd].
    assert (Hnext : quotes_clean (has_quote D) r = true ->
                    run (Seq (Chr c_dq) (Seq (Rep true 1 (is_not c_dq)) (Chr c_dq)))
                        (MState i (c :: r ++ D) cs) = [] ->
                    run (Seq (Chr c_dq) (Seq (Rep true 1 (is_not c_dq)) (Chr c_dq)))
                        (MState i (c :: r ++ D) cs)
                    ++ flat_map
                         (run (Seq (Chr c_dq) (Seq (Rep true 1 (is_not c_dq)) (Chr c_dq))))
                         (map (fun x => MState (fst x) (snd x) cs)
                              (spans (is_not c_comma) (S i) (r ++ D))) = []
                    \/ exists l,
                        run (Seq (Chr c_dq) (Seq (Rep true 1 (is_not c_dq)) (Chr c_dq)))
                            (MState i (c :: r ++ D) cs)
                        ++ flat_map
                             (run (Seq (Chr c_dq)
                                       (Seq (Rep true 1 (is_not c_dq)) (Chr c_dq))))
                             (map (fun x => MState (fst x) (snd x) cs)
                                  (spans (is_not c_comma) (S i) (r ++ D)))
                        = MState (i + length (c :: r)) D cs :: l).
    { intros Hq' ->. cbn [app length]. rewrite <- Nat.add_succ_comm.
      exact (IH Hr (S i) Hq'). }
    cbn [quotes_clean] in Hq. destruct (c =? c_dq)%N eqn:Ec.
    + apply N.eqb_eq in Ec. subst c. destruct r as [|d r'].
      * apply negb_true_iff in Hq. apply Hnext; [reflexivity|].
        apply run_quote_none. intros Y Z E _ _. injection E as E.
        cbn [app] in E. rewrite E, quote_needs_quote in Hq. discriminate.
      * destruct (d =? c_dq)%N eqn:Ed.
        -- apply N.eqb_eq in Ed. subst d. apply Hnext; [exact Hq|].
           apply run_quote_none. intros Y Z E HY HYq. injection E as E.
           destruct Y as [|y Y]; [congruence|]. cbn [app] in E. injection E as <- _.
           simpl in HYq. discriminate.
        -- pose proof (takeWhile_dropWhile (is_not c_dq) (d :: r')) as Er.
           pose proof (takeWhile_all (is_not c_dq) (d :: r')) as HY.
           pose proof (dropWhile_head (is_not c_dq) (d :: r')) as Hh.
           destruct (dropWhile (is_not c_dq) (d :: r')) as [|q [|x z]];
             [| |discriminate].
           ++ apply negb_true_iff in Hq. rewrite app_nil_r in Er. rewrite Er in HY.
              apply Hnext; [apply quotes_clean_none; exact HY|].
              apply run_quote_none. intros Y Z E _ _. injection E as E.
              assert (has_quote ((d :: r') ++ D) = true) as Hh'
                by (cbn [app]; rewrite E; apply quote_needs_quote).
              rewrite has_quote_app, (has_quote_none _ HY), Hq in Hh'. discriminate.
           ++ unfold is_not in Hh. apply negb_false_iff in Hh. apply N.eqb_eq in Hh.
              subst q. right.
              assert (takeWhile (is_not c_dq) (d :: r') <> []) as Hne.
              { cbn [takeWhile]. unfold is_not at 1. rewrite Ed. discriminate. }
              destruct (run_quote_body (takeWhile (is_not c_dq) (d :: r')) D i cs Hne HY)
                as [l Hl].
              rewrite <- Er, <- app_assoc. cbn [app]. rewrite Hl.
              replace (i + length (c_dq :: takeWhile (is_not c_dq) (d :: r') ++ [c_dq]))
                with (i + 1 + length (takeWhile (is_not c_dq) (d :: r')) + 1)
                by (cbn [length]; rewrite length_app; cbn [length]; lia).
              cbn [app]. eexists. reflexivity.
    + apply Hnext; [exact Hq|]. apply run_chr_miss. exact Ec.
Qed.

(** The next match of the splitting pattern: the first field that is not
    empty, whole, when that field is clean. *)
Lemma search_field (commas field D : str) (i : nat) :
  forallb is_comma commas = true ->
  field <> [] -> forallb (is_not c_comma) field = true ->
  field_clean (has_quote D) field = true ->
  match D with c :: _ => is_not c_comma c = false | [] => True end ->
  exists cs, search splitByComma_re i (commas ++ field ++ D)
             = Some (i + length commas,
                     MState (i + length commas + length field) D cs).
Proof.
  intros Hcs Hne Hf Hclean HD. revert i.
  induction commas as [|k commas IH]; intros i.
  - cbn [app length]. rewrite !Nat.add_0_r. rewrite search_eq.
    destruct (takeWhile_field field D Hf HD) as [Etw Edw].
    unfold splitByComma_re. rewrite run_alt_eq, !run_grp_eq.
    destruct field as [|c0 f']; [congruence|].
    pose proof Hf as Hf0. simpl in Hf0. apply andb_prop in Hf0.
    destruct Hf0 as [Hc0 Hf'].
    cbn [field_clean] in Hclean.
    rewrite run_seq_eq. cbn [app]. rewrite run_lazy_plus by exact Hc0.
    destruct (quoted_alternative_clean f' D (S i) [] Hf' HD Hclean) as [E|[l E]];
      cbv zeta in E; rewrite E.
    + destruct (run_plus_head (is_not c_comma) i ((c0 :: f') ++ D) []) as [l Hl].
      { rewrite Etw. discriminate. }
      cbn [app] in Hl. rewrite Hl. cbn [app] in Etw, Edw. rewrite Etw, Edw.
      cbn [map app pos rest caps]. eexists. reflexivity.
    + cbn [map app pos rest caps length]. rewrite <- Nat.add_succ_comm.
      eexists. reflexivity.
  - simpl in Hcs. apply andb_true_iff in Hcs. destruct Hcs as [Hk Hcs].
    cbn [app]. rewrite search_eq, run_split_nomatch.
    + destruct (IH Hcs (S i)) as [cs Hs]. exists cs. rewrite Hs. cbn [length].
      rewrite <- !Nat.add_succ_comm. reflexivity.
    + cbn [takeWhile]. change (is_not c_comma k) with (negb (is_comma k)).
      rewrite Hk. reflexivity.
Qed.

Lemma clean_after_commas (commas s : str) :
  forallb is_comma commas = true ->
  fields_clean (split_on c_comma (commas ++ s)) = fields_clean (split_on c_comma s).
Proof.
  induction commas as [|k commas IH]; intros H; [reflexivity|].
  simpl in H. apply andb_true_iff in H. destruct H as [Hk H].
  unfold is_comma in Hk. cbn [app split_on]. rewrite Hk. cbn [fields_clean field_clean].
  rewrite IH by exact H. reflexivity.
Qed.

Lemma clean_of_field (field D : str) :
  forallb (is_not c_comma) field = true ->
  match D with c :: _ => is_not c_comma c = false | [] => True end ->
  fields_clean (split_on c_comma (field ++ D)) = true ->
  field_clean (has_quote D) field = true /\ fields_clean (split_on c_comma D) = true.
Proof.
  intros Hf HD. destruct D as [|c D].
  - rewrite app_nil_r. destruct (split_on_field field [] Hf) as [-> _].
    cbn [fields_clean existsb has_quote split_on field_clean].
    rewrite andb_true_r. auto.
  - unfold is_not in HD. apply negb_false_iff in HD. apply N.eqb_eq in HD. subst c.
    destruct (split_on_field field D Hf) as [_ ->].
    cbn [split_on fields_clean]. rewrite N.eqb_refl. cbn [fields_clean field_clean].
    rewrite has_quote_split. cbn [has_quote existsb].
    change (c_comma =? c_dq)%N with false. cbn [orb].
    rewrite andb_true_iff. auto.
Qed.

Lemma scan_fields (fuel : nat) (s : str) (i : nat) :
  fields_clean (split_on c_comma s) = true -> length s < fuel ->
  map whole (scan fuel splitByComma_re i s) = nonempty_fields s.
Proof.
  revert s i. induction fuel as [|fuel IH]; intros s i Hq Hlen; [lia|].
  cbn [scan].
  pose proof (takeWhile_dropWhile is_comma s) as Es.
  pose proof (takeWhile_all is_comma s) as Hcs.
  pose proof (dropWhile_head is_comma s) as Hd.
  remember (takeWhile is_comma s) as commas eqn:Ec. clear Ec.
  remember (dropWhile is_comma s) as s1 eqn:E1. clear E1. subst s.
  rewrite nonempty_fields_commas by exact Hcs.
  rewrite clean_after_commas in Hq by exact Hcs.
  destruct s1 as [|c s1].
  { rewrite app_nil_r, search_commas by exact Hcs. reflexivity. }
  pose proof (takeWhile_dropWhile (is_not c_comma) (c :: s1)) as Ef.
  pose proof (takeWhile_all (is_not c_comma) (c :: s1)) as Hf.
  pose proof (dropWhile_head (is_not c_comma) (c :: s1)) as Hh.
  assert (exists d f, takeWhile (is_not c_comma) (c :: s1) = d :: f) as (d & f & Hne).
  { exists c, (takeWhile (is_not c_comma) s1). cbn [takeWhile].
    change (is_not c_comma c) with (negb (is_comma c)). rewrite Hd. reflexivity. }
  remember (takeWhile (is_not c_comma) (c :: s1)) as field eqn:Efield. clear Efield.
  remember (dropWhile (is_not c_comma) (c :: s1)) as rst eqn:Erst. clear Erst.
  rewrite <- Ef in *. clear Ef.
  destruct (clean_of_field field rst Hf Hh Hq) as [Hclean Hrest].
  destruct (search_field commas field rst i Hcs) as [cs Hs]; auto.
  { rewrite Hne. discriminate. }
  rewrite Hs. cbn [pos rest]. unfold mk_match at 1. cbn [map whole pos].
  replace (i + length commas + length field =? i + length commas)%nat with false
    by (symmetry; apply Nat.eqb_neq; rewrite Hne; simpl; lia).
  rewrite skipn_prefix, firstn_prefix.
  rewrite IH.
  - rewrite nonempty_fields_field; [reflexivity | exact Hf | rewrite Hne; discriminate | exact Hh].
  - exact Hrest.
  - rewrite !length_app in Hlen. rewrite Hne in Hlen. simpl in Hlen. lia.
Qed.

Lemma map_fst_combine_seq {A : Type} (l : list A) (k : nat) :
  map fst (combine l (seq k (length l))) = l.
Proof.
  revert k. induction l as [|x l IH]; intros k; simpl; [reflexivity|].
  rewrite IH. reflexivity.
Qed.

Lemma argList_fields (raw : str) :
  fields_clean (split_on c_comma raw) = true ->
  argList raw = map trim (nonempty_fields raw).
Proof.
  intros Hq. unfold argList, Fregex_forEach, matchAll.
  rewrite <- (scan_fields (S (length raw)) raw 0 Hq) by lia.
  rewrite <- (map_map fst (fun m => trim (whole m))), map_fst_combine_seq, map_map.
  reflexivity.
Qed.

Lemma params_of_trimmed (tokens : list str) (k : nat) :
  flat_map (fun it => classify (fst it) (snd it))
           (combine (map trim tokens) (seq k (length (map trim tokens))))
  = flat_map (fun it => classify (trim (fst it)) (snd it))
             (combine tokens (seq k (length tokens))).
Proof.
  revert k. induction tokens as [|t tokens IH]; intros k; simpl; [reflexivity|].
  rewrite IH. reflexivity.
Qed.

Lemma trimStart_suffix (s : str) : exists a, s = a ++ trimStart s.
Proof.
  induction s as [|c s IH]; simpl; [exists []; reflexivity|].
  destruct (is_space c); [|exists []; reflexivity].
  destruct IH as [a Ha]. exists (c :: a). simpl. rewrite <- Ha. reflexivity.
Qed.

Lemma trim_inside (s : str) : exists a b, s = a ++ trim s ++ b.
Proof.
  unfold trim, trimEnd. destruct (trimStart_suffix s) as [a Ha].
  destruct (trimStart_suffix (rev (trimStart s))) as [b Hb].
  exists a, (rev b). rewrite <- rev_app_distr, <- Hb, rev_involutive. exact Ha.
Qed.

Lemma run_empty_quoted (i : nat) (r : str) (cs : list (nat * str)) :
  exists st l,
    run (Grp 3
          (Alt (Grp 4 (Seq (Chr c_dq)
                      (Seq (Grp 5 (Rep true 0 (is_not c_dq)))
                           (Chr c_dq))))
               (Seq (Opt (Chr c_dq))
               (Seq (Grp 6 (Rep true 1 is_dot))
                    (Opt (Chr c_dq))))))
        (MState i (c_dq :: c_dq :: r) cs) = st :: l
    /\ exists c3 c4, caps st = (3, c3) :: (4, c4) :: (5, []) :: cs.
Proof.
  rewrite run_grp_eq, run_alt_eq, run_grp_eq, run_seq_chr_hit, run_seq_eq, run_grp_eq.
  cbn [run pos rest caps spans skipn rev map app flat_map fst snd].
  change (is_not c_dq c_dq) with false. cbv iota.
  cbn [rev app map flat_map pos rest caps fst snd]. rewrite N.eqb_refl.
  cbn [app map pos rest caps]. rewrite Nat.sub_diag. cbn [firstn].
  eexists _, _. split; [reflexivity|]. eexists _, _. reflexivity.
Qed.

Lemma run_named_tail (i : nat) (w1 w2 r : str) (cs : list (nat * str)) :
  forallb is_space w1 = true -> forallb is_space w2 = true ->
  exists st l,
    run (Seq (Rep true 0 is_space)
        (Seq (Chr c_eq)
        (Seq (Rep true 0 is_space)
             (Grp 3
               (Alt (Grp 4 (Seq (Chr c_dq)
                           (Seq (Grp 5 (Rep true 0 (is_not c_dq)))
                                (Chr c_dq))))
                    (Seq (Opt (Chr c_dq))
                    (Seq (Grp 6 (Rep true 1 is_dot))
                         (Opt (Chr c_dq)))))))))
        (MState i (w1 ++ c_eq :: w2 ++ c_dq :: c_dq :: r) cs) = st :: l
    /\ exists c3 c4, caps st = (3, c3) :: (4, c4) :: (5, []) :: cs.
Proof.
  intros H1 H2. rewrite run_seq_eq.
  destruct (run_star_head is_space i (w1 ++ c_eq :: w2 ++ c_dq :: c_dq :: r) cs)
    as [l1 Hl1].
  rewrite takeWhile_app_all, dropWhile_app_all in Hl1 by exact H1.
  cbn [takeWhile dropWhile] in Hl1. change (is_space c_eq) with false in Hl1.
  cbv iota in Hl1. rewrite Hl1. clear Hl1.
  cbn [flat_map]. rewrite run_seq_chr_hit, run_seq_eq.
  match goal with
  | |- context [run (Rep true 0 is_space) (MState ?j ?s ?c)] =>
      destruct (run_star_head is_space j s c) as [l2 Hl2]
  end.
  rewrite takeWhile_app_all, dropWhile_app_all in Hl2 by exact H2.
  cbn [takeWhile dropWhile] in Hl2. change (is_space c_dq) with false in Hl2.
  cbv iota in Hl2. rewrite Hl2. clear Hl2.
  cbn [flat_map].
  match goal with
  | |- context [run (Grp 3 ?R) (MState ?j ?s ?c)] =>
      destruct (run_empty_quoted j r c) as (st & l & Hst & Hcaps)
  end.
  rewrite Hst. cbn [app]. eexists _, _. split; [reflexivity | exact Hcaps].
Qed.

Lemma run_bol_start (X : regex) (s : str) (cs : list (nat * str)) :
  run (Seq Bol X) (MState 0 s cs) = run X (MState 0 s cs).
Proof. rewrite run_seq_eq. cbn [run pos Nat.eqb flat_map]. apply app_nil_r. Qed.

(** On a name with an empty quoted value the classification pattern sets
    group 5 to the empty text and neither group 6 nor group 7. *)
Lemma run_named_empty (name w1 w2 r : str) :
  name <> [] -> forallb is_alpha name = true ->
  forallb is_space w1 = true -> forallb is_space w2 = true ->
  exists st l,
    run splitValues_re (MState 0 (name ++ w1 ++ c_eq :: w2 ++ c_dq :: c_dq :: r) [])
    = st :: l
    /\ lookup 7 (caps st) = None /\ lookup 6 (caps st) = None
    /\ lookup 5 (caps st) = Some [].
Proof.
  intros Hne Hal H1 H2. unfold splitValues_re.
  rewrite run_alt_eq, run_bol_start, run_grp_eq, run_seq_eq, run_grp_eq.
  destruct (run_plus_head is_alpha 0 (name ++ w1 ++ c_eq :: w2 ++ c_dq :: c_dq :: r) [])
    as [l0 Hl0].
  { rewrite takeWhile_app_all by exact Hal. destruct name; [congruence | discriminate]. }
  rewrite takeWhile_app_all, dropWhile_app_all in Hl0 by exact Hal.
  rewrite (takeWhile_stop is_alpha _ (spaces_then_eq_head w1 _ H1)) in Hl0.
  rewrite (dropWhile_fixed is_alpha _ (spaces_then_eq_head w1 _ H1)) in Hl0.
  rewrite Hl0. clear Hl0. cbn [map flat_map pos rest caps].
  match goal with
  | |- context [run (Seq (Rep true 0 is_space) ?R) (MState ?j ?s ?c)] =>
      destruct (run_named_tail j w1 w2 r c H1 H2) as (st & l & Hst & c3 & c4 & Hcaps)
  end.
  rewrite Hst. cbn [app map pos rest caps]. eexists _, _. split; [reflexivity|].
  cbn [caps]. rewrite Hcaps. cbn [lookup Nat.eqb]. repeat split.
Qed.

(** A token that is a name with an empty quoted value gives no Param. *)
Lemma classify_none (tok : str) (i : nat) :
  empty_named_value tok = true -> classify tok i = [].
Proof.
  intros H. apply empty_named_value_inv in H.
  destruct H as (name & w1 & w2 & r & -> & Hne & Hal & H1 & H2).
  destruct (run_named_empty name w1 w2 r Hne Hal H1 H2) as (st & l & Hst & H7 & H6 & H5).
  unfold classify, exec. rewrite search_eq, Hst. cbn [mk_match group].
  rewrite H7, H6, H5. reflexivity.
Qed.

(** C7, as the code has it.  Take an argument string in which every
    comma-delimited field is taken whole by the splitting pattern: reading
    a field from its second character on, the first double quote that is
    not right before another one is followed either by text free of double
    quotes and a double quote that ends the field, or by no double quote at
    all in the rest of the argument string.  Its tokens are the fields that
    are not empty, in order, each one trimmed, and its Params are those of
    these tokens at their position among them: exactly one Param, carrying
    that position, for every such field, except that a blank field and a
    field that reads as a name with an empty quoted value give none.  The
    empty string gives no Param. *)
Theorem C7_params_of_nonempty_fields (raw : str) :
  fields_clean (split_on c_comma raw) = true ->
  argList raw = map trim (nonempty_fields raw)
  /\ parseArguments raw = params_of_tokens (nonempty_fields raw)
  /\ (forall tok i, In tok (nonempty_fields raw) ->
        (is_empty (trim tok) || empty_named_value (trim tok) = true ->
         classify (trim tok) i = [])
        /\ (is_empty (trim tok) || empty_named_value (trim tok) = false ->
            exists n v, classify (trim tok) i = [mkParam n v i]))
  /\ parseArguments [] = [].
Proof.
  intros Hq. pose proof (argList_fields raw Hq) as Ha.
  split; [exact Ha|]. split; [|split; [|reflexivity]].
  - unfold parseArguments, params_of_tokens. cbv zeta. rewrite Ha.
    apply params_of_trimmed.
  - intros tok i _. split.
    + intros H. apply orb_true_iff in H. destruct H as [H|H].
      * destruct (trim tok); [reflexivity | discriminate].
      * apply classify_none. exact H.
    + intros H. apply orb_false_iff in H. destruct H as [Hb He].
      assert (trim tok <> []) as Hne by (intros E; rewrite E in Hb; discriminate).
      destruct (trim_last tok Hne) as (u & c & E & Hc).
      rewrite E in *. apply classify_some; [|exact He].
      apply not_space_is_dot. exact Hc.
Qed.

(** ** The alert extractor *)

(** C10.  The message [{!} abc1(SYM){buy(1)}] has the marker and one block
    whose exchange identifier holds a digit.  [commandBlocks] hands that
    block over for execution; the pattern with which [handleAlerts] strips
    blocks finds nothing to strip, and the whole text of the block is sent
    to the notifier. *)
Theorem C10_block_grammars_differ :
  let msg := js "{!} abc1(SYM){buy(1)}" in
  occurs marker msg
  /\ commandBlocks msg = [mkBlock (js "abc1") (js "SYM") (js "buy(1)")]
  /\ strip_blocks msg = msg
  /\ handleAlerts msg = [js "abc1(SYM){buy(1)}"].
Proof.
  split; [exists [], (js " abc1(SYM){buy(1)}"); reflexivity|].
  vm_compute. repeat split; reflexivity.
Qed.

(** C9 as stated fails: in [a(b){!}{!}] the first marker goes with the text
    stripped as a command block, the second one is the marker that is
    removed, nothing is left and the notifier is not called. *)
Lemma C9_counterexample :
  let msg := js "a(b){!}{!}" in
  msg = js "a(b)" ++ marker ++ [] ++ marker ++ []
  /\ strip_blocks msg = marker
  /\ handleAlerts msg = []
  /\ ~ later_markers_forwarded msg.
Proof.
  repeat split; try (vm_compute; reflexivity).
  intros H. destruct H as (t & Ht & _).
  - exists (js "a(b)"), [], []. reflexivity.
  - vm_compute in Ht. discriminate.
Qed.

(** ** White space and what the notifier gets *)

Lemma collapse_spaces_run (a s : str) :
  forallb is_space a = true ->
  collapse_spaces true (a ++ s) = collapse_spaces true s.
Proof.
  induction a as [|c a IH]; simpl; [reflexivity|].
  intros H. apply andb_true_iff in H. destruct H as [-> H]. auto.
Qed.

Lemma collapse_spaces_flag (b : bool) (s : str) :
  match s with c :: _ => is_space c = false | [] => True end ->
  collapse_spaces b s = collapse_spaces false s.
Proof.
  destruct s as [|c s]; simpl; [reflexivity|]. intros ->. reflexivity.
Qed.

Lemma collapse_spaces_word (b : bool) (a s : str) :
  forallb (fun c => negb (is_space c)) a = true ->
  collapse_spaces b (a ++ s)
  = a ++ collapse_spaces (match a with [] => b | _ => false end) s.
Proof.
  revert b. induction a as [|c a IH]; intros b; simpl; [reflexivity|].
  intros H. apply andb_true_iff in H. destruct H as [Hc H].
  apply negb_true_iff in Hc. rewrite Hc, IH by assumption.
  destruct a; reflexivity.
Qed.

Lemma search_spaces (s : str) (i : nat) :
  let word := takeWhile (fun c => negb (is_space c)) s in
  let tl := dropWhile (fun c => negb (is_space c)) s in
  search spaces_re i s
  = match tl with
    | [] => None
    | _ :: _ => Some (i + length word,
                      MState (i + length word + length (takeWhile is_space tl))
                             (dropWhile is_space tl) [])
    end.
Proof.
  revert i. induction s as [|c s IH]; intros i.
  - reflexivity.
  - cbn [search takeWhile dropWhile]. unfold spaces_re at 1.
    destruct (is_space c) eqn:Hc; cbn [negb].
    + destruct (run_plus_head is_space i (c :: s) [])
        as [l Hl]; [simpl; rewrite Hc; discriminate|].
      rewrite Hl. rewrite Nat.add_0_r. cbn [dropWhile takeWhile].
      rewrite Hc. reflexivity.
    + rewrite run_plus_none by (simpl; rewrite Hc; reflexivity).
      fold spaces_re. rewrite IH. cbv zeta.
      destruct (dropWhile (fun c0 => negb (is_space c0)) s); [reflexivity|].
      cbn [length]. rewrite <- !Nat.add_succ_comm. reflexivity.
Qed.

Lemma replace_spaces (fuel : nat) (s : str) (i : nat) :
  length s < fuel ->
  replace_scan fuel spaces_re [c_space] i s = collapse_spaces false s.
Proof.
  revert s i. induction fuel as [|fuel IH]; intros s i Hlen; [lia|].
  cbn [replace_scan]. rewrite search_spaces. cbv zeta.
  pose proof (takeWhile_dropWhile (fun c => negb (is_space c)) s) as Hs.
  pose proof (takeWhile_all (fun c => negb (is_space c)) s) as Hw.
  pose proof (dropWhile_head (fun c => negb (is_space c)) s) as Hh.
  remember (takeWhile (fun c => negb (is_space c)) s) as word eqn:Eword.
  remember (dropWhile (fun c => negb (is_space c)) s) as tl0 eqn:Etl.
  clear Eword Etl. subst s. destruct tl0 as [|d tl].
  - rewrite collapse_spaces_word by assumption. reflexivity.
  - apply negb_false_iff in Hh.
    pose proof (takeWhile_dropWhile is_space (d :: tl)) as Hr.
    pose proof (takeWhile_all is_space (d :: tl)) as Hra.
    pose proof (dropWhile_head is_space (d :: tl)) as Hrh.
    assert (exists e spc', takeWhile is_space (d :: tl) = e :: spc') as (e & spc' & Hne).
    { simpl. rewrite Hh. eauto. }
    remember (dropWhile is_space (d :: tl)) as rst eqn:Erst. clear Erst.
    rewrite Hne in *. rewrite <- Hr in *. clear Hr.
    cbn [pos rest].
    replace (i + length word + length (e :: spc') =? i + length word)%nat with false
      by (symmetry; apply Nat.eqb_neq; simpl; lia).
    replace (i + length word - i) with (length word) by lia.
    rewrite firstn_app, Nat.sub_diag, firstn_all. cbn [firstn]. rewrite app_nil_r.
    rewrite !length_app in Hlen. rewrite IH by (simpl in *; lia).
    rewrite collapse_spaces_word by assumption. f_equal.
    replace (match word with [] => false | _ => false end) with false
      by (destruct word; reflexivity).
    simpl in Hra. apply andb_true_iff in Hra. destruct Hra as [He Hra].
    simpl. rewrite He. rewrite collapse_spaces_run by assumption.
    f_equal. symmetry. apply collapse_spaces_flag. exact Hrh.
Qed.

Lemma replaceAll_spaces (s : str) :
  replaceAll spaces_re [c_space] s = collapse_spaces false s.
Proof. unfold replaceAll. apply replace_spaces. lia. Qed.

Lemma collapse_spaces_around (b : bool) (x w y : str) :
  forallb (fun c => negb (is_space c)) w = true -> w <> [] ->
  collapse_spaces b (x ++ w ++ y)
  = collapse_spaces b x ++ w ++ collapse_spaces false y.
Proof.
  intros Hw Hne. revert b. induction x as [|c x IH]; intros b.
  - simpl. rewrite collapse_spaces_word by assumption.
    destruct w; [congruence | reflexivity].
  - simpl. destruct (is_space c); [destruct b|]; simpl; rewrite IH; reflexivity.
Qed.

Lemma trimStart_app (x z : str) :
  match z with c :: _ => is_space c = false | [] => False end ->
  trimStart (x ++ z) = trimStart x ++ z.
Proof.
  intros Hz. induction x as [|c x IH]; simpl.
  - destruct z as [|d z]; [destruct Hz|]. simpl. rewrite Hz. reflexivity.
  - destruct (is_space c); [exact IH | reflexivity].
Qed.

Lemma trim_around (x w y : str) :
  forallb (fun c => negb (is_space c)) w = true -> w <> [] ->
  trim (x ++ w ++ y) = trimStart x ++ w ++ trimEnd y.
Proof.
  intros Hw Hne. unfold trim.
  rewrite trimStart_app.
  2:{ destruct w as [|c w]; [congruence|]. simpl in *.
      apply andb_true_iff in Hw. destruct Hw as [Hc _].
      apply negb_true_iff in Hc. exact Hc. }
  unfold trimEnd. rewrite !rev_app_distr, <- app_assoc.
  rewrite trimStart_app.
  2:{ destruct (rev w) as [|c rw] eqn:Hrw.
      - apply (f_equal (@rev char)) in Hrw. rewrite rev_involutive in Hrw.
        simpl in Hrw. congruence.
      - simpl. assert (In c w) as Hin.
        { apply in_rev. rewrite Hrw. left. reflexivity. }
        rewrite forallb_forall in Hw. apply negb_true_iff. apply Hw. exact Hin. }
  rewrite !rev_app_distr, !rev_involutive, <- app_assoc. reflexivity.
Qed.

Lemma marker_no_space : forallb (fun c => negb (is_space c)) marker = true.
Proof. reflexivity. Qed.

Lemma remove_first_occurrence (pre post : str) :
  contains marker (pre ++ [c_lbrace; c_bang]) = false ->
  remove_first marker (pre ++ marker ++ post) = pre ++ post.
Proof.
  induction pre as [|c pre IH]; intros H.
  - reflexivity.
  - cbn [app contains] in H. apply orb_false_iff in H. destruct H as [Hsw Hc].
    rewrite remove_first_eq.
    assert (starts_with marker ((c :: pre) ++ marker ++ post) = false) as ->.
    { destruct pre as [|b [|d pre]]; simpl in *.
      - destruct (c =? c_lbrace)%N; reflexivity.
      - destruct (c =? c_lbrace)%N; [|reflexivity].
        destruct (b =? c_bang)%N; reflexivity.
      - exact Hsw. }
    cbn [app]. rewrite IH by assumption. reflexivity.
Qed.

Lemma toSend_plain (msg : str) :
  toSend msg = trim (collapse_spaces false (remove_first marker (strip_blocks msg))).
Proof.
  unfold toSend, strip_blocks. rewrite replaceAll_spaces, replace_notify. reflexivity.
Qed.

Lemma handleAlerts_triggered (msg : str) :
  occurs marker msg ->
  handleAlerts msg
  = let t := trim (collapse_spaces false (remove_first marker (strip_blocks msg))) in
    if is_empty t then [] else [t].
Proof.
  intros Ho. apply exec_notify_occurs in Ho. destruct Ho as [m Hm].
  unfold handleAlerts. rewrite Hm, toSend_plain. cbv zeta.
  destruct (trim (collapse_spaces false (remove_first marker (strip_blocks msg))));
    reflexivity.
Qed.

Lemma handleAlerts_silent (msg : str) :
  ~ occurs marker msg -> handleAlerts msg = [].
Proof.
  intros Hn. unfold handleAlerts.
  destruct (exec notify_re msg) as [m|] eqn:Hm; [|reflexivity].
  exfalso. apply Hn. apply exec_notify_occurs. eauto.
Qed.

(** ** Stripping the blocks of a message made of texts and blocks *)























(** C9, as the code has it.  Let the marker occur in the message and let
    the text left once the command blocks are stripped be [pre], a first
    marker, and [post].  That first marker is the only one removed: for
    every marker in [post], say [post] is [b], that marker and [c], the
    notifier is called with the text made of [pre ++ b] (runs of white space
    collapsed, trimmed on the left), the marker, and [c] (collapsed, trimmed
    on the right). *)
Theorem C9_later_markers_remain (msg pre b c : str) :
  occurs marker msg ->
  strip_blocks msg = pre ++ marker ++ b ++ marker ++ c ->
  ~ occurs marker (pre ++ [c_lbrace; c_bang]) ->
  remove_first marker (strip_blocks msg) = pre ++ b ++ marker ++ c
  /\ handleAlerts msg
     = [trimStart (collapse_spaces false (pre ++ b)) ++ marker
        ++ trimEnd (collapse_spaces false c)].
Proof.
  intros Ho Hs Hfirst.
  assert (remove_first marker (strip_blocks msg) = pre ++ b ++ marker ++ c) as Hrm.
  { rewrite Hs. apply remove_first_occurrence.
    destruct (contains marker (pre ++ [c_lbrace; c_bang])) eqn:Hc; [|reflexivity].
    exfalso. apply Hfirst. apply contains_occurs. exact Hc. }
  split; [exact Hrm|].
  rewrite (handleAlerts_triggered msg Ho). cbv zeta.
  rewrite Hrm, app_assoc.
  rewrite collapse_spaces_around by (try apply marker_no_space; discriminate).
  rewrite trim_around by (try apply marker_no_space; discriminate).
  destruct (trimStart (collapse_spaces false (pre ++ b))); reflexivity.
Qed.

(** ** The theorems at work on sample inputs *)

(** The invariant of C1 while the first of five calls awaits [init]. *)
Lemma C1_pool_invariant_witness :
  In (InitWindow, pool_during_init) (run_calls (new_Manager binance_catalog) sample_calls)
  /\ one_entry_per_identity pool_during_init
  /\ count_tracks_membership pool_during_init.
Proof.
  assert (In (InitWindow, pool_during_init)
             (run_calls (new_Manager binance_catalog) sample_calls)) as Hin.
  { right. left. reflexivity. }
  split; [exact Hin|].
  destruct (C1_pool_invariant binance_catalog sample_calls InitWindow pool_during_init Hin)
    as [H1 H2].
  split; [exact H1|]. apply H2.
  - repeat constructor.
  - discriminate.
Defined.


(** C3 when nobody else holds the handle: the count is 1 and [terminate()]
    is awaited. *)
Lemma C3_init_failure_closes_by_count_witness :
  In 0 (opened pool_during_init)
  /\ nth_error (heap pool_during_init) 0
     = Some (new_Exchange (js "binance") binance_credentials)
  /\ snd (openExchange_resume pool_during_init 0 (Some (js "init failed")))
     = OpenAwaitClose 0.
Proof.
  assert (In 0 (opened pool_during_init)) as Hin by (left; reflexivity).
  split; [exact Hin|]. split; [reflexivity|].
  destruct (C3_init_failure_closes_by_count pool_during_init 0
              (new_Exchange (js "binance") binance_credentials) (js "init failed")
              Hin eq_refl) as (_ & _ & H & _).
  apply H. simpl. lia.
Defined.

(** C4 on three actions of which the second one is rejected. *)
Lemma C4_sequence_tolerates_failures_witness :
  let r := executeCommandSequence rejects_b 0 (js "BTCUSD") (js "a(1);b(2);c(3)")
                                  (js "session") in
  js "BTCUSD" <> [] /\ js "a(1);b(2);c(3)" <> []
  /\ snd r = None
  /\ executed (fst r)
     = [mkAction (js "a") [mkParam [] (js "1") 0];
        mkAction (js "b") [mkParam [] (js "2") 0];
        mkAction (js "c") [mkParam [] (js "3") 0]]
  /\ reports (fst r) = [js "b FAILED: boom"].
Proof.
  intros r.
  assert (js "BTCUSD" <> []) as Hs by discriminate.
  assert (js "a(1);b(2);c(3)" <> []) as Hc by discriminate.
  destruct (C4_sequence_tolerates_failures rejects_b 0 (js "BTCUSD")
              (js "a(1);b(2);c(3)") (js "session") Hs Hc)
    as (H1 & _ & _ & _ & _ & H6).
  destruct (H6 (mkAction (js "a") [mkParam [] (js "1") 0])
               (mkAction (js "b") [mkParam [] (js "2") 0])
               (mkAction (js "c") [mkParam [] (js "3") 0])
               (js "boom") eq_refl eq_refl) as [H7 H8].
  repeat split; assumption.
Defined.

(** C7 on the argument string [amount=1,QBTCQ] (Q the double quote): a named
    value and a quoted positional value. *)
Lemma C7_params_of_nonempty_fields_witness :
  fields_clean (split_on c_comma quoted_arguments) = true
  /\ nonempty_fields quoted_arguments = [js "amount=1"; dq ++ js "BTC" ++ dq]
  /\ parseArguments quoted_arguments
     = params_of_tokens (nonempty_fields quoted_arguments)
  /\ parseArguments quoted_arguments
     = [mkParam (js "amount") (js "1") 0; mkParam [] (js "BTC") 1].
Proof.
  assert (fields_clean (split_on c_comma quoted_arguments) = true) as H
    by reflexivity.
  split; [exact H|]. split; [reflexivity|].
  destruct (C7_params_of_nonempty_fields quoted_arguments H) as (_ & H2 & _).
  split; [exact H2 | reflexivity].
Defined.


(** C9 on a message with two markers and no command block. *)
Lemma C9_later_markers_remain_witness :
  occurs marker (js "x {!} y {!} z")
  /\ strip_blocks (js "x {!} y {!} z") = js "x " ++ marker ++ js " y " ++ marker ++ js " z"
  /\ handleAlerts (js "x {!} y {!} z") = [js "x y {!} z"].
Proof.
  assert (occurs marker (js "x {!} y {!} z")) as Ho.
  { exists (js "x "), (js " y {!} z"). reflexivity. }
  assert (strip_blocks (js "x {!} y {!} z")
          = js "x " ++ marker ++ js " y " ++ marker ++ js " z") as Hs by reflexivity.
  assert (~ occurs marker (js "x " ++ [c_lbrace; c_bang])) as Hfirst.
  { intros H. apply contains_occurs in H. discriminate. }
  split; [exact Ho|]. split; [exact Hs|].
  destruct (C9_later_markers_remain (js "x {!} y {!} z") (js "x ") (js " y ") (js " z")
              Ho Hs Hfirst) as [_ H].
  rewrite H. reflexivity.
Defined.

(** * More of the code *)

(** ** The pool: round trips and frames *)

Lemma findOpened_update (m : Manager) (a : nat) (f : Exchange -> Exchange)
  (name : str) (credentials : Credentials) :
  keeps_identity f ->
  findOpened (set_heap m (update a f (heap m))) name credentials
  = findOpened m name credentials.
Proof.
  intros Hf. unfold findOpened. simpl.
  induction (opened m) as [|b l IH]; [reflexivity|]. simpl.
  rewrite (handle_matches_update m a f name credentials b Hf), IH. reflexivity.
Qed.

Lemma update_update (a : nat) (f g : Exchange -> Exchange) (h : list Exchange) :
  update a f (update a g h) = update a (fun x => f (g x)) h.
Proof.
  revert a. induction h as [|x t IH]; intros [|a]; simpl; try reflexivity.
  rewrite IH. reflexivity.
Qed.

Lemma update_same (a : nat) (f : Exchange -> Exchange) (h : list Exchange) (x : Exchange) :
  nth_error h a = Some x -> f x = x -> update a f h = h.
Proof.
  revert a. induction h as [|y t IH]; intros [|a] Hx Hf; simpl in *; try discriminate.
  - injection Hx as ->. rewrite Hf. reflexivity.
  - rewrite (IH a Hx Hf). reflexivity.
Qed.

(** X1.  Opening an identity that is already open and closing the handle
    that was returned puts the manager back exactly as it was: same
    open-set, same counts, same log, and [terminate()] is not called. *)
Theorem open_found_then_close_restores (m : Manager) (name : str)
  (credentials : Credentials) (symbol : str) (a : nat) :
  count_tracks_membership m ->
  findOpened m name credentials = Some a ->
  let s := openExchange m name credentials symbol in
  snd s = OpenReturn (Some a)
  /\ closeExchange (fst s) (Some a) = (m, CloseReturn).
Proof.
  intros Hc Hf s.
  destruct (findOpened_Some m name credentials a Hf) as (Hin & x & Hx & Hn & Hcr).
  assert (0 < refCount x)%Z as Hpos by (apply (Hc a x Hx); exact Hin).
  assert (s = (set_heap m (update a addReference (heap m)), OpenReturn (Some a))) as Es.
  { unfold s, openExchange. rewrite Hf. reflexivity. }
  rewrite Es. split; [reflexivity|]. cbn [fst].
  unfold closeExchange. cbn [heap set_heap].
  rewrite nth_error_update, Nat.eqb_refl, Hx. cbn [option_map].
  change (ex_name (addReference x)) with (ex_name x).
  change (ex_credentials (addReference x)) with (ex_credentials x).
  rewrite (findOpened_update m a addReference _ _ keeps_identity_addReference).
  rewrite Hn, Hcr, Hf. cbn [refCount addReference].
  replace (refCount x + 1 - 1 <=? 0)%Z with false by (symmetry; apply Z.leb_gt; lia).
  f_equal. unfold set_heap. cbn [heap opened exchanges log].
  rewrite update_update, (update_same a _ (heap m) x Hx).
  - destruct m. reflexivity.
  - destruct x as [n c r t]. unfold removeReference, addReference. simpl.
    f_equal. lia.
Qed.

Lemma filter_keep_all (p : nat -> bool) (l : list nat) :
  (forall a, In a l -> p a = true) -> filter p l = l.
Proof.
  induction l as [|x l IH]; intros H; simpl; [reflexivity|].
  rewrite (H x) by (left; reflexivity). rewrite IH; [reflexivity|].
  intros a Ha. apply H. right. exact Ha.
Qed.

(** X2.  Opening an identity that is not open and closing the new handle
    (its [init] and its [terminate()] both completing) leaves the open-set
    and the catalogue as they were and touches none of the handles that
    existed before; the new handle ends with count 0, terminated once. *)
Theorem open_new_then_close_restores (m : Manager) (name : str)
  (credentials : Credentials) (symbol : str) (match_ : CatalogEntry) :
  (forall a, In a (opened m) -> a < length (heap m)) ->
  findOpened m name credentials = None ->
  find (fun el => str_eqb (cat_name el) (exchangeName_of name credentials))
       (exchanges m) = Some match_ ->
  let h := length (heap m) in
  let s := openExchange m name credentials symbol in
  let m2 := closeExchange_done (fst (openExchange_resume (fst s) h None)) (Some h) in
  snd s = OpenAwaitInit h symbol
  /\ opened m2 = opened m
  /\ exchanges m2 = exchanges m
  /\ heap m2 = heap m ++ [mkExchange name credentials 0 1].
Proof.
  intros Hvalid Hnone Hcat h s m2.
  assert (s = (mkManager (opened m ++ [h]) (heap m ++ [new_Exchange name credentials])
                         (exchanges m)
                         (log m ++ [LogProgress (js "Starting " ++ cat_description match_)]),
               OpenAwaitInit h symbol)) as Es.
  { unfold s, openExchange. rewrite Hnone, Hcat. reflexivity. }
  assert (m2 = mkManager (opened m) (heap m ++ [mkExchange name credentials 0 1])
                         (exchanges m)
                         (log m ++ [LogProgress (js "Starting " ++ cat_description match_)]))
    as E2.
  { unfold m2, closeExchange_done, run_close, closeExchange. rewrite Es.
    cbn [fst openExchange_resume heap]. unfold h. rewrite nth_error_last.
    cbn [ex_name ex_credentials refCount new_Exchange].
    erewrite findOpened_created; [| exact Hnone | reflexivity | reflexivity].
    change (1 - 1 <=? 0)%Z with true. cbv iota.
    cbn [snd fst closeExchange_resume set_heap set_opened heap opened exchanges log].
    rewrite !update_last. unfold set_opened, set_heap.
    cbn [heap opened exchanges log]. rewrite filter_app, filter_keep_all.
    - cbn [filter]. rewrite Nat.eqb_refl. cbn [negb]. rewrite app_nil_r. reflexivity.
    - intros a Ha. apply negb_true_iff, Nat.eqb_neq. specialize (Hvalid a Ha). lia. }
  rewrite Es, E2. repeat split.
Qed.



(** ** The pool: no terminated handle is handed out *)

Lemma entries_live_add_log (m : Manager) (e : LogEntry) :
  entries_live m -> entries_live (add_log m e).
Proof. intros H. exact H. Qed.

Lemma entries_live_openExchange (m : Manager) (name : str) (credentials : Credentials)
  (symbol : str) :
  entries_live m -> entries_live (fst (openExchange m name credentials symbol)).
Proof.
  intros Hl. unfold openExchange.
  destruct (findOpened m name credentials) as [a|]; cbn [fst].
  - intros b x Hb. cbn [heap set_heap opened]. rewrite nth_error_update.
    destruct (a =? b)%nat.
    + destruct (nth_error (heap m) b) as [y|] eqn:Hy; [|discriminate].
      intros [= <-]. apply (Hl b y Hb Hy).
    + apply Hl. exact Hb.
  - destruct (find _ (exchanges m)); cbn [fst]; [|exact Hl].
    intros b x Hb Hx. cbn [heap opened] in *.
    destruct (Nat.lt_ge_cases b (length (heap m))) as [Hlt|Hge].
    + rewrite nth_error_app1 in Hx by exact Hlt. apply in_app_or in Hb.
      destruct Hb as [Hb|[<-|[]]]; [apply (Hl b x Hb Hx) | lia].
    + rewrite nth_error_app2 in Hx by exact Hge.
      destruct (b - length (heap m)) as [|k]; simpl in Hx.
      * injection Hx as <-. reflexivity.
      * destruct k; discriminate.
Qed.

Lemma entries_live_closeExchange_done (m : Manager) (exchange : option nat) :
  entries_live m -> entries_live (closeExchange_done m exchange).
Proof.
  intros Hl. unfold closeExchange_done, run_close, closeExchange.
  destruct exchange as [e|]; [|exact Hl].
  destruct (nth_error (heap m) e) as [x|] eqn:Hx; [|exact Hl].
  destruct (findOpened m (ex_name x) (ex_credentials x)); [|exact Hl].
  destruct (refCount x - 1 <=? 0)%Z; cbn [snd fst closeExchange_resume].
  - intros b y Hb. cbn [opened set_opened set_heap heap] in *.
    apply filter_In in Hb. destruct Hb as [Hb Hne].
    apply negb_true_iff, Nat.eqb_neq in Hne.
    rewrite !nth_error_update.
    replace (e =? b)%nat with false by (symmetry; apply Nat.eqb_neq; congruence).
    apply Hl. exact Hb.
  - intros b y Hb. cbn [opened set_heap heap] in *. rewrite nth_error_update.
    destruct (e =? b)%nat.
    + destruct (nth_error (heap m) b) as [z|] eqn:Hz; [|discriminate].
      intros [= <-]. apply (Hl b z Hb Hz).
    + apply Hl. exact Hb.
Qed.

Lemma run_call_live (m : Manager) (c : Call) :
  entries_live m -> terminate_fulfils c ->
  entries_live (snd (run_call m c))
  /\ forall ph m', In (ph, m') (fst (run_call m c)) -> ph <> TerminateWindow ->
                   entries_live m'.
Proof.
  intros Hl Htm.
  destruct c as [name credentials symbol init tm | exchange tm]; simpl in Htm; subst tm.
  - cbn [run_call]. unfold run_open.
    pose proof (entries_live_openExchange m name credentials symbol Hl) as H1.
    destruct (openExchange m name credentials symbol) as [m1 step]. cbn [fst] in H1.
    destruct step as [r|err|h sym|h]; cbn [snd fst];
      try (split; [exact H1 | intros ? ? []]).
    destruct init as [err|].
    + pose proof (entries_live_closeExchange_done (add_log m1 (LogError err)) (Some h)
                    (entries_live_add_log m1 _ H1)) as H2.
      unfold closeExchange_done, run_close in H2. unfold openExchange_resume.
      destruct (closeExchange (add_log m1 (LogError err)) (Some h)) as [m2 [|e]];
        cbn [snd fst] in *.
      * split; [exact H2 | intros ? ? [[= <- <-]|[]] _; exact H1].
      * split; [exact H2|].
        intros ph m' [[= <- <-]|[[= <- <-]|[]]] Hph; [exact H1 | congruence].
    + cbn [openExchange_resume snd fst].
      split; [exact H1 | intros ? ? [[= <- <-]|[]] _; exact H1].
  - cbn [run_call].
    pose proof (entries_live_closeExchange_done m exchange Hl) as H1.
    unfold closeExchange_done in H1. split; [exact H1|].
    unfold run_close. destruct (closeExchange m exchange) as [m1 [|e]]; cbn [fst].
    + intros ? ? [].
    + intros ph m' [[= <- <-]|[]] Hph. congruence.
Qed.

Lemma run_calls_live (calls : list Call) (m : Manager) :
  entries_live m -> Forall terminate_fulfils calls ->
  forall ph m', In (ph, m') (run_calls m calls) -> ph <> TerminateWindow ->
                entries_live m'.
Proof.
  revert m. induction calls as [|c cs IH]; intros m Hl Hall ph m'; simpl.
  - intros [[= <- <-]|[]] _. exact Hl.
  - inversion Hall as [|? ? Hc Hcs]; subst.
    destruct (run_call_live m c Hl Hc) as [Hend Hmid].
    intros [[= <- <-]|Hin] Hph; [exact Hl|]. apply in_app_or in Hin.
    destruct Hin as [Hin|Hin];
      [apply (Hmid _ _ Hin Hph) | apply (IH _ Hend Hcs _ _ Hin Hph)].
Qed.

(** X5.  Let calls run one after the other from the empty pool, no
    [terminate()] rejecting.  Between two calls and while an [openExchange]
    awaits [init], no handle of the open-set has been terminated; so a
    handle that [openExchange] finds and returns has never been
    terminated. *)
Theorem openExchange_returns_live_handle (catalog : list CatalogEntry)
  (calls : list Call) (ph : Phase) (m : Manager) :
  In (ph, m) (run_calls (new_Manager catalog) calls) ->
  Forall terminate_fulfils calls -> ph <> TerminateWindow ->
  entries_live m
  /\ forall name credentials symbol h,
       snd (openExchange m name credentials symbol) = OpenReturn (Some h) ->
       exists x, nth_error (heap (fst (openExchange m name credentials symbol))) h = Some x
                 /\ terminated x = 0.
Proof.
  intros Hin Hall Hph.
  assert (entries_live m) as Hl.
  { apply (run_calls_live calls (new_Manager catalog)) with (ph := ph); auto.
    intros a x []. }
  split; [exact Hl|]. intros name credentials symbol h.
  unfold openExchange.
  destruct (findOpened m name credentials) as [a|] eqn:Hf.
  - cbn [snd fst]. intros [= <-].
    destruct (findOpened_Some m _ _ a Hf) as (Ha & x & Hx & _).
    exists (addReference x). cbn [heap set_heap].
    rewrite nth_error_update, Nat.eqb_refl, Hx. split; [reflexivity|].
    apply (Hl a x Ha Hx).
  - destruct (find _ (exchanges m)); cbn [snd]; discriminate.
Qed.

(** ** The dispatcher: what becomes of the blocks *)

Lemma openExchange_errors (m : Manager) (name : str) (credentials : Credentials)
  (symbol : str) :
  error_texts (log (fst (openExchange m name credentials symbol)))
  = error_texts (log m).
Proof.
  unfold openExchange. destruct (findOpened m name credentials); [reflexivity|].
  destruct (find _ (exchanges m)); [|reflexivity].
  cbn [fst log]. unfold error_texts. rewrite flat_map_app. simpl. apply app_nil_r.
Qed.

Lemma block_callback_credentials (credentials : list Credentials) (m : Manager)
  (suspended : list Suspended) (b : Block) (c : Credentials) :
  find (fun item => str_eqb (cr_name item) (b_exchangeName b)) credentials = Some c ->
  block_callback credentials (m, suspended) b
  = (fst (openExchange m (b_exchangeName b) c (b_symbol b)),
     suspended ++ [mkSuspended b (snd (openExchange m (b_exchangeName b) c (b_symbol b)))]).
Proof.
  intros H. unfold block_callback. rewrite H.
  destruct (openExchange m (b_exchangeName b) c (b_symbol b)). reflexivity.
Qed.

Lemma fold_block_callback (credentials : list Credentials) (blocks : list Block)
  (m : Manager) (su : list Suspended) :
  let r := fold_left (block_callback credentials) blocks (m, su) in
  map su_block (snd r)
  = map su_block su ++ filter (has_credentials credentials) blocks
  /\ error_texts (log (fst r))
     = error_texts (log m)
       ++ map no_credentials_text
              (filter (fun b => negb (has_credentials credentials b)) blocks).
Proof.
  revert m su. induction blocks as [|b blocks IH]; intros m su.
  - simpl. rewrite !app_nil_r. auto.
  - cbv zeta. cbn [fold_left filter].
    destruct (find (fun item => str_eqb (cr_name item) (b_exchangeName b)) credentials)
      as [c|] eqn:E.
    + assert (Hh : has_credentials credentials b = true)
        by (unfold has_credentials; rewrite E; reflexivity).
      rewrite Hh. rewrite (block_callback_credentials _ m su b c E). cbn [negb].
      destruct (IH (fst (openExchange m (b_exchangeName b) c (b_symbol b)))
                   (su ++ [mkSuspended b
                             (snd (openExchange m (b_exchangeName b) c (b_symbol b)))]))
        as [H1 H2].
      split; [rewrite H1, map_app, <- app_assoc; reflexivity|].
      rewrite H2, openExchange_errors. reflexivity.
    + assert (Hh : has_credentials credentials b = false)
        by (unfold has_credentials; rewrite E; reflexivity).
      rewrite Hh. rewrite (block_callback_no_credentials _ m su b E). cbn [negb map].
      destruct (IH (add_log m (LogError (js "No credentials for '" ++ b_exchangeName b
                                            ++ js "'. Skipping"))) su) as [H1 H2].
      split; [exact H1|]. rewrite H2. cbn [log add_log]. unfold error_texts at 1.
      rewrite flat_map_app. cbn [flat_map]. rewrite <- !app_assoc. reflexivity.
Qed.

(** X6.  Every block of a message is either handed to [openExchange] or
    reported as lacking credentials, never both and never neither, in the
    order of the message: the suspended callbacks are the blocks whose
    exchange name has credentials, and the new error reports are those of
    the other blocks. *)
Theorem executeMessage_splits_blocks (m : Manager) (msg : str)
  (credentials : list Credentials) :
  let r := executeMessage m msg credentials in
  map su_block (mr_suspended r)
  = filter (has_credentials credentials) (commandBlocks msg)
  /\ error_texts (log (mr_manager r))
     = error_texts (log m)
       ++ map no_credentials_text
              (filter (fun b => negb (has_credentials credentials b))
                      (commandBlocks msg)).
Proof.
  unfold executeMessage.
  pose proof (fold_block_callback credentials (commandBlocks msg) m []) as H.
  destruct (fold_left (block_callback credentials) (commandBlocks msg) (m, []))
    as [m' su]. exact H.
Qed.

Lemma entries_live_of_fold (credentials : list Credentials) (blocks : list Block)
  (m : Manager) (su : list Suspended) :
  entries_ok m -> count_tracks_membership m ->
  let r := fold_left (block_callback credentials) blocks (m, su) in
  entries_ok (fst r) /\ count_tracks_membership (fst r)
  /\ (entries_live m -> entries_live (fst r)).
Proof.
  revert m su. induction blocks as [|b blocks IH]; intros m su Hok Hc.
  - simpl. auto.
  - cbn [fold_left].
    destruct (find (fun item => str_eqb (cr_name item) (b_exchangeName b)) credentials)
      as [c|] eqn:E.
    + rewrite (block_callback_credentials _ m su b c E).
      pose proof (entries_ok_openExchange m (b_exchangeName b) c (b_symbol b) Hok) as H1.
      pose proof (counts_openExchange m (b_exchangeName b) c (b_symbol b) Hok Hc) as H2.
      pose proof (entries_live_openExchange m (b_exchangeName b) c (b_symbol b)) as H3.
      destruct (IH _ (su ++ [mkSuspended b
                             (snd (openExchange m (b_exchangeName b) c (b_symbol b)))])
                   H1 H2) as (I1 & I2 & I3).
      auto.
    + rewrite (block_callback_no_credentials _ m su b E).
      destruct (IH (add_log m (LogError (js "No credentials for '" ++ b_exchangeName b
                                            ++ js "'. Skipping"))) su) as (I1 & I2 & I3).
      * apply entries_ok_add_log; assumption.
      * apply counts_add_log; assumption.
      * split; [exact I1|]. split; [exact I2|]. intros Hl. apply I3.
        apply entries_live_add_log. exact Hl.
Qed.

(** X7.  The synchronous part of [executeMessage] keeps the pool sound:
    if, before the message, the open-set holds live addresses, no address
    and no identity twice, counts are positive exactly for the handles in it
    and none of them has been terminated, the same holds when
    [executeMessage] returns, whatever the message and however many of its
    blocks opened the same exchange. *)
Theorem executeMessage_keeps_pool_sound (m : Manager) (msg : str)
  (credentials : list Credentials) :
  entries_ok m -> count_tracks_membership m -> entries_live m ->
  let m' := mr_manager (executeMessage m msg credentials) in
  entries_ok m' /\ count_tracks_membership m' /\ entries_live m'.
Proof.
  intros Hok Hc Hl. unfold executeMessage.
  pose proof (entries_live_of_fold credentials (commandBlocks msg) m [] Hok Hc) as H.
  destruct (fold_left (block_callback credentials) (commandBlocks msg) (m, []))
    as [m' su]. cbn [fst mr_manager] in *. destruct H as (H1 & H2 & H3).
  auto.
Qed.

(** ** The dispatcher: blocks of one message share their handle *)

Lemma find_app_hit (A : Type) (p q : A -> bool) (l t : list A) (a : A) :
  (forall x, In x l -> q x = p x) ->
  find p l = Some a -> find q (l ++ t) = Some a.
Proof.
  induction l as [|x l IH]; intros Hq H; [discriminate|].
  simpl in *. rewrite (Hq x (or_introl eq_refl)).
  destruct (p x); [exact H|]. apply IH; auto.
Qed.

Lemma find_app_miss (A : Type) (p q : A -> bool) (l : list A) (h : A) :
  (forall x, In x l -> q x = p x) -> q h = false ->
  find p l = None -> find q (l ++ [h]) = None.
Proof.
  induction l as [|x l IH]; intros Hq Hh H.
  - simpl. rewrite Hh. reflexivity.
  - simpl in *. rewrite (Hq x (or_introl eq_refl)).
    destruct (p x); [discriminate|]. apply IH; auto.
Qed.

Lemma handle_matches_grown (m : Manager) (x : Exchange) (o : list nat)
  (l : list LogEntry) (name : str) (credentials : Credentials) (a : nat) :
  a < length (heap m) ->
  handle_matches (mkManager o (heap m ++ [x]) (exchanges m) l) name credentials a
  = handle_matches m name credentials a.
Proof.
  intros Ha. unfold handle_matches. cbn [heap].
  rewrite nth_error_app1 by exact Ha. reflexivity.
Qed.

Lemma openExchange_exchanges (m : Manager) (name : str) (credentials : Credentials)
  (symbol : str) :
  exchanges (fst (openExchange m name credentials symbol)) = exchanges m.
Proof.
  unfold openExchange. destruct (findOpened m name credentials); [reflexivity|].
  destruct (find _ (exchanges m)); reflexivity.
Qed.

(** A handle that [findOpened] finds is still the one it finds after any
    [openExchange]. *)
Lemma openExchange_keeps_found (m : Manager) (name name' : str)
  (credentials credentials' : Credentials) (symbol : str) (a : nat) :
  entries_ok m ->
  findOpened m name credentials = Some a ->
  findOpened (fst (openExchange m name' credentials' symbol)) name credentials = Some a.
Proof.
  intros Hok H. unfold openExchange.
  destruct (findOpened m name' credentials') as [e|]; cbn [fst].
  - rewrite findOpened_update by apply keeps_identity_addReference. exact H.
  - destruct (find _ (exchanges m)); cbn [fst]; [|exact H].
    unfold findOpened. cbn [opened].
    apply find_app_hit with (p := handle_matches m name credentials); [|exact H].
    intros x Hx. apply handle_matches_grown. apply (ok_valid m Hok). exact Hx.
Qed.

(** An identity the catalog cannot serve is never found. *)
Lemma openExchange_keeps_unknown (m : Manager) (name name' : str)
  (credentials credentials' : Credentials) (symbol : str) :
  entries_ok m ->
  findOpened m name credentials = None ->
  find (fun el => str_eqb (cat_name el) (exchangeName_of name credentials)) (exchanges m)
  = None ->
  findOpened (fst (openExchange m name' credentials' symbol)) name credentials = None.
Proof.
  intros Hok H Hcat. unfold openExchange.
  destruct (findOpened m name' credentials') as [e|]; cbn [fst].
  - rewrite findOpened_update by apply keeps_identity_addReference. exact H.
  - destruct (find (fun el => str_eqb (cat_name el) (exchangeName_of name' credentials'))
                   (exchanges m)) as [match_|] eqn:E; cbn [fst]; [|exact H].
    unfold findOpened. cbn [opened].
    apply find_app_miss with (p := handle_matches m name credentials); [| |exact H].
    + intros x Hx. apply handle_matches_grown. apply (ok_valid m Hok). exact Hx.
    + unfold handle_matches. cbn [heap]. rewrite nth_error_last.
      destruct (matches (new_Exchange name' credentials') name credentials) eqn:Hm;
        [|reflexivity].
      apply matches_iff in Hm. cbn [new_Exchange ex_name ex_credentials] in Hm.
      destruct Hm as [-> ->]. rewrite E in Hcat. discriminate.
Qed.

(** What [openExchange] hands back is what [findOpened] finds afterwards, and
    it hands back nothing only when the catalog has no such exchange. *)
Lemma openExchange_handle (m : Manager) (name : str) (credentials : Credentials)
  (symbol : str) :
  let s := openExchange m name credentials symbol in
  resolved (snd s) = findOpened (fst s) name credentials
  /\ (resolved (snd s) = None ->
      find (fun el => str_eqb (cat_name el) (exchangeName_of name credentials))
           (exchanges m) = None).
Proof.
  cbv zeta. unfold openExchange.
  destruct (findOpened m name credentials) as [e|] eqn:Hf; cbn [fst snd resolved].
  - rewrite findOpened_update by apply keeps_identity_addReference.
    split; [symmetry; exact Hf | discriminate].
  - destruct (find (fun el => str_eqb (cat_name el) (exchangeName_of name credentials))
                   (exchanges m)) as [match_|] eqn:E; cbn [fst snd resolved].
    + split; [|discriminate]. symmetry. apply findOpened_created; [exact Hf| |];
        reflexivity.
    + split; [symmetry; exact Hf | reflexivity].
Qed.

Lemma shares_handles_fold (credentials : list Credentials) (blocks : list Block)
  (m : Manager) (su : list Suspended) :
  entries_ok m -> shares_handles credentials m su ->
  let r := fold_left (block_callback credentials) blocks (m, su) in
  shares_handles credentials (fst r) (snd r).
Proof.
  revert m su. induction blocks as [|b blocks IH]; intros m su Hok Hs.
  - exact Hs.
  - cbv zeta. cbn [fold_left].
    destruct (find (fun item => str_eqb (cr_name item) (b_exchangeName b)) credentials)
      as [c|] eqn:E.
    + rewrite (block_callback_credentials _ m su b c E).
      apply IH; [apply entries_ok_openExchange; exact Hok|].
      intros s Hin. apply in_app_or in Hin. destruct Hin as [Hin|[<-|[]]].
      * destruct (Hs s Hin) as (c' & Hc' & Hh & Hn). exists c'. split; [exact Hc'|].
        rewrite openExchange_exchanges.
        destruct (resolved (su_open s)) as [a|].
        -- split; [|discriminate]. symmetry.
           apply openExchange_keeps_found; [exact Hok | symmetry; exact Hh].
        -- split; [|exact Hn]. symmetry.
           apply openExchange_keeps_unknown; [exact Hok | symmetry; exact Hh | auto].
      * exists c. cbn [su_block su_open]. split; [exact E|].
        rewrite openExchange_exchanges. apply openExchange_handle.
    + rewrite (block_callback_no_credentials _ m su b E).
      apply IH; [apply entries_ok_add_log; exact Hok | exact Hs].
Qed.

Lemma handed_on_success (m : Manager) (step : OpenStep) :
  handed m step None = resolved step.
Proof. destruct step; reflexivity. Qed.

Lemma handed_on_failure (m : Manager) (h : nat) (symbol : str) (err : error) :
  handed m (OpenAwaitInit h symbol) (Some err) = None.
Proof.
  unfold handed, openExchange_resume.
  destruct (closeExchange (add_log m (LogError err)) (Some h)) as [m2 [|e]]; reflexivity.
Qed.

(** X8.  Blocks of one message that name the same exchange are served by
    one pool entry.  When the open-set is sound before the message, for any
    two callbacks suspended by [executeMessage] whose blocks carry the same
    exchange name, [openExchange] has found or created the same handle (or
    none for both), and that handle is in the open-set when
    [executeMessage] returns.  Both callbacks are handed it if the [init]
    of the call that created it succeeds; a creating call whose [init]
    rejects hands its own callback nothing, whatever the other callbacks
    got. *)
Theorem executeMessage_blocks_share_handle (m : Manager) (msg : str)
  (credentials : list Credentials) (s1 s2 : Suspended) :
  entries_ok m ->
  let r := executeMessage m msg credentials in
  In s1 (mr_suspended r) -> In s2 (mr_suspended r) ->
  b_exchangeName (su_block s1) = b_exchangeName (su_block s2) ->
  resolved (su_open s1) = resolved (su_open s2)
  /\ (forall h, resolved (su_open s1) = Some h -> In h (opened (mr_manager r)))
  /\ (forall m1 m2, handed m1 (su_open s1) None = handed m2 (su_open s2) None)
  /\ (forall m1 h symbol err,
        su_open s1 = OpenAwaitInit h symbol ->
        handed m1 (su_open s1) (Some err) = None).
Proof.
  intros Hok. cbv zeta. unfold executeMessage.
  pose proof (shares_handles_fold credentials (commandBlocks msg) m [] Hok) as H.
  destruct (fold_left (block_callback credentials) (commandBlocks msg) (m, []))
    as [m' su]. cbn [fst snd mr_suspended mr_manager] in *.
  assert (Hs : shares_handles credentials m' su) by (apply H; intros s []).
  intros H1 H2 Hn.
  destruct (Hs s1 H1) as (c1 & Hc1 & Hh1 & _).
  destruct (Hs s2 H2) as (c2 & Hc2 & Hh2 & _).
  rewrite Hn in Hc1. rewrite Hc1 in Hc2. injection Hc2 as <-.
  rewrite Hn in Hh1.
  assert (Heq : resolved (su_open s1) = resolved (su_open s2)) by congruence.
  split; [exact Heq|]. split; [|split].
  - intros h Hh. rewrite Hh in Hh1. symmetry in Hh1.
    apply findOpened_Some in Hh1. apply Hh1.
  - intros m1 m2. rewrite !handed_on_success. exact Heq.
  - intros m1 h symbol err E. rewrite E. apply handed_on_failure.
Qed.

(** ** The sequence executor: where the calls go *)

Section ExecutorCalls.

Variable executeCommand :
  list Event -> nat -> str -> str -> list Param -> Session -> outcome.

Lemma run_action_calls (exchange : nat) (symbol : str) (session : Session)
  (action : Action) (tr : list Event) (ev : Event) :
  In ev (fst (run_action executeCommand exchange symbol session action tr)) ->
  In ev tr
  \/ ev = EvExecute exchange symbol (a_name action) (a_params action) session
  \/ match ev with EvExecute _ _ _ _ _ => False | _ => True end.
Proof.
  unfold run_action.
  destruct (executeCommand tr exchange symbol (a_name action) (a_params action) session);
    cbn [fst]; intros H; repeat (apply in_app_or in H; destruct H as [H|H]);
    auto; simpl in H; intuition (subst; simpl; auto).
Qed.

Lemma run_action_fulfils (exchange : nat) (symbol : str) (session : Session)
  (action : Action) (tr : list Event) :
  snd (run_action executeCommand exchange symbol session action tr) = None.
Proof.
  unfold run_action.
  destruct (executeCommand tr exchange symbol (a_name action) (a_params action) session);
    reflexivity.
Qed.

Lemma eachSeries_calls (exchange : nat) (symbol : str) (session : Session)
  (actions : list Action) (tr : list Event) :
  let r := eachSeries actions (run_action executeCommand exchange symbol session) tr in
  snd r = None
  /\ forall e s n ps ss,
       In (EvExecute e s n ps ss) (fst r) ->
       In (EvExecute e s n ps ss) tr
       \/ (e = exchange /\ s = symbol /\ ss = session /\ In (mkAction n ps) actions).
Proof.
  revert tr. induction actions as [|a actions IH]; intros tr; cbv zeta.
  - simpl. auto.
  - cbn [eachSeries].
    pose proof (run_action_fulfils exchange symbol session a tr) as Hf.
    pose proof (run_action_calls exchange symbol session a tr) as Hc.
    destruct (run_action executeCommand exchange symbol session a tr) as [tr' o].
    cbn [fst snd] in Hf, Hc. subst o.
    destruct (IH tr') as [H1 H2]. split; [exact H1|].
    intros e s n ps ss Hin. destruct (H2 e s n ps ss Hin) as [Hin'|(-> & -> & -> & Ha)].
    + destruct (Hc _ Hin') as [H|[H|[]]]; [left; exact H|].
      injection H as -> -> -> -> ->. right. destruct a. simpl. auto.
    + right. simpl. auto.
Qed.

(** X9.  Whatever its inputs, [executeCommandSequence] never rejects, and
    every call of [executeCommand] it makes goes to the exchange it was
    given, with the symbol it was given and the one session id of the run,
    for an action parsed from the command text; it makes no call at all when
    the symbol or the command text is empty. *)
Theorem executeCommandSequence_calls (exchange : nat) (symbol commands : str)
  (session : Session) :
  let r := executeCommandSequence executeCommand exchange symbol commands session in
  snd r = None
  /\ forall e s n ps ss,
       In (EvExecute e s n ps ss) (fst r) ->
       e = exchange /\ s = symbol /\ ss = session
       /\ In (mkAction n ps) (parseActions commands)
       /\ symbol <> [] /\ commands <> [].
Proof.
  cbv zeta. unfold executeCommandSequence.
  destruct symbol as [|c1 s1]; [simpl; split; [reflexivity | intros ? ? ? ? ? []]|].
  destruct commands as [|c2 s2]; [simpl; split; [reflexivity | intros ? ? ? ? ? []]|].
  cbn [is_empty orb].
  destruct (eachSeries_calls exchange (c1 :: s1) session (parseActions (c2 :: s2)) [])
    as [H1 H2].
  split; [exact H1|]. intros e s n ps ss Hin.
  destruct (H2 e s n ps ss Hin) as [[]|(-> & -> & -> & Ha)].
  repeat split; try assumption; discriminate.
Qed.

End ExecutorCalls.

(** ** More on the matcher: the matches of a global scan *)

(** Every match of a global scan is the first way to match at its index. *)
Lemma scan_in (r : regex) (fuel : nat) (i : nat) (s : str) (m : rmatch) :
  In m (scan fuel r i s) ->
  exists u v st l,
    s = u ++ v
    /\ run r (MState (i + length u) v []) = st :: l
    /\ index m = i + length u
    /\ whole m = firstn (pos st - (i + length u)) v
    /\ forall n, group m n = lookup n (caps st).
Proof.
  revert i s. induction fuel as [|fuel IH]; intros i s Hin; [destruct Hin|].
  cbn [scan] in Hin. destruct (search r i s) as [[j st]|] eqn:Hs; [|destruct Hin].
  destruct (search_some r s i j st Hs) as (u & v & l & Hsv & Hj & Hrun & _).
  destruct Hin as [<-|Hin].
  - exists u, v, st, l. subst j. repeat split; try assumption.
    unfold mk_match. cbn [whole]. f_equal.
    replace (i + length u - i) with (length u) by lia.
    rewrite Hsv, skipn_app, skipn_all, Nat.sub_diag. reflexivity.
  - assert (Hst : In st (run r (MState j v []))) by (rewrite Hrun; left; reflexivity).
    destruct (run_advance _ _ _ Hst) as (pre & Hv & Hp). cbn [pos rest] in Hv, Hp.
    assert (Hnext : exists w k, In m (scan fuel r k w)
                                /\ exists u', s = u' ++ w /\ k = i + length u').
    { destruct (pos st =? j) eqn:E.
      - destruct (rest st) as [|c s'] eqn:Hr; [destruct Hin|].
        exists s', (S (pos st)). split; [exact Hin|].
        exists (u ++ pre ++ [c]). split.
        + rewrite Hsv, Hv, <- !app_assoc. reflexivity.
        + rewrite !length_app. simpl. lia.
      - exists (rest st), (pos st). split; [exact Hin|].
        exists (u ++ pre). split.
        + rewrite Hsv, Hv, <- app_assoc. reflexivity.
        + rewrite length_app. lia. }
    destruct Hnext as (w & k & Hin' & u' & Hs' & Hk).
    destruct (IH k w Hin') as (u2 & v2 & st2 & l2 & Hw & Hrun2 & Hi & Hwh & Hg).
    exists (u' ++ u2), v2, st2, l2.
    rewrite length_app, Nat.add_assoc, <- Hk.
    repeat split; try assumption.
    rewrite Hs', Hw, <- app_assoc. reflexivity.
Qed.

(** The matches handed to the callback of [Fregex.forEach]: the subject is
    [u ++ w ++ post] with [w] the text of the match, and the match is the
    first way for the pattern to match at the end of [u]. *)
Lemma forEach_in (r : regex) (s : str) (m : rmatch) (k : nat) :
  In (m, k) (Fregex_forEach r s) ->
  k < length (matchAll r s)
  /\ exists u post st l,
       s = u ++ whole m ++ post
       /\ run r (MState (length u) (whole m ++ post) []) = st :: l
       /\ pos st = length u + length (whole m)
       /\ rest st = post
       /\ forall n, group m n = lookup n (caps st).
Proof.
  unfold Fregex_forEach. intros Hin. split.
  - apply in_combine_r in Hin. apply in_seq in Hin. lia.
  - apply in_combine_l in Hin. unfold matchAll in Hin.
    destruct (scan_in _ _ _ _ _ Hin) as (u & v & st & l & Hs & Hrun & _ & Hw & Hg).
    simpl in Hrun, Hw.
    assert (Hst : In st (run r (MState (length u) v []))) by (rewrite Hrun; left; auto).
    destruct (run_advance _ _ _ Hst) as (pre & Hv & Hp). cbn [pos rest] in Hv, Hp.
    assert (Hwp : whole m = pre).
    { rewrite Hw, Hp, Hv. replace (length u + length pre - length u) with (length pre)
        by lia. rewrite firstn_app, firstn_all, Nat.sub_diag. simpl. apply app_nil_r. }
    exists u, (rest st), st, l. rewrite Hwp, <- Hv. auto.
Qed.

(** The first result of a sequence comes from some result of its first part. *)
Lemma run_seq_head (r1 r2 : regex) (st y : mstate) (l : list mstate) :
  run (Seq r1 r2) st = y :: l ->
  exists mid l', In mid (run r1 st) /\ run r2 mid = y :: l'.
Proof.
  rewrite run_seq_eq. induction (run r1 st) as [|x t IH]; [discriminate|].
  simpl. destruct (run r2 x) as [|y' l'] eqn:E.
  - simpl. intros H. destruct (IH H) as (mid & l2 & Hin & Hr). exists mid, l2. auto.
  - simpl. intros H. injection H as -> _. exists x, l'. auto.
Qed.

(** The first result of a lazy group followed by [K]: the group holds the
    shortest text after which [K] matches. *)
Lemma lazy_spans_head (p : char -> bool) (K : regex) (n : nat) (cs : list (nat * str))
  (i0 : nat) (a0 s : str) (y : mstate) (l : list mstate) :
  flat_map (fun x => run K (MState (fst x) (snd x)
                              ((n, firstn (fst x - i0) (a0 ++ s)) :: cs)))
           (spans p (i0 + length a0) s) = y :: l ->
  exists a post l',
    s = a ++ post /\ forallb p a = true
    /\ run K (MState (i0 + length a0 + length a) post ((n, a0 ++ a) :: cs)) = y :: l'
    /\ forall a1 c a2, a = a1 ++ c :: a2 ->
         run K (MState (i0 + length a0 + length a1) (c :: a2 ++ post)
                       ((n, a0 ++ a1) :: cs)) = [].
Proof.
  revert a0. induction s as [|c s IH]; intros a0 H.
  - simpl in H. rewrite app_nil_r in H.
    replace (i0 + length a0 - i0) with (length a0) in H by lia.
    rewrite firstn_app, firstn_all, Nat.sub_diag, app_nil_r in H. simpl in H.
    exists [], [], l. rewrite Nat.add_0_r, !app_nil_r.
    repeat split; [exact H|].
    intros a1 c a2 Ha. destruct a1; discriminate.
  - cbn [spans flat_map fst snd] in H.
    replace (i0 + length a0 - i0) with (length a0) in H by lia.
    rewrite firstn_app, firstn_all, Nat.sub_diag in H. simpl firstn in H.
    rewrite app_nil_r in H.
    match type of H with ?X ++ _ = _ => destruct X as [|y' l'] eqn:E end.
    + simpl in H. destruct (p c) eqn:Hc; [|discriminate].
      specialize (IH (a0 ++ [c])).
      rewrite length_app, <- app_assoc in IH. simpl in IH.
      replace (i0 + (length a0 + 1)) with (S (i0 + length a0)) in IH by lia.
      destruct (IH H) as (a & post & l2 & Hs & Hp & Hrun & Hmin).
      exists (c :: a), post, l2. simpl. rewrite Hc, Hp, Hs.
      repeat split.
      * replace (i0 + length a0 + S (length a)) with (S (i0 + length a0) + length a)
          by lia. rewrite <- app_assoc in Hrun. exact Hrun.
      * intros a1 c' a2 Ha. destruct a1 as [|d a1].
        -- simpl in Ha. injection Ha as <- <-.
           rewrite Nat.add_0_r, app_nil_r, <- Hs. exact E.
        -- simpl in Ha. injection Ha as <- Ha.
           specialize (Hmin a1 c' a2 Ha). simpl.
           replace (i0 + length a0 + S (length a1))
             with (S (i0 + length a0) + length a1) by lia.
           rewrite <- app_assoc in Hmin. exact Hmin.
    + simpl in H. injection H as -> _.
      exists [], (c :: s), l'. rewrite Nat.add_0_r, app_nil_r.
      repeat split; [exact E|].
      intros a1 c' a2 Ha. destruct a1; discriminate.
Qed.

Lemma run_lazy_group_head (p : char -> bool) (K : regex) (n : nat) (st y : mstate)
  (l : list mstate) :
  run (Seq (Grp n (Rep false 0 p)) K) st = y :: l ->
  exists a post l',
    rest st = a ++ post /\ forallb p a = true
    /\ run K (MState (pos st + length a) post ((n, a) :: caps st)) = y :: l'
    /\ forall a1 c a2, a = a1 ++ c :: a2 ->
         run K (MState (pos st + length a1) (c :: a2 ++ post) ((n, a1) :: caps st)) = [].
Proof.
  intros H. rewrite run_seq_eq, run_grp_eq in H. cbn [run skipn] in H.
  rewrite map_map, flat_map_concat_map, map_map, <- flat_map_concat_map in H.
  cbn [pos rest caps] in H.
  pose proof (lazy_spans_head p K n (caps st) (pos st) [] (rest st) y l) as L.
  simpl in L. rewrite Nat.add_0_r in L. apply L. exact H.
Qed.

(** The first result of a lazy group followed by one character: the group
    does not hold that character. *)
Lemma run_lazy_until (p : char -> bool) (d : char) (n : nat) (st y : mstate)
  (l : list mstate) :
  run (Seq (Grp n (Rep false 0 p)) (Chr d)) st = y :: l ->
  exists a post,
    rest st = a ++ d :: post /\ forallb p a = true /\ ~ In d a
    /\ y = MState (S (pos st + length a)) post ((n, a) :: caps st).
Proof.
  intros H. destruct (run_lazy_group_head _ _ _ _ _ _ H)
    as (a & post & l' & Hr & Hp & Hrun & Hmin).
  assert (Hy : In y (run (Chr d) (MState (pos st + length a) post ((n, a) :: caps st))))
    by (rewrite Hrun; left; reflexivity).
  apply run_chr_inv in Hy. destruct Hy as (s' & Hpost & ->). cbn [rest pos caps] in *.
  exists a, s'. subst post. repeat split; try assumption.
  intros Hin. apply in_split in Hin. destruct Hin as (a1 & a2 & Ha).
  specialize (Hmin a1 d a2 Ha). rewrite run_chr_hit in Hmin. discriminate.
Qed.

(** ** The parser: the shape of the actions *)

Lemma forallb_impl (p q : char -> bool) (s : str) :
  (forall c, p c = true -> q c = true) -> forallb p s = true -> forallb q s = true.
Proof.
  intros Hpq. induction s as [|c s IH]; [reflexivity|]. simpl.
  intros H. apply andb_prop in H. destruct H as [Hc Hs].
  rewrite (Hpq c Hc), (IH Hs). reflexivity.
Qed.

Lemma trim_nospace (s : str) :
  forallb (fun c => negb (is_space c)) s = true -> trim s = s.
Proof.
  intros H. destruct s as [|c s]; [reflexivity|].
  pose proof (trim_around [] (c :: s) [] H) as T.
  rewrite app_nil_r in T. simpl app in T. rewrite T by discriminate.
  simpl. rewrite app_nil_r. reflexivity.
Qed.

Lemma trim_letters (s : str) : forallb is_alpha s = true -> trim s = s.
Proof.
  intros H. apply trim_nospace. revert H. apply forallb_impl.
  intros c Hc. rewrite (is_alpha_not_space c Hc). reflexivity.
Qed.

(** The first way for the action pattern to match: letters, an opening
    parenthesis, the shortest text up to a closing parenthesis. *)
Lemma parseActions_re_head (i : nat) (v : str) (st : mstate) (l : list mstate) :
  run parseActions_re (MState i v []) = st :: l ->
  exists name args post,
    v = name ++ c_lpar :: args ++ c_rpar :: post
    /\ name <> [] /\ forallb is_alpha name = true /\ ~ In c_rpar args
    /\ rest st = post /\ caps st = [(2, args); (1, name)].
Proof.
  unfold parseActions_re. intros H.
  apply run_seq_head in H. destruct H as (mid1 & l1 & H1 & H).
  apply run_grp_inv in H1. destruct H1 as (st1 & H1 & ->).
  inv_rep H1 name post1.
  apply run_seq_head in H. destruct H as (mid2 & l2 & H2 & H).
  inv_chr H2 post2.
  apply run_lazy_until in H. destruct H as (args & post & Hr & _ & Hno & ->).
  cbn [pos rest caps] in *. subst post2.
  exists name, args, post. repeat split; try assumption.
  - intros ->. simpl in Hmin. lia.
  - replace (i + length name - i) with (length name) by lia.
    rewrite firstn_app, firstn_all, Nat.sub_diag. simpl. rewrite app_nil_r. reflexivity.
Qed.

(** X10.  Every action that [parseActions] returns comes from a piece
    [name(args)] of the command text: its name is a non-empty run of
    letters, [args] holds no closing parenthesis, and its parameters are
    those of [args] trimmed. *)
Theorem parseActions_shape (commands : str) (a : Action) :
  In a (parseActions commands) ->
  exists name args,
    a = mkAction name (parseArguments (trim args))
    /\ name <> [] /\ forallb is_alpha name = true /\ ~ In c_rpar args
    /\ occurs (name ++ [c_lpar] ++ args ++ [c_rpar]) commands.
Proof.
  unfold parseActions. intros Hin. apply in_map_iff in Hin.
  destruct Hin as ([m k] & <- & Hin). cbn [fst].
  apply forEach_in in Hin.
  destruct Hin as (_ & u & post & st & l & Hs & Hrun & _ & Hrest & Hg).
  apply parseActions_re_head in Hrun.
  destruct Hrun as (name & args & post' & Hv & Hne & Hal & Hno & Hrest' & Hcaps).
  rewrite Hrest in Hrest'. subst post'.
  exists name, args. rewrite !Hg, Hcaps. cbn [lookup Nat.eqb get].
  rewrite (trim_letters name Hal). repeat split; try assumption.
  exists u, post. rewrite Hs. f_equal.
  replace (name ++ c_lpar :: args ++ c_rpar :: post)
    with ((name ++ [c_lpar] ++ args ++ [c_rpar]) ++ post) in Hv
    by (rewrite <- !app_assoc; reflexivity).
  apply app_inv_tail in Hv. rewrite Hv. reflexivity.
Qed.

(** ** The parser: the shape of the command blocks *)

Lemma run_cls_inv (p : char -> bool) (st st' : mstate) :
  In st' (run (Cls p) st) ->
  exists d s', rest st = d :: s' /\ p d = true
               /\ st' = MState (S (pos st)) s' (caps st).
Proof.
  cbn [run]. destruct (rest st) as [|d s']; [intros []|].
  destruct (p d) eqn:E; [|intros []].
  intros [<-|[]]. exists d, s'. auto.
Qed.

Lemma trimStart_fixed (s : str) :
  match s with c :: _ => is_space c = false | [] => True end -> trimStart s = s.
Proof. destruct s as [|c s]; [reflexivity|]. simpl. intros ->. reflexivity. Qed.

Lemma trimEnd_prefix (s : str) : exists b, s = trimEnd s ++ b.
Proof.
  unfold trimEnd. destruct (trimStart_suffix (rev s)) as (a & Ha).
  exists (rev a). rewrite <- rev_app_distr, <- Ha, rev_involutive. reflexivity.
Qed.

Lemma trim_head (s : str) :
  match trim s with c :: _ => is_space c = false | [] => True end.
Proof.
  unfold trim. pose proof (trimStart_head s) as H.
  destruct (trimEnd_prefix (trimStart s)) as (b & Hb).
  destruct (trimEnd (trimStart s)) as [|c t]; [exact I|].
  rewrite Hb in H. exact H.
Qed.

Lemma trim_trim (s : str) : trim (trim s) = trim s.
Proof.
  unfold trim at 1. rewrite (trimStart_fixed (trim s) (trim_head s)).
  unfold trim, trimEnd. rewrite rev_involutive.
  rewrite (trimStart_fixed _ (trimStart_head (rev (trimStart s)))). reflexivity.
Qed.

Lemma in_trim (c : char) (s : str) : In c (trim s) -> In c s.
Proof.
  intros H. destruct (trim_inside s) as (a & b & E). rewrite E.
  apply in_or_app. right. apply in_or_app. left. exact H.
Qed.

Lemma forallb_trim (p : char -> bool) (s : str) :
  forallb p s = true -> forallb p (trim s) = true.
Proof.
  intros H. apply forallb_forall. intros c Hc.
  apply (proj1 (forallb_forall p s) H). apply in_trim. exact Hc.
Qed.

Lemma toLowerCase_alnum (c : char) :
  is_alnum c = true ->
  (is_lower (if is_upper c then (c + 32)%N else c)
   || is_digit (if is_upper c then (c + 32)%N else c)) = true.
Proof.
  intros H. apply is_alnum_range in H.
  unfold is_lower, is_upper, is_digit, in_range.
  destruct H as [H|[H|H]]; decide_cmp; cbn [andb]; cbv iota; decide_cmp; reflexivity.
Qed.

Lemma toLowerCase_alpha (c : char) :
  is_alpha c = true -> is_lower (if is_upper c then (c + 32)%N else c) = true.
Proof.
  intros H.
  assert ((97 <= c <= 122)%N \/ (65 <= c <= 90)%N) as B.
  { revert H. unfold is_alpha, is_lower, is_upper, in_range.
    rewrite !orb_true_iff, !andb_true_iff, !N.leb_le. tauto. }
  unfold is_lower, is_upper, in_range.
  destruct B as [B|B]; decide_cmp; cbn [andb]; cbv iota; decide_cmp; reflexivity.
Qed.

Lemma firstn_exact (a b : str) : firstn (length a) (a ++ b) = a.
Proof. rewrite firstn_app, firstn_all, Nat.sub_diag. simpl. apply app_nil_r. Qed.

(** The first way for the block pattern to match. *)
Lemma commandBlocks_re_head (i : nat) (v : str) (st : mstate) (l : list mstate) :
  run commandBlocks_re (MState i v []) = st :: l ->
  exists c name symbol sp actions post,
    v = (c :: name) ++ c_lpar :: symbol ++ c_rpar :: sp ++ c_lbrace :: actions
          ++ c_rbrace :: post
    /\ is_alpha c = true /\ forallb is_alnum name = true
    /\ forallb is_not_paren symbol = true /\ forallb is_space sp = true
    /\ ~ In c_rbrace actions
    /\ rest st = post
    /\ caps st = [(3, actions); (2, symbol); (1, c :: name)].
Proof.
  unfold commandBlocks_re. intros H.
  apply run_seq_head in H. destruct H as (mid1 & l1 & H1 & H).
  apply run_grp_inv in H1. destruct H1 as (st1 & H1 & ->).
  inv_seq H1 midc Hc. apply run_cls_inv in Hc.
  destruct Hc as (c & s' & Hv & Hal & ->). cbn [rest pos caps] in *. subst v.
  inv_rep H1 name post1.
  apply run_seq_head in H. destruct H as (mid2 & l2 & H2 & H).
  inv_chr H2 post2.
  apply run_seq_head in H. destruct H as (mid3 & l3 & H3 & H).
  apply run_grp_inv in H3. destruct H3 as (st3 & H3 & ->).
  inv_rep H3 symbol post3.
  apply run_seq_head in H. destruct H as (mid4 & l4 & H4 & H).
  inv_chr H4 post4.
  apply run_seq_head in H. destruct H as (mid5 & l5 & H5 & H).
  inv_rep H5 sp post5.
  apply run_seq_head in H. destruct H as (mid6 & l6 & H6 & H).
  inv_chr H6 post6.
  apply run_lazy_until in H. destruct H as (actions & post & Hr & _ & Hno & ->).
  cbn [pos rest caps] in *. subst post6.
  exists c, name, symbol, sp, actions, post.
  repeat split; try assumption.
  replace (S (S i + length name) + length symbol - S (S i + length name))
    with (length symbol) by lia.
  replace (S i + length name - i) with (length (c :: name)) by (cbn [length]; lia).
  rewrite firstn_exact.
  change (c :: name ++ c_lpar :: symbol ++ c_rpar :: sp ++ c_lbrace :: actions
            ++ c_rbrace :: post)
    with ((c :: name) ++ c_lpar :: symbol ++ c_rpar :: sp ++ c_lbrace :: actions
            ++ c_rbrace :: post).
  rewrite firstn_exact. reflexivity.
Qed.

(** X11.  Every block that [commandBlocks] hands to its callback is well
    formed: the exchange name is a lowercase letter followed by lowercase
    letters and digits, the symbol is non-empty, trimmed and free of
    parentheses, and the action text is non-empty, trimmed and free of
    closing braces. *)
Theorem commandBlocks_shape (msg : str) (b : Block) :
  In b (commandBlocks msg) ->
  (exists c name, b_exchangeName b = c :: name /\ is_lower c = true
                  /\ forallb (fun d => is_lower d || is_digit d) name = true)
  /\ b_symbol b <> [] /\ trim (b_symbol b) = b_symbol b
  /\ forallb is_not_paren (b_symbol b) = true
  /\ b_actions b <> [] /\ trim (b_actions b) = b_actions b
  /\ ~ In c_rbrace (b_actions b).
Proof.
  unfold commandBlocks. intros Hin. apply in_flat_map in Hin.
  destruct Hin as ([m k] & Hin & Hb). cbn [fst] in Hb.
  apply forEach_in in Hin.
  destruct Hin as (_ & u & post & st & l & Hs & Hrun & _ & Hrest & Hg).
  apply commandBlocks_re_head in Hrun.
  destruct Hrun as (c & name & symbol & sp & actions & post' & Hv & Hc & Hname
                    & Hsym & Hsp & Hact & _ & Hcaps).
  rewrite !Hg, Hcaps in Hb. cbn [lookup Nat.eqb get] in Hb.
  assert (Hns : forallb (fun d => negb (is_space d)) (c :: name) = true).
  { simpl. rewrite (is_alpha_not_space c Hc). simpl.
    revert Hname. apply forallb_impl. intros d Hd.
    rewrite (is_alnum_not_space d Hd). reflexivity. }
  rewrite (trim_nospace _ Hns) in Hb. cbn [toLowerCase map is_empty negb andb] in Hb.
  destruct (trim symbol) as [|s1 sy] eqn:Esy; [destruct Hb|].
  destruct (trim actions) as [|a1 ac] eqn:Eac; [destruct Hb|].
  cbn [is_empty negb andb] in Hb. destruct Hb as [<-|[]].
  cbn [b_exchangeName b_symbol b_actions].
  split; [|split; [discriminate|split; [|split; [|split; [discriminate|split]]]]].
  - eexists _, _. split; [reflexivity|]. split; [apply toLowerCase_alpha; exact Hc|].
    apply forallb_forall. intros x Hx. apply in_map_iff in Hx.
    destruct Hx as (d & <- & Hd). apply toLowerCase_alnum.
    apply (proj1 (forallb_forall _ _) Hname). exact Hd.
  - rewrite <- Esy. apply trim_trim.
  - rewrite <- Esy. apply forallb_trim. exact Hsym.
  - rewrite <- Eac. apply trim_trim.
  - rewrite <- Eac. intros H. apply Hact. apply in_trim. exact H.
Qed.

(** ** The parser: the tokens and the parameters *)

Lemma trimEnd_last (s : str) (c : char) :
  is_space c = false -> trimEnd (s ++ [c]) = s ++ [c].
Proof.
  intros Hc. unfold trimEnd. rewrite rev_app_distr. simpl. rewrite Hc.
  simpl. rewrite rev_involutive. reflexivity.
Qed.

Lemma occurs_trim (s : str) : occurs (trim s) s.
Proof. destruct (trim_inside s) as (a & b & E). exists a, b. exact E. Qed.

Lemma occurs_trans (a b c : str) : occurs a b -> occurs b c -> occurs a c.
Proof.
  intros (p1 & q1 & ->) (p2 & q2 & ->). exists (p2 ++ p1), (q1 ++ q2).
  rewrite <- !app_assoc. reflexivity.
Qed.

(** X12.  Every token that [parseArguments] cuts out of its input is a
    trimmed piece of the input, and a comma is kept in a token only inside a
    quoted text that ends the token: the token has no comma at all, or it is
    [a Q b Q] (Q the double quote) with no comma in [a] and no quote in the
    non-empty [b]. *)
Theorem argList_tokens (raw tok : str) :
  In tok (argList raw) ->
  occurs tok raw
  /\ trim tok = tok
  /\ (forallb (is_not c_comma) tok = true
      \/ exists a b, tok = a ++ dq ++ b ++ dq
                     /\ forallb (is_not c_comma) a = true
                     /\ b <> [] /\ forallb (is_not c_dq) b = true).
Proof.
  unfold argList. intros Hin. apply in_map_iff in Hin.
  destruct Hin as ([m k] & <- & Hin). cbn [fst].
  apply forEach_in in Hin.
  destruct Hin as (_ & u & post & st & l & Hs & Hrun & _ & Hrest & _).
  split; [|split; [apply trim_trim|]].
  - apply occurs_trans with (whole m); [apply occurs_trim|]. exists u, post. exact Hs.
  - assert (H : In st (run splitByComma_re (MState (length u) (whole m ++ post) [])))
      by (rewrite Hrun; left; reflexivity).
    clear Hrun. unfold splitByComma_re in H.
    apply run_alt_inv in H. destruct H as [H|H].
    + right. apply run_grp_inv in H. destruct H as (g & H & ->).
      cbn [rest] in Hrest.
      inv_seq H m1 H1. apply run_rep_inv_state in H1.
      destruct H1 as (a & r1 & E1 & -> & Ha & _). cbn [pos rest caps] in *.
      inv_seq H m2 H2. apply run_chr_inv in H2.
      destruct H2 as (r2 & E2 & ->). cbn [pos rest caps] in *. subst r1.
      inv_seq H m3 H3. apply run_rep_inv_state in H3.
      destruct H3 as (b & r3 & E3 & -> & Hb & Hmin). cbn [pos rest caps] in *. subst r2.
      apply run_chr_inv in H. destruct H as (r4 & E4 & ->).
      cbn [pos rest caps] in *. subst r3 r4.
      assert (Hw : whole m = a ++ [c_dq] ++ (b ++ [c_dq])).
      { apply app_inv_tail with (l := post). rewrite E1, <- !app_assoc.
        reflexivity. }
      rewrite Hw, trim_around by (reflexivity || discriminate).
      rewrite trimEnd_last by reflexivity.
      exists (trimStart a), b. unfold dq. repeat split.
      * destruct (trimStart_suffix a) as (x & Hx). rewrite Hx in Ha.
        apply forallb_app_r in Ha. exact Ha.
      * intros ->. simpl in Hmin. lia.
      * exact Hb.
    + left. apply run_grp_inv in H. destruct H as (g & H & ->). cbn [rest] in Hrest.
      apply run_rep_inv_state in H. destruct H as (w & r1 & E1 & -> & Hw & _).
      cbn [pos rest caps] in *. subst r1. apply app_inv_tail in E1. rewrite E1.
      apply forallb_trim. exact Hw.
Qed.

(** A match of the classification pattern that leaves group 7 unset has a
    non-empty run of letters in group 2. *)
Lemma splitValues_name (j : nat) (v : str) (st : mstate) :
  In st (run splitValues_re (MState j v [])) ->
  lookup 7 (caps st) = None ->
  exists n, lookup 2 (caps st) = Some n /\ n <> [] /\ forallb is_alpha n = true.
Proof.
  unfold splitValues_re. intros H.
  apply run_alt_inv in H. destruct H as [H|H].
  - intros _.
    inv_seq H m0 H0. simpl in H0. destruct (j =? 0)%nat; [|destruct H0].
    destruct H0 as [<-|[]].
    apply run_grp_inv in H. destruct H as (g1 & H & ->). cbn [pos rest caps].
    inv_seq H m2 H2. apply run_grp_inv in H2. destruct H2 as (g2 & H2 & ->).
    inv_rep H2 name r2. cbn [pos rest caps] in H.
    assert (Hname : name <> []) by (intros ->; simpl in Hmin; lia).
    inv_seq H m3 H3. inv_rep H3 w1 r3.
    inv_seq H m4 H4. inv_chr H4 r4.
    inv_seq H m5 H5. inv_rep H5 w2 r5.
    apply run_grp_inv in H. destruct H as (g3 & H & ->). cbn [pos rest caps].
    apply run_alt_inv in H. destruct H as [H|H].
    + apply run_grp_inv in H. destruct H as (g4 & H & ->). cbn [pos rest caps] in *.
      inv_seq H m6 H6. inv_chr H6 r6.
      inv_seq H m7 H7. apply run_grp_inv in H7. destruct H7 as (g5 & H7 & ->).
      inv_rep H7 y r7. cbn [pos rest caps] in H. inv_chr H r8.
      cbn [caps lookup Nat.eqb]. rewrite firstn_prefix. exists name. auto.
    + inv_seq H m6 H6. apply opt_chr_caps in H6. cbn [caps] in H6.
      destruct (bare_value_caps _ _ H) as (z & Hz & Hc).
      rewrite Hc, H6. cbn [caps lookup Nat.eqb]. rewrite firstn_prefix.
      exists name. auto.
  - inv_seq H m1 H1. apply run_grp_inv in H1. destruct H1 as (g7 & H1 & ->).
    inv_rep H1 z r1. simpl in H. destruct r1; [|destruct H]. destruct H as [<-|[]].
    cbn [caps lookup Nat.eqb pos rest]. discriminate.
Qed.

Lemma truthy_get (o : option str) : truthy o = true -> get o <> [].
Proof. destruct o as [[|c s]|]; simpl; intros H; discriminate. Qed.

(** What one token adds: nothing, or one parameter carrying the index of the
    token, positional or with a name made of letters and a value. *)
Lemma classify_shape (item : str) (i : nat) :
  classify item i = []
  \/ exists n v, classify item i = [mkParam n v i]
                 /\ (n = [] \/ (n <> [] /\ forallb is_alpha n = true /\ v <> [])).
Proof.
  unfold classify, exec.
  destruct (search splitValues_re 0 item) as [[j st]|] eqn:Hs; [|left; reflexivity].
  destruct (search_some _ _ _ _ _ Hs) as (u & v & l & _ & _ & Hrun & _).
  assert (Hin : In st (run splitValues_re (MState j v [])))
    by (rewrite Hrun; left; reflexivity).
  cbn [mk_match group].
  destruct (truthy (lookup 7 (caps st))) eqn:H7; [right; eauto|].
  destruct (lookup 7 (caps st)) as [z|] eqn:L7.
  - (* group 7 is never set to the empty text *)
    exfalso. destruct (splitValues_caps j v st Hin) as [H|[[H _]|[H _]]];
      rewrite L7 in H; [rewrite H in H7|..]; discriminate.
  - destruct (splitValues_name j v st Hin L7) as (n & L2 & Hn & Hal).
    rewrite L2. cbn [get].
    destruct (truthy (lookup 6 (caps st))) eqn:H6.
    + right. eexists _, _. split; [reflexivity|]. right.
      auto using truthy_get.
    + destruct (truthy (lookup 5 (caps st))) eqn:H5; [|left; reflexivity].
      right. eexists _, _. split; [reflexivity|]. right. auto using truthy_get.
Qed.

Lemma classify_all_indexed (items : list str) (k : nat) :
  let ps := flat_map (fun it => classify (fst it) (snd it))
                     (combine items (seq k (length items))) in
  (forall p, In p ps ->
     k <= p_index p < k + length items
     /\ (p_name p = []
         \/ (p_name p <> [] /\ forallb is_alpha (p_name p) = true /\ p_value p <> [])))
  /\ (forall l1 p l2 q l3, ps = l1 ++ p :: l2 ++ q :: l3 -> p_index p < p_index q).
Proof.
  revert k. induction items as [|it items IH]; intros k; cbv zeta.
  - simpl. split; [intros p []|]. intros l1 p l2 q l3 H. destruct l1; discriminate.
  - cbn [length seq combine flat_map fst snd].
    destruct (IH (S k)) as [IH1 IH2].
    destruct (classify_shape it k) as [E|(n & v & E & Hn)]; rewrite E; cbn [app].
    + split.
      * intros p Hp. destruct (IH1 p Hp) as [Hi Hs]. split; [lia | exact Hs].
      * exact IH2.
    + split.
      * intros p [<-|Hp]; [cbn [p_index p_name p_value]; split; [lia | exact Hn]|].
        destruct (IH1 p Hp) as [Hi Hs]. split; [lia | exact Hs].
      * intros l1 p l2 q l3 H. destruct l1 as [|x l1].
        -- simpl in H. injection H as <- H. cbn [p_index].
           assert (Hq : In q (flat_map (fun it0 => classify (fst it0) (snd it0))
                                       (combine items (seq (S k) (length items)))))
             by (rewrite H; apply in_or_app; right; left; reflexivity).
           destruct (IH1 q Hq) as [Hi _]. lia.
        -- simpl in H. injection H as _ H. exact (IH2 l1 p l2 q l3 H).
Qed.

(** X13.  The parameters that [parseArguments] returns carry the index of
    the token they come from: indices are below the number of tokens and
    strictly increasing along the result, so no token yields two parameters;
    and each parameter is positional (empty name) or has a name made of
    letters and a non-empty value. *)
Theorem parseArguments_params (raw : str) :
  (forall p, In p (parseArguments raw) ->
     p_index p < length (argList raw)
     /\ (p_name p = []
         \/ (p_name p <> [] /\ forallb is_alpha (p_name p) = true /\ p_value p <> [])))
  /\ (forall l1 p l2 q l3,
        parseArguments raw = l1 ++ p :: l2 ++ q :: l3 -> p_index p < p_index q).
Proof.
  unfold parseArguments.
  destruct (classify_all_indexed (argList raw) 0) as [H1 H2].
  split; [|exact H2]. intros p Hp. destruct (H1 p Hp) as [Hi Hs]. split; [lia | exact Hs].
Qed.

(** ** The alert extractor: what is sent *)

Lemma collapse_only_space (b : bool) (s : str) (c : char) :
  In c (collapse_spaces b s) -> is_space c = true -> c = c_space.
Proof.
  revert b. induction s as [|x s IH]; intros b; [intros []|].
  cbn [collapse_spaces]. destruct (is_space x) eqn:Hx.
  - destruct b; [apply IH|]. intros [<-|H]; [reflexivity|]. apply IH with true. exact H.
  - intros [<-|H]; [congruence|]. apply IH with false. exact H.
Qed.

Lemma collapse_true_head (s : str) :
  match collapse_spaces true s with c :: _ => is_space c = false | [] => True end.
Proof.
  induction s as [|x s IH]; [exact I|]. cbn [collapse_spaces].
  destruct (is_space x) eqn:Hx; [exact IH | exact Hx].
Qed.

Lemma collapse_no_double (b : bool) (s pre post : str) (c d : char) :
  collapse_spaces b s = pre ++ c :: d :: post ->
  is_space c = true -> is_space d = false.
Proof.
  revert b pre. induction s as [|x s IH]; intros b pre H Hc.
  - destruct pre; discriminate.
  - cbn [collapse_spaces] in H. destruct (is_space x) eqn:Hx.
    + destruct b; [exact (IH true pre H Hc)|].
      destruct pre as [|y pre].
      * simpl in H. injection H as _ H.
        pose proof (collapse_true_head s) as T. rewrite H in T. exact T.
      * simpl in H. injection H as _ H. exact (IH true pre H Hc).
    + destruct pre as [|y pre].
      * simpl in H. injection H as <- _. congruence.
      * simpl in H. injection H as _ H. exact (IH false pre H Hc).
Qed.

(** X14.  What [handleAlerts] sends is one single-line text: it sends at
    most one text, never an empty one; the text has no white space at
    either end, its only white space characters are plain spaces (no
    line break, no tab), and no two of them are adjacent. *)
Theorem handleAlerts_sends_normal_form (msg t : str) :
  In t (handleAlerts msg) ->
  handleAlerts msg = [t]
  /\ t <> [] /\ trim t = t
  /\ (forall c, In c t -> is_space c = true -> c = c_space)
  /\ (forall pre c d post, t = pre ++ c :: d :: post ->
        is_space c = true -> is_space d = false).
Proof.
  unfold handleAlerts. destruct (exec notify_re msg); [|intros []].
  cbv zeta. destruct (toSend msg) as [|c0 t0] eqn:E; [intros []|].
  cbn [is_empty negb]. intros [<-|[]].
  split; [reflexivity|]. split; [discriminate|].
  unfold toSend in E. rewrite replaceAll_spaces in E. rewrite <- E.
  split; [apply trim_trim|]. split.
  - intros c Hc. apply in_trim in Hc. revert Hc. apply collapse_only_space.
  - intros pre c d post Ht.
    destruct (trim_inside (collapse_spaces false
                (replace notify_re [] (replaceAll alertBlocks_re [] msg))))
      as (a & b & Hab).
    rewrite Ht in Hab.
    apply (collapse_no_double false
             (replace notify_re [] (replaceAll alertBlocks_re [] msg))
             (a ++ pre) (post ++ b)).
    rewrite Hab, <- !app_assoc. reflexivity.
Qed.

(** ** A message without a brace *)

Lemma commandBlocks_needs_brace (msg : str) :
  ~ In c_lbrace msg -> commandBlocks msg = [].
Proof.
  intros Hno. unfold commandBlocks.
  destruct (Fregex_forEach commandBlocks_re msg) as [|[m k] t] eqn:E; [reflexivity|].
  exfalso. apply Hno.
  assert (Hin : In (m, k) (Fregex_forEach commandBlocks_re msg))
    by (rewrite E; left; reflexivity).
  apply forEach_in in Hin.
  destruct Hin as (_ & u & post & st & l & Hs & Hrun & _).
  apply commandBlocks_re_head in Hrun.
  destruct Hrun as (c & name & symbol & sp & actions & post' & Hv & _).
  rewrite Hs, Hv. apply in_or_app. right.
  apply in_or_app. right. right. apply in_or_app. right. right.
  apply in_or_app. right. left. reflexivity.
Qed.

(** X15.  A message without an opening brace has no effect beyond the
    notice banner that every message gets: no block is dispatched, nothing
    is written to [logger.progress] or [logger.error] (the log of the
    model), no alert is sent and the pool is left as it was. *)
Theorem executeMessage_without_brace (m : Manager) (msg : str)
  (credentials : list Credentials) :
  ~ In c_lbrace msg ->
  executeMessage m msg credentials = mkMessageRun m [Resolved] [] [].
Proof.
  intros Hno. unfold executeMessage.
  rewrite (commandBlocks_needs_brace msg Hno). cbn [fold_left].
  rewrite handleAlerts_silent; [reflexivity|].
  intros (pre & post & E). apply Hno. rewrite E.
  apply in_or_app. right. left. reflexivity.
Qed.

(** ** The dispatcher: one reference for each block *)

Lemma openExchange_count (m : Manager) (name : str) (credentials : Credentials)
  (symbol : str) (h : nat) :
  let s := openExchange m name credentials symbol in
  count_at (fst s) h
  = (count_at m h + if resolves_to h (snd s) then 1 else 0)%Z.
Proof.
  cbv zeta. unfold openExchange.
  destruct (findOpened m name credentials) as [a|] eqn:Hf.
  - cbn [fst snd]. unfold resolves_to, count_at. cbn [resolved heap set_heap].
    rewrite nth_error_update. destruct (a =? h) eqn:E.
    + apply findOpened_Some in Hf. destruct Hf as (_ & x & Hx & _).
      apply Nat.eqb_eq in E. subst h. rewrite Hx. reflexivity.
    + destruct (nth_error (heap m) h); lia.
  - destruct (find _ (exchanges m)) as [match_|]; cbn [fst snd].
    + unfold resolves_to, count_at. cbn [resolved heap].
      destruct (length (heap m) =? h) eqn:E.
      * apply Nat.eqb_eq in E. subst h. rewrite nth_error_last.
        rewrite (proj2 (nth_error_None (heap m) (length (heap m)))) by lia.
        reflexivity.
      * apply Nat.eqb_neq in E. destruct (Nat.lt_ge_cases h (length (heap m))).
        -- rewrite nth_error_app1 by assumption. lia.
        -- rewrite (proj2 (nth_error_None (heap m ++ _) h))
             by (rewrite length_app; simpl; lia).
           rewrite (proj2 (nth_error_None (heap m) h)) by lia. reflexivity.
    + unfold resolves_to. cbn [resolved]. lia.
Qed.

Lemma fold_counts_references (credentials : list Credentials) (blocks : list Block)
  (m : Manager) (su : list Suspended) (h : nat) :
  let r := fold_left (block_callback credentials) blocks (m, su) in
  (count_at (fst r) h - Z.of_nat (references_taken (snd r) h)
   = count_at m h - Z.of_nat (references_taken su h))%Z.
Proof.
  revert m su. induction blocks as [|b blocks IH]; intros m su; [reflexivity|].
  cbv zeta. cbn [fold_left].
  destruct (find (fun item => str_eqb (cr_name item) (b_exchangeName b)) credentials)
    as [c|] eqn:E.
  - rewrite (block_callback_credentials _ m su b c E).
    rewrite IH. rewrite openExchange_count.
    unfold references_taken. rewrite filter_app, length_app. cbn [filter su_open].
    destruct (resolves_to h (snd (openExchange m (b_exchangeName b) c (b_symbol b))));
      simpl length; lia.
  - rewrite (block_callback_no_credentials _ m su b E). rewrite IH. reflexivity.
Qed.

(** X16.  Reference accounting of a message: when [executeMessage] returns,
    the count of every handle has grown by exactly the number of blocks of
    the message whose [openExchange] call found or created that handle, a
    handle created for the message counting from zero and its creating call
    still awaiting [init]. *)
Theorem executeMessage_counts_references (m : Manager) (msg : str)
  (credentials : list Credentials) (h : nat) :
  let r := executeMessage m msg credentials in
  count_at (mr_manager r) h
  = (count_at m h + Z.of_nat (references_taken (mr_suspended r) h))%Z.
Proof.
  cbv zeta. unfold executeMessage.
  pose proof (fold_counts_references credentials (commandBlocks msg) m [] h) as H.
  destruct (fold_left (block_callback credentials) (commandBlocks msg) (m, []))
    as [m' su]. cbn [fst snd mr_manager mr_suspended] in *.
  unfold references_taken in H at 2. simpl in H. lia.
Qed.

(** ** The further properties on sample inputs *)


Lemma pool_during_init_counts : count_tracks_membership pool_during_init.
Proof.
  apply counts_openExchange; [apply new_Manager_entries_ok | apply new_Manager_counts].
Qed.

Lemma new_Manager_live (catalog : list CatalogEntry) : entries_live (new_Manager catalog).
Proof. intros a x []. Qed.

(** X1 on the pool in which binance is open: a second opening and its
    closing. *)
Lemma open_found_then_close_restores_witness :
  count_tracks_membership pool_during_init
  /\ findOpened pool_during_init (js "binance") binance_credentials = Some 0
  /\ closeExchange
       (fst (openExchange pool_during_init (js "binance") binance_credentials
                          (js "ETHUSD")))
       (Some 0)
     = (pool_during_init, CloseReturn).
Proof.
  split; [exact pool_during_init_counts|]. split; [reflexivity|].
  pose proof (open_found_then_close_restores pool_during_init (js "binance")
                binance_credentials (js "ETHUSD") 0 pool_during_init_counts eq_refl) as H.
  cbv zeta in H. destruct H as [_ H]. exact H.
Defined.

(** X2 on the empty pool with binance in the catalogue. *)
Lemma open_new_then_close_restores_witness :
  let m := new_Manager binance_catalog in
  let s := openExchange m (js "binance") binance_credentials (js "BTCUSD") in
  let m2 := closeExchange_done (fst (openExchange_resume (fst s) 0 None)) (Some 0) in
  (forall a, In a (opened m) -> a < length (heap m))
  /\ findOpened m (js "binance") binance_credentials = None
  /\ opened m2 = []
  /\ heap m2 = [mkExchange (js "binance") binance_credentials 0 1].
Proof.
  intros m s m2.
  assert (forall a, In a (opened m) -> a < length (heap m)) as Hv by (intros a []).
  split; [exact Hv|]. split; [reflexivity|].
  pose proof (open_new_then_close_restores m (js "binance") binance_credentials
                (js "BTCUSD") (mkCatalogEntry (js "binance") (js "Binance"))
                Hv eq_refl eq_refl) as H.
  cbv zeta in H. destruct H as (_ & H1 & _ & H2). split; [exact H1 | exact H2].
Defined.



(** X5 on the sample calls, at the first [init] window. *)
Lemma openExchange_returns_live_handle_witness :
  In (InitWindow, pool_during_init) (run_calls (new_Manager binance_catalog) sample_calls)
  /\ Forall terminate_fulfils sample_calls
  /\ InitWindow <> TerminateWindow
  /\ entries_live pool_during_init.
Proof.
  assert (In (InitWindow, pool_during_init)
             (run_calls (new_Manager binance_catalog) sample_calls)) as Hin
    by (right; left; reflexivity).
  assert (Forall terminate_fulfils sample_calls) as Hall by (repeat constructor).
  assert (InitWindow <> TerminateWindow) as Hph by discriminate.
  split; [exact Hin|]. split; [exact Hall|]. split; [exact Hph|].
  destruct (openExchange_returns_live_handle binance_catalog sample_calls InitWindow
              pool_during_init Hin Hall Hph) as [H _].
  exact H.
Defined.

(** X7 on the sample message, from the empty pool. *)
Lemma executeMessage_keeps_pool_sound_witness :
  let m := new_Manager binance_catalog in
  let m' := mr_manager (executeMessage m sample_message sample_credentials) in
  entries_ok m /\ count_tracks_membership m /\ entries_live m
  /\ entries_ok m' /\ count_tracks_membership m' /\ entries_live m'.
Proof.
  intros m m'.
  split; [apply new_Manager_entries_ok|]. split; [apply new_Manager_counts|].
  split; [apply new_Manager_live|].
  exact (executeMessage_keeps_pool_sound m sample_message sample_credentials
           (new_Manager_entries_ok binance_catalog) (new_Manager_counts binance_catalog)
           (new_Manager_live binance_catalog)).
Defined.

(** X8 on the sample message: its two binance blocks are served by the
    handle 0, which the first one created. *)
Lemma executeMessage_blocks_share_handle_witness :
  let m := new_Manager binance_catalog in
  let r := executeMessage m sample_message sample_credentials in
  let s1 := mkSuspended first_binance_block (OpenAwaitInit 0 (js "BTCUSD")) in
  let s2 := mkSuspended second_binance_block (OpenReturn (Some 0)) in
  entries_ok m /\ In s1 (mr_suspended r) /\ In s2 (mr_suspended r)
  /\ resolved (su_open s1) = resolved (su_open s2)
  /\ In 0 (opened (mr_manager r))
  /\ handed (mr_manager r) (su_open s1) None = handed (mr_manager r) (su_open s2) None
  /\ handed (mr_manager r) (su_open s1) (Some (js "init failed")) = None.
Proof.
  intros m r s1 s2.
  assert (In s1 (mr_suspended r)) as H1 by (vm_compute; left; reflexivity).
  assert (In s2 (mr_suspended r)) as H2 by (vm_compute; right; left; reflexivity).
  split; [apply new_Manager_entries_ok|]. split; [exact H1|]. split; [exact H2|].
  pose proof (executeMessage_blocks_share_handle m sample_message sample_credentials
                s1 s2 (new_Manager_entries_ok binance_catalog) H1 H2 eq_refl) as H.
  destruct H as (Hs & Hin & Hok & Hfail). split; [exact Hs|].
  split; [apply Hin; reflexivity|]. split; [apply Hok|].
  apply (Hfail (mr_manager r) 0 (js "BTCUSD")). reflexivity.
Defined.

(** X9 on three actions of which the second one is rejected: the call for
    the third one. *)
Lemma executeCommandSequence_calls_witness :
  let r := executeCommandSequence rejects_b 0 (js "BTCUSD") (js "a(1);b(2);c(3)")
                                  (js "session") in
  In (EvExecute 0 (js "BTCUSD") (js "c") [mkParam [] (js "3") 0] (js "session")) (fst r)
  /\ snd r = None
  /\ In (mkAction (js "c") [mkParam [] (js "3") 0]) (parseActions (js "a(1);b(2);c(3)")).
Proof.
  intros r.
  assert (In (EvExecute 0 (js "BTCUSD") (js "c") [mkParam [] (js "3") 0] (js "session"))
             (fst r)) as Hin
    by (vm_compute; do 5 right; left; reflexivity).
  split; [exact Hin|].
  pose proof (executeCommandSequence_calls rejects_b 0 (js "BTCUSD")
                (js "a(1);b(2);c(3)") (js "session")) as H.
  cbv zeta in H. destruct H as [H1 H2]. split; [exact H1|].
  destruct (H2 _ _ _ _ _ Hin) as (_ & _ & _ & H & _). exact H.
Defined.

(** X10 on two actions. *)
Lemma parseActions_shape_witness :
  In (mkAction (js "buy") [mkParam (js "amount") (js "1") 0])
     (parseActions (js "buy(amount=1);sell(2)"))
  /\ exists name args,
       mkAction (js "buy") [mkParam (js "amount") (js "1") 0]
       = mkAction name (parseArguments (trim args))
       /\ name <> [] /\ forallb is_alpha name = true /\ ~ In c_rpar args
       /\ occurs (name ++ [c_lpar] ++ args ++ [c_rpar]) (js "buy(amount=1);sell(2)").
Proof.
  assert (In (mkAction (js "buy") [mkParam (js "amount") (js "1") 0])
             (parseActions (js "buy(amount=1);sell(2)"))) as Hin
    by (vm_compute; left; reflexivity).
  split; [exact Hin|].
  exact (parseActions_shape (js "buy(amount=1);sell(2)")
           (mkAction (js "buy") [mkParam (js "amount") (js "1") 0]) Hin).
Defined.

(** X11 on the first block of the sample message. *)
Lemma commandBlocks_shape_witness :
  In first_binance_block (commandBlocks sample_message)
  /\ trim (b_symbol first_binance_block) = b_symbol first_binance_block
  /\ ~ In c_rbrace (b_actions first_binance_block).
Proof.
  assert (In first_binance_block (commandBlocks sample_message)) as Hin
    by (vm_compute; left; reflexivity).
  split; [exact Hin|].
  destruct (commandBlocks_shape sample_message first_binance_block Hin)
    as (_ & _ & H1 & _ & _ & _ & H2).
  split; [exact H1 | exact H2].
Defined.

(** X12 on the quoted token of the sample arguments. *)
Lemma argList_tokens_witness :
  In (js "x=" ++ dq ++ js "q" ++ dq) (argList sample_arguments)
  /\ occurs (js "x=" ++ dq ++ js "q" ++ dq) sample_arguments.
Proof.
  assert (In (js "x=" ++ dq ++ js "q" ++ dq) (argList sample_arguments)) as Hin
    by (vm_compute; right; left; reflexivity).
  split; [exact Hin|].
  destruct (argList_tokens sample_arguments (js "x=" ++ dq ++ js "q" ++ dq) Hin)
    as [H _].
  exact H.
Defined.

(** X13 on the sample arguments: the named parameter [x]. *)
Lemma parseArguments_params_witness :
  In (mkParam (js "x") (js "q") 1) (parseArguments sample_arguments)
  /\ 1 < length (argList sample_arguments).
Proof.
  assert (In (mkParam (js "x") (js "q") 1) (parseArguments sample_arguments)) as Hin
    by (vm_compute; right; left; reflexivity).
  split; [exact Hin|].
  destruct (parseArguments_params sample_arguments) as [H _].
  destruct (H _ Hin) as [Hi _]. exact Hi.
Defined.

(** X14 on the sample message. *)
Lemma handleAlerts_sends_normal_form_witness :
  In (js "hello world") (handleAlerts sample_message)
  /\ handleAlerts sample_message = [js "hello world"]
  /\ trim (js "hello world") = js "hello world".
Proof.
  assert (In (js "hello world") (handleAlerts sample_message)) as Hin
    by (vm_compute; left; reflexivity).
  split; [exact Hin|].
  destruct (handleAlerts_sends_normal_form sample_message (js "hello world") Hin)
    as (H1 & _ & H2 & _).
  split; [exact H1 | exact H2].
Defined.

(** X15 on a message of plain words. *)
Lemma executeMessage_without_brace_witness :
  ~ In c_lbrace (js "hello world")
  /\ executeMessage (new_Manager binance_catalog) (js "hello world") sample_credentials
     = mkMessageRun (new_Manager binance_catalog) [Resolved] [] [].
Proof.
  assert (~ In c_lbrace (js "hello world")) as Hno.
  { intros H. vm_compute in H.
    repeat (destruct H as [H|H]; [discriminate H|]). exact H. }
  split; [exact Hno|].
  exact (executeMessage_without_brace (new_Manager binance_catalog) (js "hello world")
           sample_credentials Hno).
Defined.
